(** * pnpack: packing a pnpm workspace project into an archive

    A shallow embedding of [src/pnpack.mts] (both command variants, [zip]
    and [7zip]) and the properties of its path resolver, entry mapper and
    bounded archive pump.

    Conventions.  JavaScript strings are modelled as [string] (one [ascii]
    per code unit, so white space and line terminators are the ones below
    code point 256).  A promise that never settles is [None]; a rejected
    one carries an [error].  Child processes, the file system and the
    archive writer are the environment: a child is the list of events it
    emits, the file system is a function from paths to nodes, and
    [path.join] is a parameter.  The ceiling [concurrency] is an integer.
    An add operation takes effect on the archive and the console at the
    moment its promise settles.  The archive writer emits an [error]
    event when it cannot read the source of an entry it was handed
    ([writer_error] of the environment); its warnings, which only write
    to the console, are left out.  The output stream closes only after
    [finalize], and only when the writer could read every entry. *)

From Stdlib Require Import String Ascii List ZArith Lia Bool Arith DecimalString.
Import ListNotations.
Open Scope string_scope.

(** ** JavaScript string primitives used by the program *)
Module JS.

Definition LF : ascii := "010"%char.
Definition CR : ascii := "013"%char.

(** WhiteSpace and LineTerminator code points below 256:
    TAB, LF, VT, FF, CR, SPACE and NO-BREAK SPACE. *)
Definition is_white (c : ascii) : bool :=
  let n := nat_of_ascii c in
  ((n =? 9) || (n =? 10) || (n =? 11) || (n =? 12) || (n =? 13) || (n =? 32)
   || (n =? 160))%nat.

Fixpoint trimStart (s : string) : string :=
  match s with
  | EmptyString => EmptyString
  | String c s' => if is_white c then trimStart s' else s
  end.

Fixpoint trimEnd (s : string) : string :=
  match s with
  | EmptyString => EmptyString
  | String c s' =>
      match trimEnd s' with
      | EmptyString => if is_white c then EmptyString else String c EmptyString
      | t => String c t
      end
  end.

(** [String.prototype.trim]. *)
Definition trim (s : string) : string := trimEnd (trimStart s).

(** [s.split(sep)] for a one-character separator: never empty,
    [''.split(sep)] is [['']]. *)
Fixpoint split_on (sep : ascii) (s : string) : list string :=
  match s with
  | EmptyString => [EmptyString]
  | String c s' =>
      if Ascii.eqb c sep then EmptyString :: split_on sep s'
      else match split_on sep s' with
           | h :: t => String c h :: t
           | [] => [String c EmptyString]
           end
  end.

(** [s.split('\n')] *)
Definition split_nl (s : string) : list string := split_on LF s.

(** [s] without its first [n] characters. *)
Fixpoint drop (n : nat) (s : string) : string :=
  match n, s with
  | S n', String _ s' => drop n' s'
  | _, _ => s
  end.

Fixpoint replace_first_by_empty (s pat : string) : string :=
  if String.prefix pat s then drop (String.length pat) s
  else match s with
       | EmptyString => EmptyString
       | String c s' => String c (replace_first_by_empty s' pat)
       end.

(** [s.substring(1)]. *)
Definition substring1 (s : string) : string :=
  match s with
  | EmptyString => EmptyString
  | String _ s' => s'
  end.

(** Truthiness of a string: the empty string is falsy. *)
Definition truthy (s : string) : bool :=
  match s with EmptyString => false | _ => true end.

(** A [Set<T>] keeps its elements in insertion order, without repeats. *)
Section SetOf.
Context {T : Type} (T_eq_dec : forall x y : T, {x = y} + {x <> y}).

Definition set_add (x : T) (s : list T) : list T :=
  if in_dec T_eq_dec x s then s else s ++ [x].

Definition set_delete (x : T) (s : list T) : list T :=
  filter (fun y => if T_eq_dec x y then false else true) s.
End SetOf.

End JS.

(** ** Child processes and errors *)

(** [code] of the [exit] and [close] events is [null] ([None]) when the
    child was killed by a signal. *)
Inductive child_event : Type :=
| StdoutData (chunk : string)
| StderrData (chunk : string)
| StdoutEnd
| Exit (code : option Z)
| Close (code : option Z)
| ChildError (message : string).

Inductive error : Type :=
| CommandFailed (command : string) (args : list string) (code : option Z)
                (errorOutput : option string)
| SpawnError (message : string)
| FsError (message : string)
| PatternSyntaxError (source : string).  (* the [SyntaxError] of [new RegExp] *)

(** [code !== 0]. *)
Definition code_nonzero (code : option Z) : bool :=
  match code with
  | Some z => negb (Z.eqb z 0)
  | None => true
  end.

(** The state a [new Promise((resolve, reject) => ...)] executor closes
    over: the accumulated output and the promise itself, which only its
    first [resolve] or [reject] settles. *)
Record cmd_state : Type := mkCmd {
  output : string;
  errorOutput : string;
  settled : option (error + string)
}.

Definition settle (r : error + string) (st : cmd_state) : cmd_state :=
  match settled st with
  | Some _ => st
  | None => mkCmd (output st) (errorOutput st) (Some r)
  end.

Definition cmd_init : cmd_state := mkCmd "" "" None.

(** *** The [zip] variant (second file of [pnpack.mts]) *)
Module Zip.

(** The handlers [runPnpmCommand] attaches: [data] on both streams, [exit]
    and [error]. *)
Definition on_event (args : list string) (st : cmd_state) (ev : child_event)
  : cmd_state :=
  match ev with
  | StdoutData d => mkCmd (output st ++ d) (errorOutput st) (settled st)
  | StderrData d => mkCmd (output st) (errorOutput st ++ d) (settled st)
  | Exit code =>
      if code_nonzero code || JS.truthy (errorOutput st)
      then settle (inl (CommandFailed "pnpm" args code
                                      (Some (JS.trim (errorOutput st))))) st
      else settle (inr (JS.trim (output st))) st
  | ChildError m => settle (inl (SpawnError m)) st
  | StdoutEnd | Close _ => st
  end.

(** [runPnpmCommand(args)] against a child emitting [trace]. *)
Definition runPnpmCommand (args : list string) (trace : list child_event)
  : option (error + string) :=
  settled (fold_left (on_event args) trace cmd_init).

End Zip.

(** *** The [7zip] variant (first file of [pnpack.mts]) *)
Module SevenZip.

(** The handlers [runPnpmCommand] attaches: [data] on the standard output,
    [exit] and [error]; the error stream has no listener. *)
Definition on_event (args : list string) (st : cmd_state) (ev : child_event)
  : cmd_state :=
  match ev with
  | StdoutData d => mkCmd (output st ++ d) (errorOutput st) (settled st)
  | Exit code =>
      if code_nonzero code
      then settle (inl (CommandFailed "pnpm" args code None)) st
      else settle (inr (JS.trim (output st))) st
  | ChildError m => settle (inl (SpawnError m)) st
  | StderrData _ | StdoutEnd | Close _ => st
  end.

Definition runPnpmCommand (args : list string) (trace : list child_event)
  : option (error + string) :=
  settled (fold_left (on_event args) trace cmd_init).

(** [createLSFile]: [createWriteStream('listfile.txt')] creates the list
    file, or empties the one that is there, when the function is called;
    the lines of every chunk go into the set [uniqueLines]; on [close]
    with code 0 the set, joined by newlines, is written to the file and
    the promise resolves with its path.  [listfile] is the content of the
    file, [None] when there is no such file. *)
Record ls_state : Type := mkLs {
  uniqueLines : list string;
  listfile : option string;
  ls_settled : option (error + string)
}.

(** The state the executor of the promise sets up: the child spawned, the
    write stream opened (an empty file), an empty set. *)
Definition ls_init : ls_state := mkLs [] (Some "") None.

Definition ls_args (projectName : string) : list string :=
  ["ls"; "--filter"; projectName; "--depth"; "Infinity"; "--parseable"].

Definition ls_settle (r : error + string) (st : ls_state) : ls_state :=
  match ls_settled st with
  | Some _ => st
  | None => mkLs (uniqueLines st) (listfile st) (Some r)
  end.

Definition add_lines (chunk : string) (u : list string) : list string :=
  fold_left (fun u line => JS.set_add string_dec line u) (JS.split_nl chunk) u.

Definition ls_on_event (projectName : string) (st : ls_state)
           (ev : child_event) : ls_state :=
  match ev with
  | StdoutData chunk =>
      mkLs (add_lines chunk (uniqueLines st)) (listfile st) (ls_settled st)
  | Close code =>
      if code_nonzero code
      then ls_settle (inl (CommandFailed "pnpm" (ls_args projectName) code None)) st
      else ls_settle (inr "listfile.txt")
             (mkLs (uniqueLines st)
                   (Some (String.concat (String JS.LF "") (uniqueLines st)))
                   (ls_settled st))
  | ChildError m => ls_settle (inl (SpawnError m)) st
  | StderrData _ | StdoutEnd | Exit _ => st
  end.

Definition createLSFile (projectName : string) (trace : list child_event)
  : ls_state :=
  fold_left (ls_on_event projectName) trace ls_init.

End SevenZip.

(** ** Regular expressions: the patterns [projectExists] builds

    [new RegExp(`^${projectName}@`, 'm')] splices the project name into the
    pattern source.  Two kinds of names are modelled.  A name of ordinary
    characters and dots gives a pattern whose ordinary characters match
    themselves and whose dots match any character but a line terminator.
    A name that holds, besides these, the quantifier characters [*], [+]
    and [?] is parsed as far as it takes to tell whether [new RegExp]
    throws a [SyntaxError] ([Nothing to repeat]).  Every other name
    (a quantified pattern that is well formed, or one with another syntax
    character) is outside the model. *)
Module Regex.

Inductive atom : Type :=
| Lit (c : ascii)
| AnyChar.

Definition is_line_terminator (c : ascii) : bool :=
  Ascii.eqb c JS.LF || Ascii.eqb c JS.CR.

(** SyntaxCharacter of the pattern grammar. *)
Definition is_syntax_char (c : ascii) : bool :=
  existsb (Ascii.eqb c)
          (list_ascii_of_string "^$\.*+?()[]{}|").

Fixpoint compile (src : string) : option (list atom) :=
  match src with
  | EmptyString => Some []
  | String c src' =>
      match compile src' with
      | None => None
      | Some atoms =>
          if Ascii.eqb c "."%char then Some (AnyChar :: atoms)
          else if is_syntax_char c then None
          else Some (Lit c :: atoms)
      end
  end.

(** The characters of a QuantifierPrefix. *)
Definition is_quantifier_char (c : ascii) : bool :=
  existsb (Ascii.eqb c) (list_ascii_of_string "*+?").

(** Where the parser stands: after an assertion or a complete quantifier
    there is nothing a quantifier could repeat; after an atom there is;
    after a quantifier prefix only the [?] that makes it lazy may follow. *)
Inductive position : Type :=
| NothingToRepeat
| AfterAtom
| AfterQuantifier.

(** Whether every quantifier character of [src] has something to repeat,
    for a source of ordinary characters, dots and quantifier characters. *)
Fixpoint quantifiers_ok (pos : position) (src : string) : bool :=
  match src with
  | EmptyString => true
  | String c src' =>
      if is_quantifier_char c then
        match pos with
        | AfterAtom => quantifiers_ok AfterQuantifier src'
        | AfterQuantifier =>
            Ascii.eqb c "?"%char && quantifiers_ok NothingToRepeat src'
        | NothingToRepeat => false
        end
      else quantifiers_ok AfterAtom src'
  end.

(** Only ordinary characters, dots and quantifier characters. *)
Definition quantified_source (src : string) : bool :=
  forallb (fun c => negb (is_syntax_char c) || Ascii.eqb c "."%char
                    || is_quantifier_char c)
          (list_ascii_of_string src).

(** What [new RegExp(`^${name}@`, 'm')] makes of a name. *)
Inductive parsed : Type :=
| Atoms (atoms : list atom)   (* the pattern [^atoms@] *)
| SyntaxError                 (* the constructor throws *)
| Outside.                    (* not modelled *)

(** The name stands right after the assertion [^]. *)
Definition parse (name : string) : parsed :=
  match compile name with
  | Some atoms => Atoms atoms
  | None =>
      if quantified_source name && negb (quantifiers_ok NothingToRepeat name)
      then SyntaxError
      else Outside
  end.

Fixpoint match_here (atoms : list atom) (s : string) : bool :=
  match atoms, s with
  | [], _ => true
  | _ :: _, EmptyString => false
  | Lit c :: atoms', String d s' => Ascii.eqb c d && match_here atoms' s'
  | AnyChar :: atoms', String d s' =>
      negb (is_line_terminator d) && match_here atoms' s'
  end.

(** [/^atoms/m.test(s)]: with the [m] flag the caret matches at the start
    of the input and after every line terminator. *)
Fixpoint test_from (at_line_start : bool) (atoms : list atom) (s : string)
  : bool :=
  (at_line_start && match_here atoms s)
  || match s with
     | EmptyString => false
     | String c s' => test_from (is_line_terminator c) atoms s'
     end.

Definition test_multiline_anchored (atoms : list atom) (s : string) : bool :=
  test_from true atoms s.

End Regex.

(** [new RegExp(`^${projectName}@`, 'm').test(output)]: [inl] when the
    constructor throws, [None] for a name outside the model. *)
Definition projectExists_test (projectName output : string)
  : option (error + bool) :=
  match Regex.parse projectName with
  | Regex.Atoms atoms =>
      Some (inr (Regex.test_multiline_anchored (atoms ++ [Regex.Lit "@"%char]) output))
  | Regex.SyntaxError =>
      Some (inl (PatternSyntaxError ("^" ++ projectName ++ "@")))
  | Regex.Outside => None
  end.

(** [projectExists(projectName)], over the [runPnpmCommand] of either
    variant.  The promise is pending ([Some None]), rejected or resolved
    with the result of the test; the command is awaited first, so its
    failure comes before the pattern is built.  [None] when the command
    succeeds and the name is outside the model. *)
Definition projectExists
           (runPnpmCommand : list string -> list child_event -> option (error + string))
           (projectName : string) (trace : list child_event)
  : option (option (error + bool)) :=
  match runPnpmCommand ["list"; "--filter"; projectName] trace with
  | None => Some None
  | Some (inl e) => Some (Some (inl e))
  | Some (inr output) =>
      match projectExists_test projectName output with
      | None => None
      | Some r => Some (Some r)
      end
  end.

(** ** The dependency listing of the [zip] variant

    The [data] handler of the [pnpm ls] child in [createArchive]. *)
Module Listing.

Record t : Type := mk {
  firstLine : bool;
  allPaths : list string
}.

Definition init : t := mk true [].

Definition on_line (st : t) (line : string) : t :=
  if firstLine st then mk false (allPaths st)
  else mk (firstLine st) (allPaths st ++ [JS.trim line]).

Definition on_data (st : t) (data : string) : t :=
  fold_left on_line (JS.split_nl data) st.

(** [allPaths] once the chunks [chunks] have arrived. *)
Definition parse (chunks : list string) : list string :=
  allPaths (fold_left on_data chunks init).

End Listing.

(** ** The environment of an archive run *)

Inductive fs_node : Type :=
| Missing                                  (* [access] rejects *)
| RegularFile                              (* [stats.isFile()] *)
| Directory (items : error + list string)  (* [stats.isDirectory()], and what [readdir] gives *)
| OtherNode.                               (* neither: a socket, a device, ... *)

Record env : Type := mkEnv {
  fs : string -> fs_node;
  (** the events of the [k]-th child spawned in the run, given its arguments *)
  pnpm : nat -> list string -> list child_event;
  (** [path.join] of [node:path], on two segments *)
  path_join : string -> string -> string;
  (** the error the archive writer emits when it comes to read the source
      of an entry, [None] when it can read it *)
  writer_error : string -> option error
}.

Inductive notice : Type :=
| SkipWarning (absolutePath : string)   (* console.warn(`Path "..." does not exist. Skipping...`) *)
| Processing (absolutePath : string)    (* console.log(`Processing: ...`) *)
| AddError (e : error).                 (* console.error(`Error adding to archive: ...`) *)

Record world : Type := mkWorld {
  spawned : list (list string);         (* arguments of the children spawned so far *)
  archive : list (string * string);     (* [archive.file(source, { name })] calls so far *)
  console : list notice
}.

(** ** The entry mapper: [addToArchive] of the [zip] variant *)
Module Mapper.

(** An [async] computation over the world: [None] never settles,
    [inl e] rejects with [e], [inr a] fulfils with [a]. *)
Definition M (A : Type) : Type := world -> option (world * (error + A)).

Definition ret {A} (a : A) : M A := fun w => Some (w, inr a).

Definition bind {A B} (m : M A) (f : A -> M B) : M B :=
  fun w =>
    match m w with
    | None => None
    | Some (w', inl e) => Some (w', inl e)
    | Some (w', inr a) => f a w'
    end.

(** [m.catch(h)] *)
Definition catch {A} (m : M A) (h : error -> M A) : M A :=
  fun w =>
    match m w with
    | Some (w', inl e) => h e w'
    | r => r
    end.

Notation "x <- m ;; k" := (bind m (fun x => k))
  (at level 61, m at next level, right associativity).
Notation "m ;;; k" := (bind m (fun _ => k))
  (at level 61, right associativity).

Fixpoint for_of {A} (items : list A) (body : A -> M unit) : M unit :=
  match items with
  | [] => ret tt
  | item :: items' => body item ;;; for_of items' body
  end.

Definition console_write (n : notice) : M unit :=
  fun w => Some (mkWorld (spawned w) (archive w) (console w ++ [n]), inr tt).

Definition archive_file (source name : string) : M unit :=
  fun w => Some (mkWorld (spawned w) (archive w ++ [(source, name)]) (console w), inr tt).

Section WithEnv.
Variable E : env.

(** [access(p).then(() => true).catch(() => false)] *)
Definition access_ok (p : string) : M bool :=
  ret (match fs E p with Missing => false | _ => true end).

Definition stat (p : string) : M fs_node :=
  fun w =>
    match fs E p with
    | Missing => Some (w, inl (FsError p))
    | node => Some (w, inr node)
    end.

Definition readdir (p : string) : M (list string) :=
  fun w =>
    match fs E p with
    | Directory (inr items) => Some (w, inr items)
    | Directory (inl e) => Some (w, inl e)
    | _ => Some (w, inl (FsError p))
    end.

(** [runPnpmCommand(args)]: spawns one more child. *)
Definition runPnpmCommand (args : list string) : M string :=
  fun w =>
    match Zip.runPnpmCommand args (pnpm E (List.length (spawned w)) args) with
    | None => None
    | Some r => Some (mkWorld (spawned w ++ [args]) (archive w) (console w), r)
    end.

Definition getRootPath : M string := runPnpmCommand ["root"].

(** [absolutePath.replace(rootPath, '').substring(1)] *)
Definition relativeOf (rootPath absolutePath : string) : string :=
  JS.substring1 (JS.replace_first_by_empty absolutePath rootPath).

Definition addToArchive (absolutePath : string) (verbose : bool) : M unit :=
  ok <- access_ok absolutePath ;;
  if negb ok then console_write (SkipWarning absolutePath)
  else
    rootPath <- getRootPath ;;
    let relativePath := relativeOf rootPath absolutePath in
    stats <- stat absolutePath ;;
    (if verbose then console_write (Processing absolutePath) else ret tt) ;;;
    match stats with
    | RegularFile => archive_file absolutePath relativePath
    | Directory _ =>
        items <- readdir absolutePath ;;
        for_of items (fun item =>
          let itemPath := path_join E absolutePath item in
          archive_file itemPath (path_join E relativePath item))
    | _ => ret tt
    end.

(** The operation the pump dispatches:
    [addToArchive(itemPath, archive, verbose).catch((error) => console.error(...))] *)
Definition guarded_add (itemPath : string) (verbose : bool) : M unit :=
  catch (addToArchive itemPath verbose) (fun e => console_write (AddError e)).

End WithEnv.

End Mapper.

(** ** The bounded archive pump: [createArchive] of the [zip] variant

    The run is a transition system over the events of the Node event loop:
    the [data] and [end] events of the listing child, the settlement of a
    dispatched add operation, the [close] event of the output stream, and
    the execution of the oldest microtask.  Promises are numbered in
    dispatch order.  A reaction attached with [then] to a pending promise
    waits in [registered] and moves to the microtask queue, in registration
    order, when the promise settles; attached to a settled promise it is
    queued at once. *)
Module Pump.

Inductive reaction : Type :=
| RDelete (p : nat)   (* [() => runningPromises.delete(promise)] *)
| RRace (r : nat)     (* settles the promise of the [r]-th [Promise.race] *)
| RAll.               (* resolves one element of [Promise.all] *)

Inductive job : Type :=
| JReact (p : nat) (r : reaction)   (* reaction [r] of promise [p] *)
| JResume.                          (* the [end] handler resumes after its [await] *)

(** Where the [async] handler of the [end] event stands. *)
Inductive phase : Type :=
| Listening                                            (* [end] not yet emitted *)
| AwaitRace (r : nat) (itemPath : string) (rest : list string)
| RaceWon (itemPath : string) (rest : list string)     (* the race settled, resumption queued *)
| AwaitAll
| AllWon
| AwaitClose                                           (* [await archivePromise] *)
| CloseWon
| Finished
| Crashed (e : error).     (* an [await] threw or [archivePromise] was rejected:
                              nobody handles the rejection, which ends the process *)

Record state : Type := mkState {
  returned : bool;                    (* the promise [createArchive] returned is fulfilled *)
  listing : Listing.t;                (* [firstLine] and [allPaths] *)
  dispatched : list string;           (* path of each promise created, by number *)
  outcomes : list (nat * option error); (* settled promises: fulfilled or rejected *)
  registered : list job;              (* reactions waiting on pending promises *)
  runningPromises : list nat;
  microtasks : list job;
  phase_of : phase;
  races : nat;                        (* [Promise.race] calls so far *)
  all_waiting : list nat;             (* elements [Promise.all] still waits for *)
  finalized : bool;                   (* [archive.finalize()] was called *)
  closed : bool;                      (* the output stream emitted [close] *)
  world_of : world
}.

Record config : Type := mkConfig {
  projectName : string;
  output_path : string;
  concurrency : Z;
  verbose : bool
}.

Inductive event : Type :=
| EvData (chunk : string)
| EvEnd
| EvSettle (p : nat)
| EvTick
| EvClose
| EvArchiveError (source : string).   (* the [error] event of the archive writer *)

Definition ls_args (name : string) : list string :=
  ["ls"; "--filter"; name; "--depth"; "Infinity"; "--parseable"].

Definition set_phase (ph : phase) (s : state) : state :=
  mkState (returned s) (listing s) (dispatched s) (outcomes s) (registered s)
          (runningPromises s) (microtasks s) ph (races s) (all_waiting s)
          (finalized s) (closed s) (world_of s).

Definition set_running (l : list nat) (s : state) : state :=
  mkState (returned s) (listing s) (dispatched s) (outcomes s) (registered s)
          l (microtasks s) (phase_of s) (races s) (all_waiting s)
          (finalized s) (closed s) (world_of s).

Definition set_microtasks (l : list job) (s : state) : state :=
  mkState (returned s) (listing s) (dispatched s) (outcomes s) (registered s)
          (runningPromises s) l (phase_of s) (races s) (all_waiting s)
          (finalized s) (closed s) (world_of s).

Definition set_registered (l : list job) (s : state) : state :=
  mkState (returned s) (listing s) (dispatched s) (outcomes s) l
          (runningPromises s) (microtasks s) (phase_of s) (races s) (all_waiting s)
          (finalized s) (closed s) (world_of s).

Definition enqueue (j : job) (s : state) : state :=
  set_microtasks (microtasks s ++ [j]) s.

Definition lookup (p : nat) (o : list (nat * option error))
  : option (option error) :=
  match find (fun x => Nat.eqb (fst x) p) o with
  | Some x => Some (snd x)
  | None => None
  end.

Definition outcome_of (p : nat) (s : state) : option (option error) :=
  lookup p (outcomes s).

Definition settled_in (o : list (nat * option error)) (p : nat) : bool :=
  match lookup p o with Some _ => true | None => false end.

Definition is_settled (p : nat) (s : state) : bool :=
  settled_in (outcomes s) p.

(** [promise.then(reaction)] *)
Definition then_ (p : nat) (r : reaction) (s : state) : state :=
  if is_settled p s then enqueue (JReact p r) s
  else set_registered (registered s ++ [JReact p r]) s.

Definition from_promise (p : nat) (j : job) : bool :=
  match j with
  | JReact q _ => Nat.eqb q p
  | JResume => false
  end.

(** The three statements that follow the ceiling test in the loop body. *)
Definition dispatch (itemPath : string) (s : state) : state :=
  let p := List.length (dispatched s) in
  then_ p (RDelete p)
    (mkState (returned s) (listing s) (dispatched s ++ [itemPath]) (outcomes s)
             (registered s) (JS.set_add Nat.eq_dec p (runningPromises s))
             (microtasks s) (phase_of s) (races s) (all_waiting s)
             (finalized s) (closed s) (world_of s)).

(** [await Promise.race(runningPromises)]: a reaction on every member, in
    the order of the set; over the empty set the race never settles. *)
Definition start_race (itemPath : string) (rest : list string) (s : state)
  : state :=
  let r := races s in
  fold_left (fun s p => then_ p (RRace r) s) (runningPromises s)
    (mkState (returned s) (listing s) (dispatched s) (outcomes s)
             (registered s) (runningPromises s) (microtasks s)
             (AwaitRace r itemPath rest) (S r) (all_waiting s)
             (finalized s) (closed s) (world_of s)).

(** [await Promise.all(runningPromises)]: over the empty set it is
    fulfilled at once. *)
Definition start_all (s : state) : state :=
  match runningPromises s with
  | [] => enqueue JResume (set_phase AllWon s)
  | ps =>
      fold_left (fun s p => then_ p RAll s) ps
        (mkState (returned s) (listing s) (dispatched s) (outcomes s)
                 (registered s) (runningPromises s) (microtasks s)
                 AwaitAll (races s) ps
                 (finalized s) (closed s) (world_of s))
  end.

Section WithConfig.
Variable E : env.
Variable C : config.

(** [for (const itemPath of allPaths) { ... }] followed by the
    [Promise.all], run until the next [await] suspends the handler. *)
Fixpoint loop (paths : list string) (s : state) : state :=
  match paths with
  | [] => start_all s
  | itemPath :: rest =>
      if (Z.of_nat (List.length (runningPromises s)) >=? concurrency C)%Z
      then start_race itemPath rest s
      else loop rest (dispatch itemPath s)
  end.

(** What follows the suspended [await] of each phase. *)
Definition resume (s : state) : state :=
  match phase_of s with
  | RaceWon itemPath rest => loop rest (dispatch itemPath s)
  | AllWon =>
      mkState (returned s) (listing s) (dispatched s) (outcomes s)
              (registered s) (runningPromises s) (microtasks s)
              AwaitClose (races s) (all_waiting s)
              true (closed s) (world_of s)
  | CloseWon => set_phase Finished s
  | _ => s
  end.

Definition run_job (j : job) (s : state) : state :=
  match j with
  | JResume => resume s
  | JReact p (RDelete q) =>
      match outcome_of p s with
      | Some None => set_running (JS.set_delete Nat.eq_dec q (runningPromises s)) s
      | _ => s
      end
  | JReact p (RRace r) =>
      match phase_of s with
      | AwaitRace r' itemPath rest =>
          if Nat.eqb r r' then
            match outcome_of p s with
            | Some None => enqueue JResume (set_phase (RaceWon itemPath rest) s)
            | Some (Some e) => set_phase (Crashed e) s
            | None => s
            end
          else s
      | _ => s
      end
  | JReact p RAll =>
      match phase_of s with
      | AwaitAll =>
          match outcome_of p s with
          | Some None =>
              match JS.set_delete Nat.eq_dec p (all_waiting s) with
              | [] => enqueue JResume (set_phase AllWon s)
              | ps =>
                  mkState (returned s) (listing s) (dispatched s) (outcomes s)
                          (registered s) (runningPromises s) (microtasks s)
                          (phase_of s) (races s) ps
                          (finalized s) (closed s) (world_of s)
              end
          | Some (Some e) => set_phase (Crashed e) s
          | None => s
          end
      | _ => s
      end
  end.

(** The state [createArchive(projectName, output, concurrency, verbose)]
    leaves behind when it returns.  Its body creates the output stream
    and the archive, spawns the listing child and attaches the [data]
    and [end] handlers; it holds no [await], so it runs to its end and
    the promise it returns is fulfilled then. *)
Definition createArchive : state :=
  mkState true Listing.init [] [] [] [] [] Listening 0 [] false false
          (mkWorld [ls_args (projectName C)] [] []).

(** When promise [p] settles: the add operation has run against the
    world, and the reactions waiting on [p] are queued. *)
Definition settle_promise (p : nat) (itemPath : string) (s : state)
  : option state :=
  match Mapper.guarded_add E itemPath (verbose C) (world_of s) with
  | None => None
  | Some (w', res) =>
      Some (mkState (returned s) (listing s) (dispatched s)
              ((p, match res with inl e => Some e | inr _ => None end)
                 :: outcomes s)
              (filter (fun j => negb (from_promise p j)) (registered s))
              (runningPromises s)
              (microtasks s ++ filter (from_promise p) (registered s))
              (phase_of s) (races s) (all_waiting s)
              (finalized s) (closed s) w')
  end.

(** Whether the archive writer was handed an entry with this source. *)
Definition queued (source : string) (s : state) : bool :=
  existsb (fun entry => String.eqb (fst entry) source) (archive (world_of s)).

(** Whether the archive writer can read every entry it was handed. *)
Definition writable (s : state) : bool :=
  forallb (fun entry => match writer_error E (fst entry) with
                        | None => true
                        | Some _ => false
                        end)
          (archive (world_of s)).

(** The handlers of the events, in a process that is running.  The
    [error] event of the archive writer rejects [archivePromise]
    ([archive.on('error', reject)]); whether the handler is awaiting that
    promise or has not come to it yet, nothing handles the rejection. *)
Definition handle (ev : event) (s : state) : option state :=
  match ev with
  | EvData chunk =>
      match phase_of s with
      | Listening =>
          Some (mkState (returned s) (Listing.on_data (listing s) chunk)
                  (dispatched s) (outcomes s) (registered s)
                  (runningPromises s) (microtasks s) (phase_of s) (races s)
                  (all_waiting s) (finalized s) (closed s) (world_of s))
      | _ => None
      end
  | EvEnd =>
      match phase_of s with
      | Listening => Some (loop (Listing.allPaths (listing s)) s)
      | _ => None
      end
  | EvSettle p =>
      match nth_error (dispatched s) p with
      | Some itemPath =>
          if is_settled p s then None else settle_promise p itemPath s
      | None => None
      end
  | EvTick =>
      match microtasks s with
      | [] => None
      | j :: js => Some (run_job j (set_microtasks js s))
      end
  | EvClose =>
      match phase_of s with
      | AwaitClose =>
          if writable s then
            Some (enqueue JResume
                    (mkState (returned s) (listing s) (dispatched s) (outcomes s)
                       (registered s) (runningPromises s) (microtasks s)
                       CloseWon (races s) (all_waiting s)
                       (finalized s) true (world_of s)))
          else None
      | _ => None
      end
  | EvArchiveError source =>
      if closed s then None
      else if queued source s then
        match writer_error E source with
        | Some e => Some (set_phase (Crashed e) s)
        | None => None
        end
      else None
  end.

(** A process that was ended takes no more events. *)
Definition step (ev : event) (s : state) : option state :=
  match phase_of s with
  | Crashed _ => None
  | _ => handle ev s
  end.

Inductive reachable : state -> Prop :=
| reach_init : reachable createArchive
| reach_step : forall s ev s',
    reachable s -> step ev s = Some s' -> reachable s'.

Fixpoint run (evs : list event) (s : state) : option state :=
  match evs with
  | [] => Some s
  | ev :: evs' =>
      match step ev s with
      | Some s' => run evs' s'
      | None => None
      end
  end.

(** Add operations dispatched and not yet settled. *)
Definition in_flight (s : state) : list nat :=
  filter (fun p => negb (is_settled p s)) (seq 0 (List.length (dispatched s))).

End WithConfig.

End Pump.

(** ** The rest of the [7zip] variant: [createArchive] *)
Module SevenZipArchive.

(** [String(n)] of an integer, as a template literal prints it. *)
Definition show (n : Z) : string :=
  DecimalString.NilZero.string_of_int (Z.to_int n).

(** The arguments of the [7z] child.  The archive name is the literal
    ['output'], not the [output] parameter. *)
Definition sevenzip_args (concurrency : Z) : list string :=
  ["a"; "output"; "@listfile.txt"; "-aos"; "-spf"; "-spe";
   "-mmt" ++ show concurrency; "-mx9"].

(** Where [createArchive] stands once the listing child has emitted
    [trace]: its promise, the children it has spawned and the list file.
    The function returns right after spawning [7z]; the [close] handler of
    that child runs later, outside the promise. *)
Record run : Type := mkRun {
  promise : option (error + unit);
  children : list (string * list string);
  listfile_content : option string
}.

Definition createArchive (projectName output : string) (concurrency : Z)
           (verbose : bool) (trace : list child_event) : run :=
  let ls := SevenZip.createLSFile projectName trace in
  let pnpm_ls := ("pnpm", SevenZip.ls_args projectName) in
  match SevenZip.ls_settled ls with
  | None => mkRun None [pnpm_ls] (SevenZip.listfile ls)
  | Some (inl e) => mkRun (Some (inl e)) [pnpm_ls] (SevenZip.listfile ls)
  | Some (inr lsFilePath) =>
      mkRun (Some (inr tt)) [pnpm_ls; ("7z", sevenzip_args concurrency)]
            (SevenZip.listfile ls)
  end.

(** The [async] handler of the [close] event of the [7z] child.  [unlink]
    rejects with [unlink_error] when that is [Some]. *)
Inductive close_notice : Type :=
| UnlinkFailed (lsFilePath message : string).

Record close_run : Type := mkCloseRun {
  unlinked : bool;                      (* the list file was removed *)
  close_console : list close_notice;
  root_spawned : bool;                  (* [getRootPath()] was called *)
  close_promise : option (error + unit) (* the promise of the handler *)
}.

Definition on_close (concurrency : Z) (lsFilePath : string)
           (unlink_error : option string) (root_trace : list child_event)
           (code : option Z) : close_run :=
  let removed := match unlink_error with None => true | Some _ => false end in
  let warned := match unlink_error with
                | None => []
                | Some m => [UnlinkFailed lsFilePath m]
                end in
  if code_nonzero code
  then mkCloseRun removed warned false
         (Some (inl (CommandFailed "7z" (sevenzip_args concurrency) code None)))
  else match SevenZip.runPnpmCommand ["root"] root_trace with
       | None => mkCloseRun removed warned true None
       | Some (inl e) => mkCloseRun removed warned true (Some (inl e))
       | Some (inr _) => mkCloseRun removed warned true (Some (inr tt))
       end.

End SevenZipArchive.

(** ** The command handlers of both variants *)
Module Cli.

(** [s.endsWith(suffix)] *)
Fixpoint endsWith (s suffix : string) : bool :=
  if String.eqb s suffix then true
  else match s with
       | EmptyString => false
       | String _ s' => endsWith s' suffix
       end.

Inductive cli_error : Type :=
| CommandError (e : error)
| OutputDirMissing (outputDir : string).  (* [Output directory "..." does not exist.] *)

Inductive notice : Type :=
| CheckingProject (project : string)      (* console.log *)
| ProjectMissing (project : string)       (* console.error *)
| CheckingOutput (output : string)        (* console.log *)
| BadExtension (output : string)          (* console.error *)
| AnErrorOccurred (e : cli_error).        (* console.error of the [catch] *)

Inductive outcome : Type :=
| Pending                  (* an awaited promise never settles *)
| Exited (code : Z)        (* [process.exit(code)] *)
| Threw (e : cli_error)    (* the handler's promise is rejected *)
| Returned.                (* the handler's promise is fulfilled *)

Record result : Type := mkResult {
  outcome_of : outcome;
  console_of : list notice;
  (** the arguments [createArchive] was called with, if it was *)
  archive_call : option Pump.config
}.

Section Handlers.
(** [fs] of the environment answers [access]; [dirname] is the one of
    [node:path]. *)
Variable E : env.
Variable dirname : string -> string.

(** The statements both handlers share, up to the call of
    [createArchive]: [inr C] when the call is reached.  [exists_] is the
    promise of [projectExists(project)]. *)
Definition validate (project output : string) (concurrency : Z) (verbose : bool)
           (exists_ : option (error + bool)) : result + (list notice * Pump.config) :=
  let log1 := [CheckingProject project] in
  match exists_ with
  | None => inl (mkResult Pending log1 None)
  | Some (inl e) => inl (mkResult (Threw (CommandError e)) log1 None)
  | Some (inr false) =>
      inl (mkResult (Exited 1) (log1 ++ [ProjectMissing project]) None)
  | Some (inr true) =>
      let log2 := (log1 ++ [CheckingOutput output])%list in
      if negb (endsWith output ".zip")
      then inl (mkResult (Exited 1) (log2 ++ [BadExtension output]) None)
      else
        let outputDir := dirname output in
        match fs E outputDir with
        | Missing => inl (mkResult (Threw (OutputDirMissing outputDir)) log2 None)
        | _ => inr (log2, Pump.mkConfig project output concurrency verbose)
        end
  end.

(** The handler of the [zip] command: no [try]; [createArchive] returns a
    fulfilled promise. *)
Definition zip_handler (project output : string) (concurrency : Z) (verbose : bool)
           (exists_ : option (error + bool)) : result :=
  match validate project output concurrency verbose exists_ with
  | inl r => r
  | inr (log, C) => mkResult Returned log (Some C)
  end.

(** [catch (error) { console.error(...); process.exit(1); }] *)
Definition catch_exit (r : result) : result :=
  match outcome_of r with
  | Threw e =>
      mkResult (Exited 1) (console_of r ++ [AnErrorOccurred e]) (archive_call r)
  | _ => r
  end.

(** The handler of the [7zip] command: the same statements inside a [try],
    and the [createArchive] of that variant, which waits for the listing. *)
Definition sevenzip_handler (project output : string) (concurrency : Z)
           (verbose : bool) (exists_ : option (error + bool))
           (ls_trace : list child_event) : result :=
  catch_exit
    match validate project output concurrency verbose exists_ with
    | inl r => r
    | inr (log, C) =>
        match SevenZipArchive.promise
                (SevenZipArchive.createArchive project output concurrency
                                               verbose ls_trace) with
        | None => mkResult Pending log (Some C)
        | Some (inl e) => mkResult (Threw (CommandError e)) log (Some C)
        | Some (inr _) => mkResult Returned log (Some C)
        end
    end.

End Handlers.

End Cli.

(** * Vocabulary of the statements *)

Definition nl : string := String JS.LF "".

(** Events that neither handler of [runPnpmCommand] settles the promise on:
    all but [exit] and [error]. *)
Definition is_quiet (ev : child_event) : bool :=
  match ev with
  | Exit _ | ChildError _ => false
  | _ => true
  end.

(** Events [createLSFile] does not settle on: all but [close] and [error]. *)
Definition is_quiet_ls (ev : child_event) : bool :=
  match ev with
  | Close _ | ChildError _ => false
  | _ => true
  end.

Fixpoint stdout_of (tr : list child_event) : string :=
  match tr with
  | [] => ""
  | StdoutData d :: tr' => d ++ stdout_of tr'
  | _ :: tr' => stdout_of tr'
  end.

Fixpoint stderr_of (tr : list child_event) : string :=
  match tr with
  | [] => ""
  | StderrData d :: tr' => d ++ stderr_of tr'
  | _ :: tr' => stderr_of tr'
  end.

Definition rejects {A : Type} (r : option (error + A)) : Prop :=
  exists e, r = Some (inl e).

(** The line pieces the [data] handlers see: every chunk split on its own. *)
Definition line_pieces (chunks : list string) : list string :=
  flat_map JS.split_nl chunks.

(** The chunks a child wrote to its standard output. *)
Fixpoint stdout_chunks (tr : list child_event) : list string :=
  match tr with
  | [] => []
  | StdoutData d :: tr' => d :: stdout_chunks tr'
  | _ :: tr' => stdout_chunks tr'
  end.





(** Lines of a text under the [m] flag: cut at every line terminator. *)
Fixpoint lines_of (s : string) : list string :=
  match s with
  | EmptyString => [EmptyString]
  | String c s' =>
      if Regex.is_line_terminator c then EmptyString :: lines_of s'
      else match lines_of s' with
           | h :: t => String c h :: t
           | [] => [String c EmptyString]
           end
  end.

Definition some_line_begins_with (token output : string) : bool :=
  existsb (String.prefix token) (lines_of output).

Fixpoint has_char (c : ascii) (s : string) : bool :=
  match s with
  | EmptyString => false
  | String d s' => Ascii.eqb d c || has_char c s'
  end.

(** The pattern that matches a string literally. *)
Fixpoint literal (s : string) : list Regex.atom :=
  match s with
  | EmptyString => []
  | String c s' => Regex.Lit c :: literal s'
  end.

(** A name without pattern syntax and without line terminators. *)
Definition plain_name (name : string) : Prop :=
  forall c, has_char c name = true ->
            Regex.is_syntax_char c = false /\ Regex.is_line_terminator c = false.

(** Paths below a root: [root], a separator, and one or more segments
    joined by the separator, none of them empty or [..]. *)
Definition sep_str (sep : ascii) : string := String sep EmptyString.

Definition proper_segment (sep : ascii) (seg : string) : Prop :=
  seg <> "" /\ seg <> ".." /\ has_char sep seg = false.

Definition descendant (sep : ascii) (root : string) (segs : list string) : string :=
  root ++ sep_str sep ++ String.concat (sep_str sep) segs.

Definition begins_with (c : ascii) (s : string) : bool :=
  match s with
  | String d _ => Ascii.eqb d c
  | EmptyString => false
  end.

(** The entries an add operation hands to the archive for a path, given
    the root it was told. *)
Definition entries_under (E : env) (rootPath absolutePath : string)
  : list (string * string) :=
  let relativePath := Mapper.relativeOf rootPath absolutePath in
  match fs E absolutePath with
  | RegularFile => [(absolutePath, relativePath)]
  | Directory (inr items) =>
      map (fun item => (path_join E absolutePath item,
                        path_join E relativePath item)) items
  | _ => []
  end.

Definition on_disk (E : env) (p : string) : bool :=
  match fs E p with Missing => false | _ => true end.

(** A small workspace to run the definitions on: a file, a directory with
    a nested directory, a directory that cannot be read; counting the
    listing child as the first, the third child spawned reports another
    root and the fourth fails. *)
Definition demo_fs (p : string) : fs_node :=
  if String.eqb p "/ws/node_modules/a/index.js" then RegularFile
  else if String.eqb p "/ws/node_modules/d" then Directory (inr ["x.js"; "sub"])
  else if String.eqb p "/ws/node_modules/d/sub" then Directory (inr ["deep.js"])
  else if String.eqb p "/ws/node_modules/locked" then Directory (inl (FsError "EACCES"))
  else Missing.

Definition demo_pnpm (k : nat) (args : list string) : list child_event :=
  if Nat.eqb k 3 then [StderrData "ERR_PNPM"; Exit (Some 1%Z)]
  else if Nat.eqb k 2 then [StdoutData ("/ws" ++ nl); Exit (Some 0%Z)]
  else [StdoutData ("/ws/node_modules" ++ nl); Exit (Some 0%Z)].

Definition demo_env : env :=
  mkEnv demo_fs demo_pnpm (fun a b => a ++ "/" ++ b) (fun _ => None).

Definition demo_world : world :=
  mkWorld [Pump.ls_args "pkg"] [] [].

(** ** Invariants of the pump *)
Module PumpInv.
Import Pump.

(** The reaction [() => runningPromises.delete(promise)] of promise [p]. *)
Definition del_job (p : nat) : job := JReact p (RDelete p).

Definition race_job_of (p : nat) (j : job) : Prop :=
  exists r, j = JReact p (RRace r).

Definition is_race_job (r : nat) (j : job) : Prop :=
  exists p, j = JReact p (RRace r).

Definition live_del_job (running : list nat) (j : job) : Prop :=
  exists q, j = del_job q /\ In q running.

(** Reading [l] from its head, no [Q] job comes before the first [P] job. *)
Fixpoint guarded (P Q : job -> Prop) (l : list job) : Prop :=
  match l with
  | [] => True
  | j :: l' => P j \/ (~ Q j /\ guarded P Q l')
  end.

Definition size (s : state) : Z := Z.of_nat (List.length (runningPromises s)).

(** What holds of the promises and the queues whatever the handler is
    doing. *)
Record Core (C : config) (s : state) : Prop := mkCore {
  no_reject : forall p e, ~ In (p, Some e) (outcomes s);
  out_bound : forall p o, In (p, o) (outcomes s) ->
                          (p < List.length (dispatched s))%nat;
  queue_settled : forall p r, In (JReact p r) (microtasks s) ->
                              is_settled p s = true;
  reg_pending : forall p r, In (JReact p r) (registered s) ->
                            is_settled p s = false;
  job_bound : forall p r, In (JReact p r) (microtasks s ++ registered s) ->
                          (p < List.length (dispatched s))%nat;
  del_self : forall p q, In (JReact p (RDelete q)) (microtasks s ++ registered s) ->
                         p = q;
  pending_running : forall p, (p < List.length (dispatched s))%nat ->
                              is_settled p s = false ->
                              In p (runningPromises s);
  running_nodup : NoDup (runningPromises s);
  running_bound : forall p, In p (runningPromises s) ->
                            (p < List.length (dispatched s))%nat;
  size_le : (size s <= concurrency C)%Z;
  del_reg : forall p, In p (runningPromises s) -> is_settled p s = false ->
                      In (del_job p) (registered s) /\
                      guarded (eq (del_job p)) (race_job_of p) (registered s);
  del_queued : forall p, In p (runningPromises s) -> is_settled p s = true ->
                         In (del_job p) (microtasks s);
  race_fresh : forall p r, In (JReact p (RRace r)) (microtasks s ++ registered s) ->
                           (r < races s)%nat;
  not_closed_early : closed s = true -> finalized s = true
}.

Definition after_drain (ph : phase) : Prop :=
  ph = AllWon \/ ph = AwaitClose \/ ph = CloseWon \/ ph = Finished.

(** The paths the loop has still to dispatch. *)
Definition remaining (ph : phase) : list string :=
  match ph with
  | AwaitRace _ itemPath rest | RaceWon itemPath rest => itemPath :: rest
  | _ => []
  end.

Record Inv (C : config) (s : state) : Prop := mkInv {
  core : Core C s;
  race_guard : forall r i rest, phase_of s = AwaitRace r i rest ->
      (size s < concurrency C)%Z \/
      guarded (live_del_job (runningPromises s)) (is_race_job r) (microtasks s);
  race_won : forall i rest, phase_of s = RaceWon i rest ->
                            (size s < concurrency C)%Z;
  listening : phase_of s = Listening ->
              dispatched s = [] /\ races s = 0%nat /\ finalized s = false;
  paths_acc : phase_of s <> Listening ->
              (dispatched s ++ remaining (phase_of s))%list =
              Listing.allPaths (listing s);
  no_race_if_room :
    (Z.of_nat (List.length (Listing.allPaths (listing s))) <= concurrency C)%Z ->
    races s = 0%nat;
  all_wait : phase_of s = AwaitAll ->
             forall p, (p < List.length (dispatched s))%nat ->
                       is_settled p s = false -> In p (all_waiting s);
  drained : after_drain (phase_of s) ->
            forall p, (p < List.length (dispatched s))%nat ->
                      is_settled p s = true;
  fin_phase : finalized s = true ->
              phase_of s = AwaitClose \/ phase_of s = CloseWon \/
              phase_of s = Finished;
  await_close : phase_of s = AwaitClose -> finalized s = true;
  close_phase : phase_of s = CloseWon \/ phase_of s = Finished ->
                closed s = true /\ finalized s = true;
  not_crashed : forall e, phase_of s <> Crashed e
}.

(** What holds of every state: the invariant, or the process was ended in
    a state that had it. *)
Definition Safe (C : config) (s : state) : Prop :=
  Inv C s \/ exists s0 e, Inv C s0 /\ s = set_phase (Crashed e) s0.

(** Steps of the handler itself settle no promise, leave the world alone
    and only add to [dispatched]. *)
Definition frame (s s' : state) : Prop :=
  returned s' = returned s /\
  outcomes s' = outcomes s /\ world_of s' = world_of s /\
  exists extra, dispatched s' = (dispatched s ++ extra)%list.

(** *** Progress *)



(** Every promise the handler waits for has a reaction that is queued or
    will be. *)
Record Live (s : state) : Prop := mkLive {
  race_alive : forall r i rest, phase_of s = AwaitRace r i rest ->
      exists p, In (JReact p (RRace r)) (microtasks s ++ registered s);
  all_alive : phase_of s = AwaitAll ->
      all_waiting s <> [] /\
      forall p, In p (all_waiting s) ->
                In (JReact p RAll) (microtasks s ++ registered s);
  resume_queued : forall ph, phase_of s = ph ->
      (exists i rest, ph = RaceWon i rest) \/ ph = AllWon \/ ph = CloseWon ->
      In JResume (microtasks s)
}.

(** A bound on the events a run can still take, for a list of [n] paths. *)
Definition phase_cost (n : nat) (ph : phase) : nat :=
  match ph with
  | AwaitRace _ _ rest => 1 + ((n + 3) + List.length rest * (n + 3)) + 5
  | RaceWon _ rest => ((n + 3) + List.length rest * (n + 3)) + 5
  | AwaitAll => 5
  | AllWon => 4
  | AwaitClose => 3
  | CloseWon => 1
  | Listening | Finished | Crashed _ => 0
  end.

Definition base_cost (s : state) : nat :=
  List.length (microtasks s) + List.length (registered s)
  + List.length (in_flight s).

Definition cost (s : state) : nat :=
  base_cost s
  + phase_cost (List.length (Listing.allPaths (listing s))) (phase_of s).

End PumpInv.

(** A run over the small workspace: ceiling 2, five paths (one of them the
    empty line after the first chunk), one path missing, one directory
    unreadable, one root query failing. *)
Definition demo_config : Pump.config := Pump.mkConfig "pkg" "out.zip" 2 true.

Definition demo_chunks : list string :=
  ["/ws/packages/pkg" ++ nl ++ "/ws/node_modules/a/index.js" ++ nl
     ++ "/ws/node_modules/gone" ++ nl;
   "/ws/node_modules/locked" ++ nl ++ "/ws/node_modules/d"].

Definition demo_events : list Pump.event :=
  (map Pump.EvData demo_chunks ++
   [Pump.EvEnd;
    Pump.EvSettle 1; Pump.EvTick; Pump.EvTick; Pump.EvTick;
    Pump.EvSettle 2; Pump.EvTick; Pump.EvTick; Pump.EvTick;
    Pump.EvSettle 3; Pump.EvTick; Pump.EvTick; Pump.EvTick;
    Pump.EvSettle 4; Pump.EvTick; Pump.EvTick;
    Pump.EvSettle 0; Pump.EvTick; Pump.EvTick; Pump.EvTick;
    Pump.EvTick; Pump.EvTick; Pump.EvTick;
    Pump.EvClose; Pump.EvTick])%list.

(** The state the first [n] events of the run lead to. *)
Definition demo_state (n : nat) : Pump.state :=
  match Pump.run demo_env demo_config (firstn n demo_events)
                 (Pump.createArchive demo_config) with
  | Some s => s
  | None => Pump.createArchive demo_config
  end.






(** Dispatched add operations whose path is on disk and that have settled. *)
Definition settled_on_disk (E : env) (s : Pump.state) : nat :=
  List.length
    (filter (fun x => on_disk E (nth (fst x) (Pump.dispatched s) ""))
            (Pump.outcomes s)).

(** Proof steps shared by the invariant proofs. *)
Module PumpTactics.
Import Pump PumpInv.

Ltac open_state :=
  unfold is_settled, size in *; simpl in *.

Ltac phase_trivial :=
  try solve [ intros; discriminate
            | intros; congruence
            | intros [?|[?|[?|?]]]; discriminate
            | intros [?|[?|?]]; discriminate
            | intros [?|?]; discriminate
            | intros; exfalso; congruence ].

Ltac cost_simple Hq Hph :=
  unfold cost, base_cost, in_flight, is_settled, enqueue, set_phase,
    set_running, set_microtasks;
  simpl; rewrite ?Hq, ?Hph, ?length_app; simpl;
  split; [lia|congruence].

End PumpTactics.

(** ** Vocabulary of the further properties *)

Definition first_is_white (s : string) : bool :=
  match s with
  | EmptyString => false
  | String c _ => JS.is_white c
  end.

Fixpoint last_is_white (s : string) : bool :=
  match s with
  | EmptyString => false
  | String c EmptyString => JS.is_white c
  | String _ s' => last_is_white s'
  end.

(** Occurrences of a character in a string. *)
Fixpoint count_char (c : ascii) (s : string) : nat :=
  match s with
  | EmptyString => 0
  | String d s' => (if Ascii.eqb d c then 1 else 0) + count_char c s'
  end.

(** [pat] occurs somewhere in [s]: [s.indexOf(pat) >= 0]. *)
Fixpoint occursb (pat s : string) : bool :=
  String.prefix pat s
  || match s with
     | EmptyString => false
     | String _ s' => occursb pat s'
     end.

(** The answer the [pnpm root] child spawned in world [w] gives. *)
Definition root_answer (E : env) (w : world) : option (error + string) :=
  Zip.runPnpmCommand ["root"] (pnpm E (List.length (spawned w)) ["root"]).

(** The world after one more [pnpm root] child. *)
Definition with_root_child (w : world) : world :=
  mkWorld (spawned w ++ [["root"]]) (archive w) (console w).


(** *** The pump between [createArchive] and the [end] of the listing *)

(** The state while the listing child is still writing: since
    [createArchive] returned, only the [data] handler has run. *)
Definition listening_state (C : Pump.config) (chunks : list string) : Pump.state :=
  Pump.mkState true (fold_left Listing.on_data chunks Listing.init)
    [] [] [] [] [] Pump.Listening 0 [] false false
    (mkWorld [Pump.ls_args (Pump.projectName C)] [] []).

(** The chunks of the [data] events of a run. *)
Fixpoint data_of (evs : list Pump.event) : list string :=
  match evs with
  | [] => []
  | Pump.EvData chunk :: evs' => chunk :: data_of evs'
  | _ :: evs' => data_of evs'
  end.

(** The paths dispatched so far are the first of the listing, in its
    order, and the loop holds the others. *)
Definition ordered (s : Pump.state) : Prop :=
  exists rest,
    Listing.allPaths (Pump.listing s) = (Pump.dispatched s ++ rest)%list /\
    ((forall e, Pump.phase_of s <> Pump.Crashed e) ->
     rest = PumpInv.remaining (Pump.phase_of s)).

Record Track (C : Pump.config) (chunks : list string) (s : Pump.state) : Prop :=
  mkTrack {
  tr_listing : Pump.listing s = fold_left Listing.on_data chunks Listing.init;
  tr_listening : Pump.phase_of s = Pump.Listening -> s = listening_state C chunks;
  tr_order : Pump.phase_of s <> Pump.Listening -> ordered s
}.

(** The state in which the [end] handler awaits a race over no promise. *)
Definition stuck_state (C : Pump.config) (chunks : list string)
           (itemPath : string) (rest : list string) : Pump.state :=
  Pump.mkState true (fold_left Listing.on_data chunks Listing.init)
    [] [] [] [] [] (Pump.AwaitRace 0 itemPath rest) 1 [] false false
    (mkWorld [Pump.ls_args (Pump.projectName C)] [] []).

(** * Properties *)

(** ** String primitives *)

Lemma split_on_nonempty (sep : ascii) (s : string) : JS.split_on sep s <> [].
Proof.
  induction s as [|c s IH]; simpl; [discriminate|].
  destruct (Ascii.eqb c sep); [discriminate|].
  destruct (JS.split_on sep s); discriminate.
Qed.

Lemma append_empty_r (s : string) : s ++ "" = s.
Proof. induction s; simpl; congruence. Qed.

Lemma append_assoc (a b c : string) : (a ++ b) ++ c = a ++ b ++ c.
Proof. induction a; simpl; congruence. Qed.

Lemma prefix_append (p t : string) : String.prefix p (p ++ t) = true.
Proof.
  induction p as [|c p IH]; simpl; [destruct t; reflexivity|].
  destruct (ascii_dec c c); [assumption|congruence].
Qed.

Lemma drop_append (p t : string) : JS.drop (String.length p) (p ++ t) = t.
Proof. induction p; simpl; [destruct t; reflexivity|assumption]. Qed.

Lemma replace_first_unfold (s pat : string) :
  JS.replace_first_by_empty s pat =
  if String.prefix pat s then JS.drop (String.length pat) s
  else match s with
       | EmptyString => EmptyString
       | String c s' => String c (JS.replace_first_by_empty s' pat)
       end.
Proof. destruct s; reflexivity. Qed.

(** The leftmost occurrence of a prefix is the prefix itself. *)
Lemma replace_prefix (root t : string) :
  JS.replace_first_by_empty (root ++ t) root = t.
Proof.
  rewrite replace_first_unfold, prefix_append. apply drop_append.
Qed.

(** ** The dependency listing *)

Lemma fold_on_line (lines : list string) (st : Listing.t) :
  fold_left Listing.on_line lines st =
  if Listing.firstLine st
  then match lines with
       | [] => st
       | _ :: rest => Listing.mk false (Listing.allPaths st ++ map JS.trim rest)
       end
  else Listing.mk false (Listing.allPaths st ++ map JS.trim lines).
Proof.
  revert st. induction lines as [|l lines IH]; intros [fl ps]; simpl.
  - destruct fl; [reflexivity|]. now rewrite app_nil_r.
  - rewrite IH. unfold Listing.on_line; simpl.
    destruct fl; simpl.
    + reflexivity.
    + now rewrite <- app_assoc.
Qed.

Lemma fold_on_data (chunks : list string) (st : Listing.t) :
  Listing.allPaths (fold_left Listing.on_data chunks st) =
  (Listing.allPaths st ++
   map JS.trim (if Listing.firstLine st then tl (line_pieces chunks)
                else line_pieces chunks))%list.
Proof.
  revert st. induction chunks as [|ch chunks IH]; intros st; simpl.
  - destruct (Listing.firstLine st); simpl; now rewrite app_nil_r.
  - rewrite IH. unfold Listing.on_data. rewrite fold_on_line.
    unfold line_pieces, JS.split_nl.
    pose proof (split_on_nonempty JS.LF ch) as Hne.
    destruct (Listing.firstLine st); simpl.
    + destruct (JS.split_on JS.LF ch) as [|l ls]; [congruence|]. simpl.
      now rewrite map_app, app_assoc.
    + now rewrite map_app, app_assoc.
Qed.

Lemma parse_pieces (chunks : list string) :
  Listing.parse chunks = map JS.trim (tl (line_pieces chunks)).
Proof. unfold Listing.parse. now rewrite fold_on_data. Qed.

(** *** Chunks that end at line ends *)







(** ** Deduplication *)

Lemma set_add_In {T} (dec : forall x y : T, {x = y} + {x <> y}) x y s :
  In y (JS.set_add dec x s) <-> y = x \/ In y s.
Proof.
  unfold JS.set_add. destruct (in_dec dec x s) as [Hin|Hin].
  - split; [tauto|]. intros [->|H]; assumption.
  - rewrite in_app_iff. simpl. split; intros H; intuition (subst; auto).
Qed.

Lemma set_add_NoDup {T} (dec : forall x y : T, {x = y} + {x <> y}) x s :
  NoDup s -> NoDup (JS.set_add dec x s).
Proof.
  intros Hs. unfold JS.set_add. destruct (in_dec dec x s) as [Hin|Hin]; [assumption|].
  apply NoDup_app; [assumption|repeat constructor; tauto|].
  intros y Hy [<-|[]]. tauto.
Qed.

Lemma add_lines_spec (chunk : string) (u : list string) :
  (NoDup u -> NoDup (SevenZip.add_lines chunk u)) /\
  (forall l, In l (SevenZip.add_lines chunk u) <-> In l u \/ In l (JS.split_nl chunk)).
Proof.
  unfold SevenZip.add_lines. generalize (JS.split_nl chunk) as ls.
  intros ls; revert u. induction ls as [|x ls IH]; intros u; simpl.
  - split; [tauto|]. intros l; tauto.
  - destruct (IH (JS.set_add string_dec x u)) as [IH1 IH2]. split.
    + intros Hu. apply IH1, set_add_NoDup, Hu.
    + intros l. rewrite IH2, set_add_In. intuition.
Qed.

Lemma uniqueLines_fold (name : string) (tr : list child_event) (st : SevenZip.ls_state) :
  SevenZip.uniqueLines (fold_left (SevenZip.ls_on_event name) tr st) =
  fold_left (fun u chunk => SevenZip.add_lines chunk u) (stdout_chunks tr)
            (SevenZip.uniqueLines st).
Proof.
  revert st. induction tr as [|ev tr IH]; intros st; simpl; [reflexivity|].
  rewrite IH. destruct ev; simpl; try reflexivity.
  - destruct (code_nonzero code); unfold SevenZip.ls_settle; simpl;
      destruct (SevenZip.ls_settled st); reflexivity.
  - unfold SevenZip.ls_settle. destruct (SevenZip.ls_settled st); reflexivity.
Qed.

Lemma fold_add_lines_spec (chunks : list string) (u : list string) :
  (NoDup u -> NoDup (fold_left (fun u chunk => SevenZip.add_lines chunk u) chunks u)) /\
  (forall l, In l (fold_left (fun u chunk => SevenZip.add_lines chunk u) chunks u)
             <-> In l u \/ In l (line_pieces chunks)).
Proof.
  revert u. induction chunks as [|ch chunks IH]; intros u; simpl.
  - split; [tauto|]. intros l; tauto.
  - destruct (IH (SevenZip.add_lines ch u)) as [IH1 IH2].
    destruct (add_lines_spec ch u) as [A1 A2]. split.
    + intros Hu. auto.
    + intros l. rewrite IH2, A2, in_app_iff. tauto.
Qed.

(** C4, as stated, fails on the [zip] variant: a path listed twice is
    twice in [allPaths]. *)
Lemma C4_zip_keeps_duplicates :
  ~ (forall chunks p, In p (Listing.parse chunks) ->
                      count_occ string_dec (Listing.parse chunks) p = 1%nat).
Proof.
  intros H.
  specialize (H ["hdr" ++ nl ++ "/ws/a" ++ nl ++ "/ws/a"] "/ws/a").
  assert (Hin : In "/ws/a" (Listing.parse ["hdr" ++ nl ++ "/ws/a" ++ nl ++ "/ws/a"]))
    by (left; reflexivity).
  apply H in Hin. vm_compute in Hin. discriminate.
Qed.

(** C4 (amended): the set [uniqueLines] of [createLSFile] holds every line
    piece of the output exactly once; the array [allPaths] of the [zip]
    variant holds a path once for each of its lines after the first. *)
Theorem C4_set_dedups_array_does_not (name : string) (tr : list child_event)
        (chunks : list string) :
  (NoDup (SevenZip.uniqueLines (SevenZip.createLSFile name tr)) /\
   forall l, In l (line_pieces (stdout_chunks tr)) <->
             count_occ string_dec
               (SevenZip.uniqueLines (SevenZip.createLSFile name tr)) l = 1%nat) /\
  (forall p, count_occ string_dec (Listing.parse chunks) p =
             count_occ string_dec (map JS.trim (tl (line_pieces chunks))) p).
Proof.
  split.
  - unfold SevenZip.createLSFile. rewrite uniqueLines_fold. simpl.
    destruct (fold_add_lines_spec (stdout_chunks tr) []) as [Hnd Hin].
    specialize (Hnd (NoDup_nil _)). split; [assumption|].
    intros l. rewrite (NoDup_count_occ' string_dec) in Hnd.
    split.
    + intros Hl. apply Hnd, Hin. now right.
    + intros Hc.
      assert (Hl : In l (fold_left (fun u chunk => SevenZip.add_lines chunk u)
                                   (stdout_chunks tr) [])).
      { apply (count_occ_In string_dec). lia. }
      apply Hin in Hl. destruct Hl as [[]|Hl]. assumption.
  - intros p. now rewrite parse_pieces.
Qed.




(** ** The path resolver's subprocess *)

Lemma truthy_false_iff (s : string) : JS.truthy s = false <-> s = "".
Proof. destruct s; simpl; split; congruence. Qed.

Lemma code_nonzero_false_iff (code : option Z) :
  code_nonzero code = false <-> code = Some 0%Z.
Proof.
  destruct code as [z|]; simpl.
  - rewrite negb_false_iff, Z.eqb_eq. split; congruence.
  - split; discriminate.
Qed.

Lemma settle_settled (r : error + string) (st : cmd_state) (r0 : error + string) :
  settled st = Some r0 -> settle r st = st.
Proof. unfold settle. now intros ->. Qed.

Lemma zip_settled_stays (args : list string) (tr : list child_event)
      (st : cmd_state) (r : error + string) :
  settled st = Some r -> settled (fold_left (Zip.on_event args) tr st) = Some r.
Proof.
  revert st. induction tr as [|ev tr IH]; intros st Hs; simpl; [exact Hs|].
  apply IH. destruct ev; simpl; try exact Hs;
    try (destruct (_ || _)); rewrite (settle_settled _ _ _ Hs); exact Hs.
Qed.

Lemma sevenzip_settled_stays (args : list string) (tr : list child_event)
      (st : cmd_state) (r : error + string) :
  settled st = Some r -> settled (fold_left (SevenZip.on_event args) tr st) = Some r.
Proof.
  revert st. induction tr as [|ev tr IH]; intros st Hs; simpl; [exact Hs|].
  apply IH. destruct ev; simpl; try exact Hs;
    try (destruct (code_nonzero _)); rewrite (settle_settled _ _ _ Hs); exact Hs.
Qed.

Lemma zip_fold_quiet (args : list string) (tr : list child_event) (st : cmd_state) :
  Forall (fun ev => is_quiet ev = true) tr ->
  fold_left (Zip.on_event args) tr st =
  mkCmd (output st ++ stdout_of tr) (errorOutput st ++ stderr_of tr) (settled st).
Proof.
  intros H. revert st. induction H as [|ev tr Hev _ IH]; intros [o e r]; simpl.
  - now rewrite !append_empty_r.
  - rewrite IH. destruct ev; try discriminate; simpl;
      rewrite ?append_assoc; reflexivity.
Qed.

Lemma sevenzip_fold_quiet (args : list string) (tr : list child_event) (st : cmd_state) :
  Forall (fun ev => is_quiet ev = true) tr ->
  fold_left (SevenZip.on_event args) tr st =
  mkCmd (output st ++ stdout_of tr) (errorOutput st) (settled st).
Proof.
  intros H. revert st. induction H as [|ev tr Hev _ IH]; intros [o e r]; simpl.
  - now rewrite append_empty_r.
  - rewrite IH. destruct ev; try discriminate; simpl;
      rewrite ?append_assoc; reflexivity.
Qed.

Lemma ls_fold_quiet (name : string) (tr : list child_event) (st : SevenZip.ls_state) :
  Forall (fun ev => is_quiet_ls ev = true) tr ->
  SevenZip.ls_settled (fold_left (SevenZip.ls_on_event name) tr st)
  = SevenZip.ls_settled st /\
  SevenZip.listfile (fold_left (SevenZip.ls_on_event name) tr st)
  = SevenZip.listfile st.
Proof.
  intros H. revert st. induction H as [|ev tr Hev _ IH]; intros st; simpl.
  - split; reflexivity.
  - destruct (IH (SevenZip.ls_on_event name st ev)) as [H1 H2]. rewrite H1, H2.
    destruct ev; try discriminate; split; reflexivity.
Qed.

Lemma zip_run_exit (args : list string) (quiet rest : list child_event)
      (code : option Z) :
  Forall (fun ev => is_quiet ev = true) quiet ->
  Zip.runPnpmCommand args (quiet ++ Exit code :: rest) =
  Some (if code_nonzero code || JS.truthy (stderr_of quiet)
        then inl (CommandFailed "pnpm" args code (Some (JS.trim (stderr_of quiet))))
        else inr (JS.trim (stdout_of quiet))).
Proof.
  intros H. unfold Zip.runPnpmCommand.
  rewrite fold_left_app, (zip_fold_quiet args quiet _ H). simpl.
  apply zip_settled_stays.
  destruct (code_nonzero code || JS.truthy (stderr_of quiet)); reflexivity.
Qed.

Lemma sevenzip_run_exit (args : list string) (quiet rest : list child_event)
      (code : option Z) :
  Forall (fun ev => is_quiet ev = true) quiet ->
  SevenZip.runPnpmCommand args (quiet ++ Exit code :: rest) =
  Some (if code_nonzero code
        then inl (CommandFailed "pnpm" args code None)
        else inr (JS.trim (stdout_of quiet))).
Proof.
  intros H. unfold SevenZip.runPnpmCommand.
  rewrite fold_left_app, (sevenzip_fold_quiet args quiet _ H). simpl.
  apply sevenzip_settled_stays. destruct (code_nonzero code); reflexivity.
Qed.

Lemma createLSFile_close (name : string) (before : list child_event)
      (code : option Z) :
  Forall (fun ev => is_quiet_ls ev = true) before ->
  SevenZip.ls_settled (SevenZip.createLSFile name (before ++ [Close code])) =
  Some (if code_nonzero code
        then inl (CommandFailed "pnpm" (SevenZip.ls_args name) code None)
        else inr "listfile.txt").
Proof.
  intros H. unfold SevenZip.createLSFile. rewrite fold_left_app. simpl.
  destruct (ls_fold_quiet name before SevenZip.ls_init H) as [Hs _].
  unfold SevenZip.ls_settle.
  destruct (code_nonzero code); simpl; rewrite Hs; reflexivity.
Qed.

Lemma failed_iff (code : option Z) (err : string) :
  code_nonzero code || JS.truthy err = true <-> code <> Some 0%Z \/ err <> "".
Proof.
  rewrite orb_true_iff.
  pose proof (code_nonzero_false_iff code) as Hc.
  pose proof (truthy_false_iff err) as Ht.
  split.
  - intros [H|H]; [left|right]; intros E; [apply Hc in E|apply Ht in E]; congruence.
  - intros [H|H].
    + left. destruct (code_nonzero code); [reflexivity|].
      exfalso. apply H, Hc. reflexivity.
    + right. destruct (JS.truthy err); [reflexivity|].
      exfalso. apply H, Ht. reflexivity.
Qed.

(** C3, as stated, fails: the [runPnpmCommand] of the [7zip] variant does
    not listen to the error stream, and resolves when the child wrote
    there and exited with code 0. *)
Lemma C3_sevenzip_ignores_stderr :
  SevenZip.runPnpmCommand ["root"]
    [StdoutData ("/ws/node_modules" ++ nl); StderrData "WARN"; StdoutEnd;
     Exit (Some 0%Z); Close (Some 0%Z)]
  = Some (inr "/ws/node_modules").
Proof. reflexivity. Qed.

(** C3 (amended): for a child that exits, whatever it emits before and
    after, the [runPnpmCommand] of the [zip] variant rejects exactly when
    the exit code is not 0 or something was written to the error stream
    before the exit, with an error that names the command, and otherwise
    resolves with the trimmed standard output; [projectExists], which
    awaits it first, rejects with that error in exactly the same cases
    (when the command went well it still rejects, with a [SyntaxError],
    for a name [new RegExp] refuses).  The [runPnpmCommand] of the [7zip]
    variant rejects exactly when the exit code is not 0, and otherwise
    resolves with the trimmed standard output; the listing of that
    variant, [createLSFile], rejects exactly when the child closes with a
    code other than 0. *)
Theorem C3_runPnpmCommand_rejects_exactly_when
        (args : list string) (name : string)
        (quiet rest : list child_event) (code : option Z)
        (Hquiet : Forall (fun ev => is_quiet ev = true) quiet) :
  let trace := (quiet ++ Exit code :: rest)%list in
  (rejects (Zip.runPnpmCommand args trace)
     <-> code <> Some 0%Z \/ stderr_of quiet <> "") /\
  (code <> Some 0%Z \/ stderr_of quiet <> "" ->
     Zip.runPnpmCommand args trace =
     Some (inl (CommandFailed "pnpm" args code (Some (JS.trim (stderr_of quiet)))))) /\
  (code = Some 0%Z -> stderr_of quiet = "" ->
     Zip.runPnpmCommand args trace = Some (inr (JS.trim (stdout_of quiet)))) /\
  ((exists command args' code' err,
       projectExists Zip.runPnpmCommand name trace =
       Some (Some (inl (CommandFailed command args' code' err))))
     <-> code <> Some 0%Z \/ stderr_of quiet <> "") /\
  (code = Some 0%Z -> stderr_of quiet = "" ->
   Regex.parse name = Regex.SyntaxError ->
     projectExists Zip.runPnpmCommand name trace =
     Some (Some (inl (PatternSyntaxError ("^" ++ name ++ "@"))))) /\
  (rejects (SevenZip.runPnpmCommand args trace) <-> code <> Some 0%Z) /\
  (code = Some 0%Z ->
     SevenZip.runPnpmCommand args trace = Some (inr (JS.trim (stdout_of quiet)))) /\
  (forall before code',
      Forall (fun ev => is_quiet_ls ev = true) before ->
      (rejects (SevenZip.ls_settled
                  (SevenZip.createLSFile name (before ++ [Close code'])))
       <-> code' <> Some 0%Z)).
Proof.
  intros trace. subst trace. unfold projectExists, rejects.
  rewrite (zip_run_exit args quiet rest code Hquiet).
  rewrite (zip_run_exit _ quiet rest code Hquiet).
  rewrite (sevenzip_run_exit args quiet rest code Hquiet).
  pose proof (failed_iff code (stderr_of quiet)) as Hf.
  pose proof (code_nonzero_false_iff code) as Hc.
  destruct (code_nonzero code || JS.truthy (stderr_of quiet)) eqn:Efail.
  - assert (Hfail : code <> Some 0%Z \/ stderr_of quiet <> "") by (now apply Hf).
    split; [split; eauto|]. split; [reflexivity|].
    split; [intros H0 H1; destruct Hfail; congruence|].
    split; [split; eauto 6|].
    split; [intros H0 H1; destruct Hfail; congruence|].
    apply orb_true_iff in Efail.
    destruct (code_nonzero code) eqn:Ec.
    + assert (Hne : code <> Some 0%Z) by (intros E; apply Hc in E; discriminate).
      split; [split; eauto|]. split; [congruence|].
      intros before code' Hb. rewrite (createLSFile_close name before code' Hb).
      pose proof (code_nonzero_false_iff code') as Hc'.
      destruct (code_nonzero code'); split.
      * intros _ E. apply Hc' in E. discriminate.
      * eauto.
      * intros [e He]. discriminate.
      * intros H. exfalso. apply H, Hc'. reflexivity.
    + assert (He : code = Some 0%Z) by (now apply Hc).
      split; [split; [intros [e H]; discriminate|congruence]|].
      split; [reflexivity|].
      intros before code' Hb. rewrite (createLSFile_close name before code' Hb).
      pose proof (code_nonzero_false_iff code') as Hc'.
      destruct (code_nonzero code'); split.
      * intros _ E. apply Hc' in E. discriminate.
      * eauto.
      * intros [e H]. discriminate.
      * intros H. exfalso. apply H, Hc'. reflexivity.
  - assert (Hok : ~ (code <> Some 0%Z \/ stderr_of quiet <> "")).
    { intros H. apply Hf in H. discriminate. }
    apply orb_false_iff in Efail as [Ec Et]. rewrite Ec.
    assert (He : code = Some 0%Z) by (now apply Hc).
    split; [split; [intros [e H]; discriminate|tauto]|].
    split; [tauto|]. split; [reflexivity|].
    split.
    { split; [|tauto]. intros (c & a & k & eo & H).
      unfold projectExists_test in H.
      destruct (Regex.parse name); discriminate. }
    split.
    { intros _ _ Hp. unfold projectExists_test. rewrite Hp. reflexivity. }
    split; [split; [intros [e H]; discriminate|congruence]|].
    split; [reflexivity|].
    intros before code' Hb. rewrite (createLSFile_close name before code' Hb).
    pose proof (code_nonzero_false_iff code') as Hc'.
    destruct (code_nonzero code'); split.
    * intros _ E. apply Hc' in E. discriminate.
    * eauto.
    * intros [e H]. discriminate.
    * intros H. exfalso. apply H, Hc'. reflexivity.
Qed.

Lemma C3_witness :
  let quiet := [StdoutData (" /ws/node_modules" ++ nl); StderrData "WARN"; StdoutEnd] in
  let rest := [Close (Some 0%Z)] in
  Forall (fun ev => is_quiet ev = true) quiet /\
  rejects (Zip.runPnpmCommand ["root"] (quiet ++ Exit (Some 0%Z) :: rest)) /\
  ~ rejects (SevenZip.runPnpmCommand ["root"] (quiet ++ Exit (Some 0%Z) :: rest)) /\
  projectExists Zip.runPnpmCommand "c++"
    ([StdoutData ("c++@1.0.0 /ws/packages/c" ++ nl); StdoutEnd]
       ++ Exit (Some 0%Z) :: rest)
  = Some (Some (inl (PatternSyntaxError "^c++@"))).
Proof.
  intros quiet rest.
  assert (Hd : Forall (fun ev => is_quiet ev = true) quiet)
    by (repeat constructor).
  pose proof (C3_runPnpmCommand_rejects_exactly_when ["root"] "pkg" quiet rest
                (Some 0%Z) Hd) as (Hz & _ & _ & _ & _ & Hs & _).
  split; [exact Hd|]. split; [|split].
  - apply Hz. right. discriminate.
  - intros H. apply Hs in H. congruence.
  - assert (Hd' : Forall (fun ev => is_quiet ev = true)
                         [StdoutData ("c++@1.0.0 /ws/packages/c" ++ nl); StdoutEnd])
      by (repeat constructor).
    pose proof (C3_runPnpmCommand_rejects_exactly_when ["list"] "c++" _ rest
                  (Some 0%Z) Hd') as (_ & _ & _ & _ & Hp & _).
    apply Hp; reflexivity.
Defined.

(** ** The entry mapper *)

Lemma for_of_archive_file {A} (f g : A -> string) (items : list A) (w : world) :
  Mapper.for_of items (fun item => Mapper.archive_file (f item) (g item)) w =
  Some (mkWorld (spawned w)
                (archive w ++ map (fun item => (f item, g item)) items)
                (console w), inr tt).
Proof.
  revert w. induction items as [|i items IH]; intros [sp ar co]; simpl.
  - unfold Mapper.ret. now rewrite app_nil_r.
  - unfold Mapper.bind at 1. simpl. rewrite IH. simpl. now rewrite <- app_assoc.
Qed.

Lemma getRootPath_inv (E : env) (w w1 : world) (r : error + string) :
  Mapper.getRootPath E w = Some (w1, r) ->
  w1 = mkWorld (spawned w ++ [["root"]]) (archive w) (console w) /\
  Zip.runPnpmCommand ["root"] (pnpm E (List.length (spawned w)) ["root"]) = Some r.
Proof.
  unfold Mapper.getRootPath, Mapper.runPnpmCommand.
  destruct (Zip.runPnpmCommand _ _) as [r'|]; [|discriminate].
  intros H; inversion H; subst. split; reflexivity.
Qed.

(** What [addToArchive] does on a path that exists, once the root query
    has answered. *)
Lemma addToArchive_on_disk (E : env) (p : string) (verbose : bool)
      (w w1 : world) (rootPath : string) :
  fs E p <> Missing ->
  Mapper.getRootPath E w = Some (w1, inr rootPath) ->
  Mapper.addToArchive E p verbose w =
  Some (mkWorld (spawned w1)
                (archive w ++ entries_under E rootPath p)
                (console w ++ if verbose then [Processing p] else []),
        match fs E p with
        | Directory (inl e) => inl e
        | _ => inr tt
        end).
Proof.
  intros Hfs Hroot. destruct (getRootPath_inv _ _ _ _ Hroot) as [-> _].
  unfold Mapper.addToArchive, Mapper.access_ok, entries_under.
  unfold Mapper.bind at 1. unfold Mapper.ret at 1.
  destruct (fs E p) as [| |[e|items]|] eqn:Hnode; [congruence| | | |]; simpl;
    unfold Mapper.bind at 1; rewrite Hroot;
    unfold Mapper.bind at 1; unfold Mapper.stat; rewrite Hnode;
    destruct verbose; simpl; unfold Mapper.bind, Mapper.console_write, Mapper.ret,
      Mapper.archive_file, Mapper.readdir; simpl; rewrite ?Hnode; simpl;
    rewrite ?app_nil_r; try reflexivity.
  - exact (for_of_archive_file _ _ items
             (mkWorld (spawned w ++ [["root"]]) (archive w) (console w ++ [Processing p]))).
  - exact (for_of_archive_file _ _ items
             (mkWorld (spawned w ++ [["root"]]) (archive w) (console w))).
Qed.

Lemma addToArchive_missing (E : env) (p : string) (verbose : bool) (w : world) :
  fs E p = Missing ->
  Mapper.addToArchive E p verbose w =
  Some (mkWorld (spawned w) (archive w) (console w ++ [SkipWarning p]), inr tt).
Proof.
  intros Hfs. unfold Mapper.addToArchive, Mapper.access_ok, Mapper.bind, Mapper.ret.
  rewrite Hfs. reflexivity.
Qed.

Lemma addToArchive_root_fails (E : env) (p : string) (verbose : bool)
      (w w1 : world) (e : error) :
  fs E p <> Missing ->
  Mapper.getRootPath E w = Some (w1, inl e) ->
  Mapper.addToArchive E p verbose w = Some (w1, inl e).
Proof.
  intros Hfs Hroot.
  unfold Mapper.addToArchive, Mapper.access_ok.
  unfold Mapper.bind at 1. unfold Mapper.ret at 1.
  destruct (fs E p); [congruence| | |]; simpl;
    unfold Mapper.bind at 1; now rewrite Hroot.
Qed.

(** C6: a path that is not on disk gives no entry and a skip notice, and
    the operation fulfils; a regular file gives the one entry
    [(absolutePath, relativeOf absolutePath)]; a directory gives one entry
    for each name [readdir] lists, built from the directory's own paths,
    whatever those children are. *)
Theorem C6_entries_of_a_path (E : env) (absolutePath : string) (verbose : bool)
        (w w1 : world) (rootPath : string)
        (Hroot : Mapper.getRootPath E w = Some (w1, inr rootPath)) :
  let relativePath := Mapper.relativeOf rootPath absolutePath in
  let notes := if verbose then [Processing absolutePath] else [] in
  (fs E absolutePath = Missing ->
   Mapper.addToArchive E absolutePath verbose w =
   Some (mkWorld (spawned w) (archive w)
                 (console w ++ [SkipWarning absolutePath]), inr tt)) /\
  (fs E absolutePath = RegularFile ->
   Mapper.addToArchive E absolutePath verbose w =
   Some (mkWorld (spawned w1)
                 (archive w ++ [(absolutePath, relativePath)])
                 (console w ++ notes), inr tt)) /\
  (forall items, fs E absolutePath = Directory (inr items) ->
   Mapper.addToArchive E absolutePath verbose w =
   Some (mkWorld (spawned w1)
                 (archive w ++
                  map (fun item => (path_join E absolutePath item,
                                    path_join E relativePath item)) items)
                 (console w ++ notes), inr tt)).
Proof.
  intros relativePath notes. split; [|split].
  - apply addToArchive_missing.
  - intros Hfs.
    rewrite (addToArchive_on_disk E absolutePath verbose w w1 rootPath) by congruence.
    unfold entries_under. now rewrite Hfs.
  - intros items Hfs.
    rewrite (addToArchive_on_disk E absolutePath verbose w w1 rootPath) by congruence.
    unfold entries_under. now rewrite Hfs.
Qed.

Lemma C6_witness :
  exists w1,
    Mapper.getRootPath demo_env demo_world = Some (w1, inr "/ws/node_modules") /\
    Mapper.addToArchive demo_env "/ws/node_modules/gone" false demo_world =
    Some (mkWorld (spawned demo_world) []
                  [SkipWarning "/ws/node_modules/gone"], inr tt) /\
    Mapper.addToArchive demo_env "/ws/node_modules/a/index.js" false demo_world =
    Some (mkWorld (spawned w1)
                  [("/ws/node_modules/a/index.js", "a/index.js")] [], inr tt) /\
    Mapper.addToArchive demo_env "/ws/node_modules/d" false demo_world =
    Some (mkWorld (spawned w1)
                  [("/ws/node_modules/d/x.js", "d/x.js");
                   ("/ws/node_modules/d/sub", "d/sub")] [], inr tt).
Proof.
  eexists. split; [reflexivity|].
  pose proof (C6_entries_of_a_path demo_env "/ws/node_modules/gone" false
                demo_world _ "/ws/node_modules" eq_refl) as (Hm & _ & _).
  pose proof (C6_entries_of_a_path demo_env "/ws/node_modules/a/index.js" false
                demo_world _ "/ws/node_modules" eq_refl) as (_ & Hf & _).
  pose proof (C6_entries_of_a_path demo_env "/ws/node_modules/d" false
                demo_world _ "/ws/node_modules" eq_refl) as (_ & _ & Hd).
  split; [exact (Hm eq_refl)|]. split; [exact (Hf eq_refl)|].
  exact (Hd _ eq_refl).
Defined.

(** ** Archive-relative names *)

Lemma relativeOf_descendant (sep : ascii) (root rest : string) :
  Mapper.relativeOf root (root ++ sep_str sep ++ rest) = rest.
Proof. unfold Mapper.relativeOf. now rewrite replace_prefix. Qed.

Lemma split_on_no_sep (sep : ascii) (s : string) :
  has_char sep s = false -> JS.split_on sep s = [s].
Proof.
  induction s as [|c s IH]; simpl; [reflexivity|].
  intros H. apply orb_false_iff in H as [Hc Hs].
  rewrite Hc, (IH Hs). reflexivity.
Qed.

Lemma split_on_app (sep : ascii) (s rest : string) :
  has_char sep s = false ->
  JS.split_on sep (s ++ String sep rest) = s :: JS.split_on sep rest.
Proof.
  induction s as [|c s IH]; simpl; intros H.
  - now rewrite Ascii.eqb_refl.
  - apply orb_false_iff in H as [Hc Hs]. rewrite Hc, (IH Hs). reflexivity.
Qed.

Lemma split_on_concat (sep : ascii) (segs : list string) :
  segs <> [] ->
  Forall (fun seg => has_char sep seg = false) segs ->
  JS.split_on sep (String.concat (sep_str sep) segs) = segs.
Proof.
  intros Hne H. induction H as [|seg segs Hseg Hsegs IH]; [congruence|].
  destruct segs as [|seg' segs].
  - simpl. now apply split_on_no_sep.
  - change (String.concat (sep_str sep) (seg :: seg' :: segs))
      with (seg ++ String sep (String.concat (sep_str sep) (seg' :: segs))).
    rewrite split_on_app by assumption. f_equal. apply IH. discriminate.
Qed.

Lemma begins_with_concat (sep : ascii) (seg : string) (segs : list string) :
  seg <> "" -> has_char sep seg = false ->
  begins_with sep (String.concat (sep_str sep) (seg :: segs)) = false.
Proof.
  intros Hne Hs. destruct seg as [|c seg]; [congruence|].
  simpl in Hs. apply orb_false_iff in Hs as [Hc _].
  destruct segs; simpl; exact Hc.
Qed.

(** C9: for a path [root/seg1/.../segn] below the root, [relativeOf]
    removes exactly the root and the separator after it; what is left does
    not begin with a separator and has no [..] among its segments. *)
Theorem C9_relativeOf_below_root (sep : ascii) (root : string) (segs : list string)
        (Hne : segs <> [])
        (Hsegs : Forall (proper_segment sep) segs) :
  let rel := Mapper.relativeOf root (descendant sep root segs) in
  descendant sep root segs = root ++ sep_str sep ++ rel /\
  begins_with sep rel = false /\
  JS.split_on sep rel = segs /\
  ~ In ".." (JS.split_on sep rel).
Proof.
  intros rel. unfold rel, descendant. rewrite relativeOf_descendant.
  assert (Hs : Forall (fun seg => has_char sep seg = false) segs).
  { eapply Forall_impl; [|exact Hsegs]. intros seg (_ & _ & H). exact H. }
  split; [reflexivity|]. split; [|split].
  - destruct segs as [|seg segs]; [congruence|].
    inversion Hsegs as [|? ? (Hseg & _ & Hc) _]; subst.
    now apply begins_with_concat.
  - now apply split_on_concat.
  - rewrite split_on_concat by assumption.
    intros Hin. rewrite Forall_forall in Hsegs.
    destruct (Hsegs _ Hin) as (_ & Hdd & _). congruence.
Qed.

Lemma C9_witness :
  let segs := [".pnpm"; "lodash@4.17.21"; "node_modules"; "lodash"] in
  segs <> [] /\ Forall (proper_segment "/"%char) segs /\
  Mapper.relativeOf "/ws/node_modules"
    "/ws/node_modules/.pnpm/lodash@4.17.21/node_modules/lodash"
  = ".pnpm/lodash@4.17.21/node_modules/lodash" /\
  begins_with "/"%char
    (Mapper.relativeOf "/ws/node_modules"
       "/ws/node_modules/.pnpm/lodash@4.17.21/node_modules/lodash") = false.
Proof.
  intros segs.
  assert (Hne : segs <> []) by discriminate.
  assert (Hsegs : Forall (proper_segment "/"%char) segs).
  { repeat constructor; try discriminate. }
  pose proof (C9_relativeOf_below_root "/"%char "/ws/node_modules" segs Hne Hsegs)
    as (_ & Hb & _ & _).
  split; [exact Hne|]. split; [exact Hsegs|]. split; [reflexivity|exact Hb].
Defined.

(** ** Failing add operations *)

Lemma addToArchive_no_root (E : env) (p : string) (verbose : bool) (w : world) :
  fs E p <> Missing ->
  Mapper.getRootPath E w = None ->
  Mapper.addToArchive E p verbose w = None.
Proof.
  intros Hfs Hroot.
  unfold Mapper.addToArchive, Mapper.access_ok.
  unfold Mapper.bind at 1. unfold Mapper.ret at 1.
  destruct (fs E p); [congruence| | |]; simpl;
    unfold Mapper.bind at 1; now rewrite Hroot.
Qed.



(** One more child for a path on disk, none for a missing one. *)
Lemma addToArchive_spawned (E : env) (p : string) (verbose : bool)
      (w w' : world) (r : error + unit) :
  Mapper.addToArchive E p verbose w = Some (w', r) ->
  spawned w' = (spawned w ++ if on_disk E p then [["root"]] else [])%list.
Proof.
  intros H. unfold on_disk.
  destruct (fs E p) eqn:Hnode.
  - rewrite addToArchive_missing in H by assumption.
    inversion H; subst; simpl. now rewrite app_nil_r.
  - destruct (Mapper.getRootPath E w) as [[w1 [e'|root]]|] eqn:Hroot.
    + rewrite (addToArchive_root_fails E p verbose w w1 e') in H by congruence.
      inversion H; subst. now destruct (getRootPath_inv _ _ _ _ Hroot) as [-> _].
    + rewrite (addToArchive_on_disk E p verbose w w1 root) in H by congruence.
      inversion H; subst; simpl.
      now destruct (getRootPath_inv _ _ _ _ Hroot) as [-> _].
    + rewrite addToArchive_no_root in H by congruence. discriminate.
  - destruct (Mapper.getRootPath E w) as [[w1 [e'|root]]|] eqn:Hroot.
    + rewrite (addToArchive_root_fails E p verbose w w1 e') in H by congruence.
      inversion H; subst. now destruct (getRootPath_inv _ _ _ _ Hroot) as [-> _].
    + rewrite (addToArchive_on_disk E p verbose w w1 root) in H by congruence.
      inversion H; subst; simpl.
      now destruct (getRootPath_inv _ _ _ _ Hroot) as [-> _].
    + rewrite addToArchive_no_root in H by congruence. discriminate.
  - destruct (Mapper.getRootPath E w) as [[w1 [e'|root]]|] eqn:Hroot.
    + rewrite (addToArchive_root_fails E p verbose w w1 e') in H by congruence.
      inversion H; subst. now destruct (getRootPath_inv _ _ _ _ Hroot) as [-> _].
    + rewrite (addToArchive_on_disk E p verbose w w1 root) in H by congruence.
      inversion H; subst; simpl.
      now destruct (getRootPath_inv _ _ _ _ Hroot) as [-> _].
    + rewrite addToArchive_no_root in H by congruence. discriminate.
Qed.

Lemma guarded_add_spawned (E : env) (p : string) (verbose : bool)
      (w w' : world) (r : error + unit) :
  Mapper.guarded_add E p verbose w = Some (w', r) ->
  spawned w' = (spawned w ++ if on_disk E p then [["root"]] else [])%list.
Proof.
  unfold Mapper.guarded_add, Mapper.catch.
  destruct (Mapper.addToArchive E p verbose w) as [[w1 [e|u]]|] eqn:Ha;
    [| |discriminate].
  - unfold Mapper.console_write. intros H; inversion H; subst; simpl.
    eapply addToArchive_spawned; eauto.
  - intros H; inversion H; subst. eapply addToArchive_spawned; eauto.
Qed.

(** ** [projectExists] *)

Lemma has_char_app (c : ascii) (a b : string) :
  has_char c (a ++ b) = has_char c a || has_char c b.
Proof. induction a; simpl; [reflexivity|]. now rewrite IHa, orb_assoc. Qed.

Lemma literal_app (a b : string) : literal (a ++ b) = (literal a ++ literal b)%list.
Proof. induction a; simpl; congruence. Qed.

Lemma compile_plain (name : string) :
  plain_name name -> Regex.compile name = Some (literal name).
Proof.
  induction name as [|c name IH]; intros Hp; simpl; [reflexivity|].
  rewrite IH.
  - destruct (Hp c) as [Hs _]; [simpl; now rewrite Ascii.eqb_refl|].
    destruct (Ascii.eqb c ".") eqn:Hdot.
    + apply Ascii.eqb_eq in Hdot. subst. discriminate.
    + now rewrite Hs.
  - intros d Hd. apply Hp. simpl. rewrite Hd. apply orb_true_r.
Qed.

Lemma match_here_literal (p s : string) :
  Regex.match_here (literal p) s = String.prefix p s.
Proof.
  revert s. induction p as [|c p IH]; intros s; simpl.
  - destruct s; reflexivity.
  - destruct s as [|d s]; [reflexivity|].
    rewrite IH. simpl. destruct (ascii_dec c d) as [->|Hne].
    + now rewrite Ascii.eqb_refl.
    + apply Ascii.eqb_neq in Hne. now rewrite Hne.
Qed.

Lemma lines_of_cons (s : string) : exists h t, lines_of s = h :: t.
Proof.
  induction s as [|c s (h & t & IH)]; simpl; [eauto|].
  destruct (Regex.is_line_terminator c); [eauto|]. rewrite IH. eauto.
Qed.

(** A token without line terminators is a prefix of a text exactly when it
    is a prefix of the text's first line. *)
Lemma prefix_first_line (p s : string) :
  (forall c, has_char c p = true -> Regex.is_line_terminator c = false) ->
  String.prefix p s = String.prefix p (hd "" (lines_of s)).
Proof.
  revert s. induction p as [|c p IH]; intros s Hp; simpl.
  - destruct s, (hd "" _); reflexivity.
  - assert (Hc : Regex.is_line_terminator c = false)
      by (apply Hp; simpl; now rewrite Ascii.eqb_refl).
    assert (Hp' : forall d, has_char d p = true -> Regex.is_line_terminator d = false)
      by (intros d Hd; apply Hp; simpl; rewrite Hd; apply orb_true_r).
    destruct s as [|d s]; simpl; [reflexivity|].
    destruct (Regex.is_line_terminator d) eqn:Hd; simpl.
    + destruct (ascii_dec c d); [congruence|reflexivity].
    + destruct (lines_of_cons s) as (h & t & Hl). rewrite Hl. simpl.
      destruct (ascii_dec c d); [|reflexivity].
      rewrite (IH s Hp'), Hl. reflexivity.
Qed.

Lemma test_from_lines (p s : string) (b : bool) :
  p <> "" ->
  (forall c, has_char c p = true -> Regex.is_line_terminator c = false) ->
  Regex.test_from b (literal p) s =
  if b then existsb (String.prefix p) (lines_of s)
  else existsb (String.prefix p) (tl (lines_of s)).
Proof.
  intros Hne Hp. revert b. induction s as [|c s IH]; intros b.
  - simpl. rewrite match_here_literal.
    destruct p as [|d p]; [congruence|]. simpl. now destruct b.
  - cbn [Regex.test_from lines_of]. rewrite match_here_literal.
    destruct (Regex.is_line_terminator c) eqn:Hc.
    + rewrite (IH true).
      assert (Hpre : String.prefix p (String c s) = false).
      { destruct p as [|d p]; [congruence|]. simpl.
        destruct (ascii_dec d c) as [->|]; [|reflexivity].
        rewrite (Hp c) in Hc; [discriminate|]. simpl. now rewrite Ascii.eqb_refl. }
      rewrite Hpre, andb_false_r. simpl.
      destruct p; [congruence|]. now destruct b.
    + rewrite (IH false).
      rewrite (prefix_first_line p (String c s) Hp). simpl. rewrite Hc.
      destruct (lines_of_cons s) as (h & t & Hl). rewrite Hl. simpl.
      now destruct b.
Qed.

(** For a name without pattern syntax the test is the literal one. *)
Lemma projectExists_test_plain (name output : string) :
  plain_name name ->
  projectExists_test name output
  = Some (inr (some_line_begins_with (name ++ "@") output)).
Proof.
  intros Hp. unfold projectExists_test, Regex.parse, Regex.test_multiline_anchored.
  rewrite (compile_plain name Hp).
  change [Regex.Lit "@"%char] with (literal "@"). rewrite <- literal_app.
  rewrite test_from_lines; [reflexivity| |].
  - destruct name; discriminate.
  - intros c Hc. rewrite has_char_app in Hc.
    apply orb_true_iff in Hc as [Hc|Hc]; [apply (Hp c Hc)|].
    cbn [has_char] in Hc. rewrite orb_false_r in Hc.
    apply Ascii.eqb_eq in Hc. subst. reflexivity.
Qed.

(** C8: the code splices the name into the pattern unescaped, so the dot
    of a name such as [my.pkg] matches any character: the test accepts an
    output whose only line begins with [my-pkg@], though no line begins
    with [my.pkg@]. *)
Theorem C8_name_is_used_as_a_pattern :
  projectExists_test "my.pkg" "my-pkg@1.0.0 /ws/packages/my-pkg" = Some (inr true) /\
  some_line_begins_with "my.pkg@" "my-pkg@1.0.0 /ws/packages/my-pkg" = false /\
  projectExists Zip.runPnpmCommand "my.pkg"
    [StdoutData ("my-pkg@1.0.0 /ws/packages/my-pkg" ++ nl); Exit (Some 0%Z)]
  = Some (Some (inr true)).
Proof. repeat split; reflexivity. Qed.

(** ** The bounded archive pump *)
Module PumpFacts.
Import Pump PumpInv PumpTactics.

(** *** Promises and their outcomes *)

Lemma lookup_In (p : nat) (o : list (nat * option error)) (r : option error) :
  lookup p o = Some r -> In (p, r) o.
Proof.
  unfold lookup. destruct (find _ o) as [[q r']|] eqn:Hf; [|discriminate].
  intros H; inversion H; subst. apply find_some in Hf as [Hin Heq].
  simpl in Heq. apply Nat.eqb_eq in Heq. now subst.
Qed.

Lemma lookup_None (p : nat) (o : list (nat * option error)) :
  lookup p o = None -> forall r, ~ In (p, r) o.
Proof.
  unfold lookup. destruct (find _ o) as [x|] eqn:Hf; [discriminate|].
  intros _ r Hin. apply (find_none _ _ Hf) in Hin. simpl in Hin.
  now rewrite Nat.eqb_refl in Hin.
Qed.

Lemma is_settled_true (p : nat) (s : state) :
  is_settled p s = true <-> exists r, In (p, r) (outcomes s).
Proof.
  unfold is_settled, settled_in. destruct (lookup p (outcomes s)) as [r|] eqn:Hl.
  - split; [|reflexivity]. intros _. exists r. now apply lookup_In.
  - split; [discriminate|]. intros [r Hr]. now apply (lookup_None _ _ Hl) in Hr.
Qed.

Lemma is_settled_false (p : nat) (s : state) :
  is_settled p s = false <-> forall r, ~ In (p, r) (outcomes s).
Proof.
  split.
  - intros H r Hr. assert (is_settled p s = true) by (apply is_settled_true; eauto).
    congruence.
  - intros H. destruct (is_settled p s) eqn:Hs; [|reflexivity].
    apply is_settled_true in Hs as [r Hr]. now apply H in Hr.
Qed.

Lemma is_settled_outcomes (p : nat) (s s' : state) :
  outcomes s' = outcomes s -> is_settled p s' = is_settled p s.
Proof. unfold is_settled. now intros ->. Qed.

(** With no rejected promise, a settled promise is a fulfilled one. *)
Lemma outcome_fulfilled (p : nat) (s : state) :
  (forall q e, ~ In (q, Some e) (outcomes s)) ->
  is_settled p s = true -> outcome_of p s = Some None.
Proof.
  intros Hno. unfold is_settled, settled_in, outcome_of.
  destruct (lookup p (outcomes s)) as [[e|]|] eqn:Hl; try discriminate; [|reflexivity].
  apply lookup_In in Hl. now apply Hno in Hl.
Qed.

(** *** The set [runningPromises] *)

Lemma set_delete_In (x y : nat) (l : list nat) :
  In y (JS.set_delete Nat.eq_dec x l) <-> In y l /\ y <> x.
Proof.
  unfold JS.set_delete. rewrite filter_In.
  destruct (Nat.eq_dec x y); intuition congruence.
Qed.

Lemma set_delete_NoDup (x : nat) (l : list nat) :
  NoDup l -> NoDup (JS.set_delete Nat.eq_dec x l).
Proof. apply NoDup_filter. Qed.

Lemma set_delete_length (x : nat) (l : list nat) :
  (List.length (JS.set_delete Nat.eq_dec x l) <= List.length l)%nat.
Proof. apply filter_length_le. Qed.

Lemma set_delete_length_lt (x : nat) (l : list nat) :
  In x l ->
  (List.length (JS.set_delete Nat.eq_dec x l) < List.length l)%nat.
Proof.
  unfold JS.set_delete. induction l as [|y l IH]; simpl; [tauto|].
  intros [->|Hin].
  - destruct (Nat.eq_dec x x); [|congruence].
    pose proof (filter_length_le (fun y => if Nat.eq_dec x y then false else true) l).
    lia.
  - specialize (IH Hin). destruct (Nat.eq_dec x y); simpl; lia.
Qed.

Lemma set_add_fresh (x : nat) (l : list nat) :
  ~ In x l -> JS.set_add Nat.eq_dec x l = (l ++ [x])%list.
Proof. intros H. unfold JS.set_add. destruct (in_dec _ x l); tauto. Qed.

(** A duplicate-free list of numbers below [n] has at most [n] elements. *)
Lemma bounded_NoDup_length (l : list nat) (n : nat) :
  NoDup l -> (forall x, In x l -> (x < n)%nat) -> (List.length l <= n)%nat.
Proof.
  intros Hnd Hb.
  assert (H : (List.length l <= List.length (seq 0 n))%nat).
  { apply NoDup_incl_length; [assumption|].
    intros x Hx. apply in_seq. specialize (Hb x Hx). lia. }
  now rewrite length_seq in H.
Qed.

(** *** Queues in which deletions come first *)

Lemma guarded_none (P Q : job -> Prop) (l : list job) :
  (forall j, In j l -> ~ Q j) -> guarded P Q l.
Proof.
  induction l as [|j l IH]; simpl; [tauto|].
  intros H. right. split; [apply H; now left|]. apply IH. intros; apply H; now right.
Qed.

Lemma guarded_app (P Q : job -> Prop) (l1 l2 : list job) :
  guarded P Q l1 -> guarded P Q l2 -> guarded P Q (l1 ++ l2).
Proof.
  induction l1 as [|j l1 IH]; simpl; [tauto|].
  intros [H|[H1 H2]] H'; [now left|]. right. split; [assumption|]. now apply IH.
Qed.

Lemma guarded_app_has (P Q : job -> Prop) (l1 l2 : list job) :
  (exists j, In j l1 /\ P j) -> guarded P Q l1 -> guarded P Q (l1 ++ l2).
Proof.
  induction l1 as [|j l1 IH]; simpl; intros (x & Hx & HP).
  - destruct Hx.
  - destruct Hx as [->|Hx]; [now left|].
    intros [H|[H1 H2]]; [now left|]. right. split; [assumption|].
    apply IH; eauto.
Qed.

Lemma guarded_filter (P Q : job -> Prop) (f : job -> bool) (l : list job) :
  (forall j, P j -> f j = true) -> guarded P Q l -> guarded P Q (filter f l).
Proof.
  intros Hf. induction l as [|j l IH]; simpl; [tauto|].
  intros [H|[H1 H2]].
  - rewrite (Hf j H). now left.
  - destruct (f j); [right; split; auto|auto].
Qed.

Lemma guarded_impl (P P' Q Q' : job -> Prop) (l : list job) :
  (forall j, In j l -> P j -> P' j) ->
  (forall j, In j l -> Q' j -> Q j) ->
  guarded P Q l -> guarded P' Q' l.
Proof.
  induction l as [|j l IH]; simpl; [tauto|].
  intros HP HQ [H|[H1 H2]].
  - left. apply HP; auto.
  - right. split; [intros H; apply H1, HQ; auto|]. apply IH; auto.
Qed.


(** *** The statements of the loop body, in closed form *)

Lemma fold_then (r : reaction) (ps : list nat) (s : state) :
  fold_left (fun s p => then_ p r s) ps s =
  mkState (returned s) (listing s) (dispatched s) (outcomes s)
    (registered s ++
     map (fun p => JReact p r) (filter (fun p => negb (is_settled p s)) ps))
    (runningPromises s)
    (microtasks s ++
     map (fun p => JReact p r) (filter (fun p => is_settled p s) ps))
    (phase_of s) (races s) (all_waiting s) (finalized s) (closed s) (world_of s).
Proof.
  revert s. induction ps as [|p ps IH]; intros s; simpl.
  - destruct s; simpl. now rewrite !app_nil_r.
  - rewrite IH. unfold then_.
    destruct (is_settled p s) eqn:Hp; simpl; rewrite <- app_assoc; reflexivity.
Qed.

Lemma fresh_unsettled (C : config) (s : state) :
  Core C s -> is_settled (List.length (dispatched s)) s = false.
Proof.
  intros Hc. apply is_settled_false. intros r Hr.
  apply (out_bound _ _ Hc) in Hr. lia.
Qed.

Lemma fresh_not_running (C : config) (s : state) :
  Core C s -> ~ In (List.length (dispatched s)) (runningPromises s).
Proof. intros Hc Hin. apply (running_bound _ _ Hc) in Hin. lia. Qed.

Lemma dispatch_eq (C : config) (itemPath : string) (s : state) :
  Core C s ->
  dispatch itemPath s =
  mkState (returned s) (listing s) (dispatched s ++ [itemPath]) (outcomes s)
    (registered s ++ [del_job (List.length (dispatched s))])
    (runningPromises s ++ [List.length (dispatched s)])
    (microtasks s) (phase_of s) (races s) (all_waiting s)
    (finalized s) (closed s) (world_of s).
Proof.
  intros Hc. unfold dispatch, then_.
  rewrite (is_settled_outcomes _ s) by reflexivity.
  rewrite (fresh_unsettled C s Hc). simpl.
  now rewrite (set_add_fresh _ _ (fresh_not_running C s Hc)).
Qed.


Lemma settled_in_cons (p q : nat) (r : option error) (o : list (nat * option error)) :
  settled_in ((q, r) :: o) p = Nat.eqb q p || settled_in o p.
Proof.
  unfold settled_in, lookup. simpl. destruct (Nat.eqb q p); reflexivity.
Qed.


(** *** The invariant through the statements of the handler *)

Lemma core_dispatch (C : config) (itemPath : string) (s : state) :
  Core C s -> (size s < concurrency C)%Z -> Core C (dispatch itemPath s).
Proof.
  intros Hc Hlt. rewrite (dispatch_eq C _ _ Hc).
  pose proof (fresh_unsettled C s Hc) as Hfresh.
  pose proof (fresh_not_running C s Hc) as Hnr.
  destruct Hc as [Hrej Hob Hqs Hrp Hjb Hds Hpr Hnd Hrb Hsz Hdr Hdq Hrf Hcl].
  constructor; open_state.
  - exact Hrej.
  - intros p o Hin. rewrite length_app. simpl. apply Hob in Hin. lia.
  - exact Hqs.
  - intros p r Hin. apply in_app_iff in Hin as [Hin|[Hin|[]]]; [eauto|].
    inversion Hin; subst. exact Hfresh.
  - intros p r Hin. rewrite length_app. simpl.
    rewrite app_assoc in Hin. apply in_app_iff in Hin as [Hin|[Hin|[]]].
    + apply Hjb in Hin. lia.
    + inversion Hin; subst. lia.
  - intros p q Hin. rewrite app_assoc in Hin.
    apply in_app_iff in Hin as [Hin|[Hin|[]]]; [eauto|].
    now inversion Hin.
  - intros p Hp Hs. rewrite length_app in Hp. simpl in Hp.
    apply in_app_iff.
    destruct (Nat.eq_dec p (List.length (dispatched s))) as [->|Hne];
      [right; now left|left; apply Hpr; [lia|assumption]].
  - apply NoDup_app; [assumption|repeat constructor; tauto|].
    intros x Hx [<-|[]]. tauto.
  - intros p Hin. rewrite length_app. simpl.
    apply in_app_iff in Hin as [Hin|[<-|[]]]; [apply Hrb in Hin|]; lia.
  - rewrite length_app. simpl. lia.
  - intros p Hin Hs. apply in_app_iff in Hin as [Hin|[<-|[]]].
    + destruct (Hdr p Hin Hs) as [H1 H2]. split; [apply in_app_iff; now left|].
      apply guarded_app; [assumption|]. simpl. right. split; [|exact I].
      intros [r Hr]. discriminate.
    + split; [apply in_app_iff; right; now left|].
      apply guarded_app; [|simpl; now left].
      apply guarded_none. intros j Hj [r ->].
      assert (Hb : In (JReact (List.length (dispatched s)) (RRace r))
                      (microtasks s ++ registered s))
        by (apply in_app_iff; now right).
      apply Hjb in Hb. lia.
  - intros p Hin Hs. apply in_app_iff in Hin as [Hin|[<-|[]]]; [eauto|].
    congruence.
  - intros p r Hin. rewrite app_assoc in Hin.
    apply in_app_iff in Hin as [Hin|[Hin|[]]]; [eauto|discriminate].
  - exact Hcl.
Qed.


Lemma in_reactions (p : nat) (r r0 : reaction) (f : nat -> bool) (ps : list nat) :
  In (JReact p r) (map (fun q => JReact q r0) (filter f ps)) <->
  r = r0 /\ In p ps /\ f p = true.
Proof.
  rewrite in_map_iff. split.
  - intros (q & Hq & Hin). inversion Hq; subst. apply filter_In in Hin. tauto.
  - intros (-> & Hin & Hf). exists p. split; [reflexivity|]. now apply filter_In.
Qed.

(** Attaching one reaction to every member of [runningPromises], as
    [Promise.race] and [Promise.all] do. *)
Lemma core_reactions (C : config) (s : state) (r0 : reaction) (ph : phase)
      (n' : nat) (aw : list nat) :
  Core C s ->
  (forall q, r0 <> RDelete q) ->
  (forall r, r0 = RRace r -> (r < n')%nat) ->
  (races s <= n')%nat ->
  Core C (mkState (returned s) (listing s) (dispatched s) (outcomes s)
            (registered s ++
             map (fun p => JReact p r0)
                 (filter (fun p => negb (is_settled p s)) (runningPromises s)))
            (runningPromises s)
            (microtasks s ++
             map (fun p => JReact p r0)
                 (filter (fun p => is_settled p s) (runningPromises s)))
            ph n' aw (finalized s) (closed s) (world_of s)).
Proof.
  intros Hc Hnd0 Hr0 Hn.
  destruct Hc as [Hrej Hob Hqs Hrp Hjb Hds Hpr Hnd Hrb Hsz Hdr Hdq Hrf Hcl].
  constructor; open_state; try assumption.
  - intros p r Hin. apply in_app_iff in Hin as [Hin|Hin]; [eauto|].
    apply in_reactions in Hin. tauto.
  - intros p r Hin. apply in_app_iff in Hin as [Hin|Hin]; [eauto|].
    apply in_reactions in Hin as (_ & _ & H). now apply negb_true_iff in H.
  - intros p r Hin.
    rewrite !in_app_iff in Hin. destruct Hin as [[Hin|Hin]|[Hin|Hin]].
    + apply (Hjb p r). apply in_app_iff. now left.
    + apply in_reactions in Hin as (_ & H & _). auto.
    + apply (Hjb p r). apply in_app_iff. now right.
    + apply in_reactions in Hin as (_ & H & _). auto.
  - intros p q Hin.
    rewrite !in_app_iff in Hin. destruct Hin as [[Hin|Hin]|[Hin|Hin]].
    + apply (Hds p q). apply in_app_iff. now left.
    + apply in_reactions in Hin as (H & _ & _). symmetry in H. now apply Hnd0 in H.
    + apply (Hds p q). apply in_app_iff. now right.
    + apply in_reactions in Hin as (H & _ & _). symmetry in H. now apply Hnd0 in H.
  - intros p Hin Hs. destruct (Hdr p Hin Hs) as [H1 H2].
    split; [apply in_app_iff; now left|].
    apply guarded_app_has; [|assumption]. exists (del_job p). auto.
  - intros p Hin Hs. apply in_app_iff. left. auto.
  - intros p r Hin.
    rewrite !in_app_iff in Hin. destruct Hin as [[Hin|Hin]|[Hin|Hin]].
    + assert (r < races s)%nat by (apply (Hrf p r), in_app_iff; now left). lia.
    + apply in_reactions in Hin as (H & _ & _). symmetry in H. auto.
    + assert (r < races s)%nat by (apply (Hrf p r), in_app_iff; now right). lia.
    + apply in_reactions in Hin as (H & _ & _). symmetry in H. auto.
Qed.

Lemma start_race_eq (itemPath : string) (rest : list string) (s : state) :
  start_race itemPath rest s =
  mkState (returned s) (listing s) (dispatched s) (outcomes s)
    (registered s ++
     map (fun p => JReact p (RRace (races s)))
         (filter (fun p => negb (is_settled p s)) (runningPromises s)))
    (runningPromises s)
    (microtasks s ++
     map (fun p => JReact p (RRace (races s)))
         (filter (fun p => is_settled p s) (runningPromises s)))
    (AwaitRace (races s) itemPath rest) (S (races s)) (all_waiting s)
    (finalized s) (closed s) (world_of s).
Proof. unfold start_race. rewrite fold_then. reflexivity. Qed.

Lemma start_all_eq (s : state) :
  runningPromises s <> [] ->
  start_all s =
  mkState (returned s) (listing s) (dispatched s) (outcomes s)
    (registered s ++
     map (fun p => JReact p RAll)
         (filter (fun p => negb (is_settled p s)) (runningPromises s)))
    (runningPromises s)
    (microtasks s ++
     map (fun p => JReact p RAll)
         (filter (fun p => is_settled p s) (runningPromises s)))
    AwaitAll (races s) (runningPromises s)
    (finalized s) (closed s) (world_of s).
Proof.
  intros Hne. unfold start_all.
  destruct (runningPromises s) as [|p ps] eqn:Hr; [congruence|].
  rewrite fold_then. reflexivity.
Qed.

(** After [Promise.race] every reaction of the race that is already
    queued has a deletion of a running promise before it. *)
Lemma race_guard_start (C : config) (s : state) :
  Core C s ->
  guarded (live_del_job (runningPromises s)) (is_race_job (races s))
    (microtasks s ++
     map (fun p => JReact p (RRace (races s)))
         (filter (fun p => is_settled p s) (runningPromises s))).
Proof.
  intros Hc.
  assert (Hold : guarded (live_del_job (runningPromises s))
                         (is_race_job (races s)) (microtasks s)).
  { apply guarded_none. intros j Hj [p ->].
    assert (races s < races s)%nat; [|lia].
    apply (race_fresh _ _ Hc p). apply in_app_iff. now left. }
  destruct (filter (fun p => is_settled p s) (runningPromises s)) as [|q qs] eqn:Hf.
  - simpl. now rewrite app_nil_r.
  - assert (Hq : In q (filter (fun p => is_settled p s) (runningPromises s)))
      by (rewrite Hf; now left).
    apply filter_In in Hq as [Hq1 Hq2].
    apply guarded_app_has; [|assumption].
    exists (del_job q). split; [now apply (del_queued _ _ Hc)|].
    exists q. auto.
Qed.


(** Fields the core invariant does not read, and a resumption put at the
    end of the queue, leave it standing. *)
Lemma core_frame (C : config) (s : state) (b : bool) (li : Listing.t)
      (tail : list job) (ph : phase) (aw : list nat) (fin cl : bool) (w : world) :
  Core C s ->
  (tail = [] \/ tail = [JResume]) ->
  (cl = true -> fin = true) ->
  Core C (mkState b li (dispatched s) (outcomes s) (registered s)
            (runningPromises s) (microtasks s ++ tail) ph (races s) aw fin cl w).
Proof.
  intros Hc Htail Hcl.
  assert (Hin : forall j, In j (microtasks s ++ tail) -> In j (microtasks s) \/ j = JResume).
  { intros j Hj. apply in_app_iff in Hj as [Hj|Hj]; [now left|].
    destruct Htail as [->| ->]; [destruct Hj|]. destruct Hj as [<-|[]]. now right. }
  destruct Hc as [Hrej Hob Hqs Hrp Hjb Hds Hpr Hnd Hrb Hsz Hdr Hdq Hrf _].
  constructor; open_state; try assumption.
  - intros p r Hj. apply Hin in Hj as [Hj|Hj]; [eauto|discriminate].
  - intros p r Hj. apply in_app_iff in Hj as [Hj|Hj].
    + apply Hin in Hj as [Hj|Hj]; [|discriminate].
      apply (Hjb p r), in_app_iff. now left.
    + apply (Hjb p r), in_app_iff. now right.
  - intros p q Hj. apply in_app_iff in Hj as [Hj|Hj].
    + apply Hin in Hj as [Hj|Hj]; [|discriminate].
      apply (Hds p q), in_app_iff. now left.
    + apply (Hds p q), in_app_iff. now right.
  - intros p Hp Hs. apply in_app_iff. left. auto.
  - intros p r Hj. apply in_app_iff in Hj as [Hj|Hj].
    + apply Hin in Hj as [Hj|Hj]; [|discriminate].
      apply (Hrf p r), in_app_iff. now left.
    + apply (Hrf p r), in_app_iff. now right.
Qed.

Lemma size_le_dispatched (C : config) (s : state) :
  Core C s -> (size s <= Z.of_nat (List.length (dispatched s)))%Z.
Proof.
  intros Hc. unfold size. apply inj_le.
  apply bounded_NoDup_length; [apply (running_nodup _ _ Hc)|apply (running_bound _ _ Hc)].
Qed.

Lemma inv_start_race (C : config) (itemPath : string) (rest : list string) (s : state) :
  Core C s ->
  (concurrency C <= size s)%Z ->
  (dispatched s ++ itemPath :: rest)%list = Listing.allPaths (listing s) ->
  finalized s = false ->
  Inv C (start_race itemPath rest s).
Proof.
  intros Hc Hfull Hpaths Hfin. rewrite start_race_eq.
  constructor; simpl; phase_trivial.
  - apply core_reactions; auto; [discriminate|intros r H; inversion H; lia].
  - intros r i rest' H. inversion H; subst. right. now apply (race_guard_start C).
  - intros Hroom. exfalso.
    pose proof (size_le_dispatched C s Hc) as Hle.
    rewrite <- Hpaths, length_app in Hroom. simpl in Hroom. lia.
Qed.

Lemma inv_start_all (C : config) (s : state) :
  Core C s ->
  dispatched s = Listing.allPaths (listing s) ->
  finalized s = false ->
  ((Z.of_nat (List.length (Listing.allPaths (listing s))) <= concurrency C)%Z ->
   races s = 0%nat) ->
  Inv C (start_all s).
Proof.
  intros Hc Hpaths Hfin Hroom.
  destruct (runningPromises s) as [|q qs] eqn:Hr.
  - unfold start_all. rewrite Hr. unfold enqueue, set_phase, set_microtasks. simpl.
    constructor; simpl; phase_trivial.
    + apply core_frame; auto. intros Hcl. apply (not_closed_early _ _ Hc) in Hcl.
      congruence.
    + intros _. now rewrite app_nil_r.
    + exact Hroom.
    + intros _ p Hp. destruct (is_settled p s) eqn:Hs; [exact Hs|].
      apply (pending_running _ _ Hc) in Hs; [|exact Hp]. rewrite Hr in Hs. destruct Hs.
  - rewrite start_all_eq by (rewrite Hr; discriminate).
    constructor; simpl; phase_trivial.
    + apply core_reactions; auto; discriminate.
    + intros _. now rewrite app_nil_r.
    + exact Hroom.
    + intros _ p Hp Hs. now apply (pending_running _ _ Hc).
Qed.

Lemma inv_loop (C : config) (paths : list string) (s : state) :
  Core C s ->
  (dispatched s ++ paths)%list = Listing.allPaths (listing s) ->
  finalized s = false ->
  ((Z.of_nat (List.length (Listing.allPaths (listing s))) <= concurrency C)%Z ->
   races s = 0%nat) ->
  Inv C (loop C paths s).
Proof.
  revert s. induction paths as [|itemPath rest IH]; intros s Hc Hpaths Hfin Hroom; simpl.
  - apply inv_start_all; auto. now rewrite app_nil_r in Hpaths.
  - fold (size s). destruct (size s >=? concurrency C)%Z eqn:Hge.
    + apply inv_start_race; auto. lia.
    + assert (Hlt : (size s < concurrency C)%Z) by lia.
      pose proof (core_dispatch C itemPath s Hc Hlt) as Hc'.
      apply IH; auto; rewrite (dispatch_eq C _ _ Hc); simpl; auto.
      now rewrite <- app_assoc.
Qed.


(** *** The invariant through the events *)

Lemma guarded_add_fulfils (E : env) (itemPath : string) (v : bool)
      (w w' : world) (r : error + unit) :
  Mapper.guarded_add E itemPath v w = Some (w', r) -> r = inr tt.
Proof.
  unfold Mapper.guarded_add, Mapper.catch.
  destruct (Mapper.addToArchive E itemPath v w) as [[w1 [e|[]]]|];
    [|now intros H; inversion H|discriminate].
  unfold Mapper.console_write. now intros H; inversion H.
Qed.

Lemma in_from (p q : nat) (r : reaction) (l : list job) :
  In (JReact q r) (filter (from_promise p) l) <-> q = p /\ In (JReact q r) l.
Proof.
  rewrite filter_In. simpl. rewrite Nat.eqb_eq. tauto.
Qed.

Lemma in_not_from (p q : nat) (r : reaction) (l : list job) :
  In (JReact q r) (filter (fun j => negb (from_promise p j)) l) <->
  q <> p /\ In (JReact q r) l.
Proof.
  rewrite filter_In. simpl. rewrite negb_true_iff, Nat.eqb_neq. tauto.
Qed.

Lemma settle_promise_eq (E : env) (C : config) (p : nat) (itemPath : string)
      (s s' : state) :
  settle_promise E C p itemPath s = Some s' ->
  exists w',
    Mapper.guarded_add E itemPath (verbose C) (world_of s) = Some (w', inr tt) /\
    s' = mkState (returned s) (listing s) (dispatched s)
           ((p, None) :: outcomes s)
           (filter (fun j => negb (from_promise p j)) (registered s))
           (runningPromises s)
           (microtasks s ++ filter (from_promise p) (registered s))
           (phase_of s) (races s) (all_waiting s)
           (finalized s) (closed s) w'.
Proof.
  unfold settle_promise.
  destruct (Mapper.guarded_add E itemPath (verbose C) (world_of s))
    as [[w' r]|] eqn:Hg; [|discriminate].
  pose proof (guarded_add_fulfils _ _ _ _ _ _ Hg) as ->.
  intros H; inversion H; subst. eauto.
Qed.

Lemma core_settle (C : config) (p : nat) (s : state) (w' : world) :
  Core C s ->
  (p < List.length (dispatched s))%nat ->
  is_settled p s = false ->
  Core C (mkState (returned s) (listing s) (dispatched s)
            ((p, None) :: outcomes s)
            (filter (fun j => negb (from_promise p j)) (registered s))
            (runningPromises s)
            (microtasks s ++ filter (from_promise p) (registered s))
            (phase_of s) (races s) (all_waiting s)
            (finalized s) (closed s) w').
Proof.
  intros Hc Hp Hps.
  destruct Hc as [Hrej Hob Hqs Hrp Hjb Hds Hpr Hnd Hrb Hsz Hdr Hdq Hrf Hcl].
  constructor; open_state; try assumption.
  - intros q e [H|H]; [discriminate|]. now apply Hrej in H.
  - intros q o [H|H]; [inversion H; subst; exact Hp|eauto].
  - intros q r Hin. rewrite settled_in_cons.
    apply in_app_iff in Hin as [Hin|Hin].
    + rewrite (Hqs q r Hin). apply orb_true_r.
    + apply in_from in Hin as [-> _]. now rewrite Nat.eqb_refl.
  - intros q r Hin. rewrite settled_in_cons.
    apply in_not_from in Hin as [Hne Hin].
    rewrite (Hrp q r Hin). apply Nat.eqb_neq in Hne.
    rewrite Nat.eqb_sym in Hne. now rewrite Hne.
  - intros q r Hin. apply (Hjb q r).
    rewrite !in_app_iff in *. destruct Hin as [[Hin|Hin]|Hin]; [now left| |].
    + apply in_from in Hin. tauto.
    + apply in_not_from in Hin. tauto.
  - intros q q' Hin. apply (Hds q q').
    rewrite !in_app_iff in *. destruct Hin as [[Hin|Hin]|Hin]; [now left| |].
    + apply in_from in Hin. tauto.
    + apply in_not_from in Hin. tauto.
  - intros q Hq Hs. rewrite settled_in_cons in Hs.
    apply orb_false_iff in Hs as [_ Hs]. auto.
  - intros q Hin Hs. rewrite settled_in_cons in Hs.
    apply orb_false_iff in Hs as [Hne Hs]. apply Nat.eqb_neq in Hne.
    destruct (Hdr q Hin Hs) as [H1 H2]. split.
    + apply in_not_from. split; [congruence|assumption].
    + apply guarded_filter; [|assumption].
      intros j <-. simpl. apply negb_true_iff, Nat.eqb_neq. congruence.
  - intros q Hin Hs. rewrite settled_in_cons in Hs. apply in_app_iff.
    destruct (Nat.eq_dec p q) as [<-|Hne].
    + right. apply in_from. split; [reflexivity|]. now apply Hdr.
    + left. apply Hdq; [assumption|].
      apply Nat.eqb_neq in Hne. now rewrite Hne in Hs.
  - intros q r Hin. apply (Hrf q r).
    rewrite !in_app_iff in *. destruct Hin as [[Hin|Hin]|Hin]; [now left| |].
    + apply in_from in Hin. tauto.
    + apply in_not_from in Hin. tauto.
Qed.

Lemma inv_settle (C : config) (p : nat) (s : state) (w' : world) :
  Inv C s ->
  (p < List.length (dispatched s))%nat ->
  is_settled p s = false ->
  Inv C (mkState (returned s) (listing s) (dispatched s)
            ((p, None) :: outcomes s)
            (filter (fun j => negb (from_promise p j)) (registered s))
            (runningPromises s)
            (microtasks s ++ filter (from_promise p) (registered s))
            (phase_of s) (races s) (all_waiting s)
            (finalized s) (closed s) w').
Proof.
  intros Hi Hp Hps.
  destruct Hi as [Hc Hrg Hrw Hli Hpa Hnr Haw Hdr Hfp Hac Hcp Hnc].
  constructor; open_state; try assumption.
  - now apply core_settle.
  - intros r i rest Hph. destruct (Hrg r i rest Hph) as [H|H]; [now left|right].
    apply guarded_app; [assumption|].
    assert (Hrun : In p (runningPromises s)) by now apply (pending_running _ _ Hc).
    destruct (del_reg _ _ Hc p Hrun Hps) as [_ Hg].
    apply (guarded_filter _ _ (from_promise p)) in Hg.
    + revert Hg. apply guarded_impl.
      * intros j _ <-. exists p. auto.
      * intros j Hj [q ->]. apply in_from in Hj as [-> _]. exists r. reflexivity.
    + intros j <-. simpl. apply Nat.eqb_refl.
  - intros Hph q Hq Hs. rewrite settled_in_cons in Hs.
    apply orb_false_iff in Hs as [_ Hs]. now apply Haw.
  - intros Hph q Hq. rewrite settled_in_cons.
    rewrite (Hdr Hph q Hq). apply orb_true_r.
Qed.


(** Taking the oldest microtask off the queue, and with it (when it is a
    deletion) its promise off [runningPromises]. *)
Lemma core_pop (C : config) (s : state) (j : job) (js : list job)
      (running' : list nat) :
  Core C s ->
  microtasks s = j :: js ->
  (running' = runningPromises s /\ (forall q, j <> del_job q)) \/
  (exists q, j = del_job q /\
             running' = JS.set_delete Nat.eq_dec q (runningPromises s)) ->
  Core C (mkState (returned s) (listing s) (dispatched s) (outcomes s)
            (registered s) running' js (phase_of s) (races s) (all_waiting s)
            (finalized s) (closed s) (world_of s)).
Proof.
  intros Hc Hq Hcase.
  destruct Hc as [Hrej Hob Hqs Hrp Hjb Hds Hpr Hnd Hrb Hsz Hdr Hdq Hrf Hcl].
  rewrite Hq in *.
  assert (Hsub : forall x, In x running' -> In x (runningPromises s)).
  { destruct Hcase as [[-> _]|(q & _ & ->)]; [auto|].
    intros x Hx. now apply set_delete_In in Hx. }
  constructor; open_state; try assumption.
  - intros p r Hin. apply (Hqs p r). now right.
  - intros p r Hin. apply (Hjb p r). simpl. now right.
  - intros p q Hin. apply (Hds p q). simpl. now right.
  - intros p Hp Hs. destruct Hcase as [[-> _]|(q & -> & ->)]; [auto|].
    apply set_delete_In. split; [auto|]. intros ->.
    rewrite (Hqs q (RDelete q)) in Hs; [discriminate|now left].
  - destruct Hcase as [[-> _]|(q & _ & ->)]; [auto|]. now apply set_delete_NoDup.
  - auto.
  - destruct Hcase as [[-> _]|(q & _ & ->)]; [auto|].
    pose proof (set_delete_length q (runningPromises s)). lia.
  - auto.
  - intros p Hin Hs.
    destruct (Hdq p (Hsub p Hin) Hs) as [Hj|Hj]; [|exact Hj]. exfalso.
    destruct Hcase as [[_ Hne]|(q & -> & ->)].
    + now apply (Hne p).
    + inversion Hj; subst. apply set_delete_In in Hin. tauto.
  - intros p r Hin. apply (Hrf p r). simpl. now right.
Qed.

Lemma set_delete_notin (x : nat) (l : list nat) :
  ~ In x l -> JS.set_delete Nat.eq_dec x l = l.
Proof.
  unfold JS.set_delete. induction l as [|y l IH]; simpl; [reflexivity|].
  intros H. destruct (Nat.eq_dec x y) as [->|Hne]; [tauto|].
  rewrite IH; tauto.
Qed.

Lemma inv_pop (C : config) (s : state) (j : job) (js : list job) :
  Inv C s ->
  microtasks s = j :: js ->
  (forall q, j <> del_job q) ->
  Inv C (set_microtasks js s).
Proof.
  intros Hi Hq Hne.
  destruct Hi as [Hc Hrg Hrw Hli Hpa Hnr Haw Hdr Hfp Hac Hcp Hnc].
  constructor; open_state; try assumption.
  - apply (core_pop C s j js); auto.
  - intros r i rest Hph. destruct (Hrg r i rest Hph) as [H|H]; [now left|right].
    rewrite Hq in H. simpl in H. destruct H as [(q & H & _)|[_ H]]; [|exact H].
    now apply Hne in H.
Qed.

Lemma inv_delete (C : config) (s : state) (q : nat) (js : list job) :
  Inv C s ->
  microtasks s = del_job q :: js ->
  Inv C (mkState (returned s) (listing s) (dispatched s) (outcomes s)
           (registered s) (JS.set_delete Nat.eq_dec q (runningPromises s)) js
           (phase_of s) (races s) (all_waiting s)
           (finalized s) (closed s) (world_of s)).
Proof.
  intros Hi Hq.
  destruct Hi as [Hc Hrg Hrw Hli Hpa Hnr Haw Hdr Hfp Hac Hcp Hnc].
  pose proof (set_delete_length q (runningPromises s)) as Hlen.
  constructor; open_state; try assumption.
  - apply (core_pop C s (del_job q) js); eauto.
  - intros r i rest Hph.
    destruct (in_dec Nat.eq_dec q (runningPromises s)) as [Hin|Hnin].
    + left. pose proof (set_delete_length_lt q _ Hin).
      pose proof (size_le _ _ Hc). unfold size in *. lia.
    + rewrite (set_delete_notin _ _ Hnin).
      destruct (Hrg r i rest Hph) as [H|H]; [now left|right].
      rewrite Hq in H. simpl in H. destruct H as [(q' & H & Hq')|[_ H]]; [|exact H].
      inversion H; subst. tauto.
  - intros i rest Hph. specialize (Hrw i rest Hph). lia.
Qed.


Lemma inv_resume (C : config) (s : state) (js : list job) :
  Inv C s ->
  microtasks s = JResume :: js ->
  Inv C (resume C (set_microtasks js s)).
Proof.
  intros Hi Hq.
  pose proof (inv_pop C s JResume js Hi Hq) as Hi0.
  assert (Hne : forall q, JResume <> del_job q) by discriminate.
  specialize (Hi0 Hne). clear Hne.
  unfold resume. change (phase_of (set_microtasks js s)) with (phase_of s).
  destruct (phase_of s) as [|r i rest|i rest| | | | | |e] eqn:Hph; try exact Hi0.
  - (* the race was won: dispatch and go on with the loop *)
    destruct Hi0 as [Hc0 _ Hrw0 _ Hpa0 Hnr0 _ _ Hfp0 _ _ _].
    simpl in *. rewrite Hph in *.
    specialize (Hrw0 i rest eq_refl).
    pose proof (core_dispatch C i _ Hc0 Hrw0) as Hc1.
    apply inv_loop; auto; rewrite (dispatch_eq C _ _ Hc0); simpl.
    + rewrite <- app_assoc. apply Hpa0. discriminate.
    + destruct (finalized s); [|reflexivity].
      destruct (Hfp0 eq_refl) as [H|[H|H]]; discriminate.
    + exact Hnr0.
  - (* all operations settled: finalize, then wait for the stream *)
    destruct Hi0 as [Hc0 _ _ _ Hpa0 Hnr0 _ Hdr0 _ _ _ _].
    simpl in *. rewrite Hph in *.
    constructor; simpl; phase_trivial.
    + pose proof (core_frame C (set_microtasks js s) (returned s) (listing s) []
                    AwaitClose (all_waiting s) true (closed s) (world_of s) Hc0) as H.
      simpl in H. rewrite app_nil_r in H. apply H; auto.
    + intros _. apply Hpa0. discriminate.
    + exact Hnr0.
    + intros _. apply Hdr0. unfold after_drain. auto.
    + auto.
  - (* the stream closed: the handler returns *)
    destruct Hi0 as [Hc0 _ _ _ Hpa0 Hnr0 _ Hdr0 Hfp0 _ Hcp0 _].
    simpl in *. rewrite Hph in *. unfold set_phase. simpl.
    destruct Hcp0 as [Hcl Hfin]; [now left|].
    constructor; simpl; phase_trivial.
    + pose proof (core_frame C (set_microtasks js s) (returned s) (listing s) []
                    Finished (all_waiting s) (finalized s) (closed s) (world_of s) Hc0) as H.
      simpl in H. rewrite app_nil_r in H. apply H; auto.
    + intros _. apply Hpa0. discriminate.
    + exact Hnr0.
    + intros _. apply Hdr0. unfold after_drain. auto.
    + auto.
    + auto.
Qed.


Lemma inv_tick (C : config) (s : state) (j : job) (js : list job) :
  Inv C s ->
  microtasks s = j :: js ->
  Inv C (run_job C j (set_microtasks js s)).
Proof.
  intros Hi Hq. destruct j as [p [q|r|]|]; [| | |now apply inv_resume].
  - (* a deletion *)
    assert (Hin : In (JReact p (RDelete q)) (microtasks s)) by (rewrite Hq; now left).
    assert (Hpq : p = q).
    { apply (del_self _ _ (core _ _ Hi) p q), in_app_iff. now left. }
    subst q.
    pose proof (queue_settled _ _ (core _ _ Hi) _ _ Hin) as Hs.
    pose proof (outcome_fulfilled p s (no_reject _ _ (core _ _ Hi)) Hs) as Ho.
    unfold run_job. change (outcome_of p (set_microtasks js s)) with (outcome_of p s).
    rewrite Ho. exact (inv_delete C s p js Hi Hq).
  - (* a reaction of a race *)
    assert (Hin : In (JReact p (RRace r)) (microtasks s)) by (rewrite Hq; now left).
    pose proof (queue_settled _ _ (core _ _ Hi) _ _ Hin) as Hs.
    pose proof (outcome_fulfilled p s (no_reject _ _ (core _ _ Hi)) Hs) as Ho.
    assert (Hpop : Inv C (set_microtasks js s))
      by (apply (inv_pop C s _ js Hi Hq); discriminate).
    unfold run_job. change (phase_of (set_microtasks js s)) with (phase_of s).
    change (outcome_of p (set_microtasks js s)) with (outcome_of p s).
    destruct (phase_of s) as [|r' i rest|i rest| | | | | |e] eqn:Hph; try exact Hpop.
    destruct (Nat.eqb r r') eqn:Hr; [|exact Hpop].
    apply Nat.eqb_eq in Hr. subst r'. rewrite Ho.
    destruct Hi as [Hc Hrg _ _ _ _ _ _ _ _ _ _].
    destruct Hpop as [Hc0 _ _ _ Hpa0 Hnr0 _ _ Hfp0 _ _ _].
    simpl in *. rewrite Hph in *.
    assert (Hlt : (size s < concurrency C)%Z).
    { destruct (Hrg r i rest eq_refl) as [H|H]; [exact H|].
      rewrite Hq in H. simpl in H. destruct H as [(q & H & _)|[H _]]; [discriminate|].
      exfalso. apply H. exists p. reflexivity. }
    constructor; simpl; phase_trivial.
    + apply (core_frame C (set_microtasks js s)); auto.
      apply (not_closed_early _ _ Hc).
    + auto.
    + intros _. apply Hpa0. discriminate.
    + exact Hnr0.
    + intros Hfin. destruct (Hfp0 Hfin) as [H|[H|H]]; discriminate.
  - (* an element of [Promise.all] *)
    assert (Hin : In (JReact p RAll) (microtasks s)) by (rewrite Hq; now left).
    pose proof (queue_settled _ _ (core _ _ Hi) _ _ Hin) as Hs.
    pose proof (outcome_fulfilled p s (no_reject _ _ (core _ _ Hi)) Hs) as Ho.
    assert (Hpop : Inv C (set_microtasks js s))
      by (apply (inv_pop C s _ js Hi Hq); discriminate).
    unfold run_job. change (phase_of (set_microtasks js s)) with (phase_of s).
    change (outcome_of p (set_microtasks js s)) with (outcome_of p s).
    destruct (phase_of s) as [|r' i rest|i rest| | | | | |e] eqn:Hph; try exact Hpop.
    rewrite Ho. change (all_waiting (set_microtasks js s)) with (all_waiting s).
    destruct Hi as [Hc _ _ _ _ _ _ _ _ _ _ _].
    destruct Hpop as [Hc0 _ _ _ Hpa0 Hnr0 Haw0 _ Hfp0 _ _ _].
    simpl in *. rewrite Hph in *.
    assert (Hrest : forall x, (x < List.length (dispatched s))%nat ->
                              is_settled x s = false ->
                              In x (JS.set_delete Nat.eq_dec p (all_waiting s))).
    { intros x Hx Hxs. apply set_delete_In. split; [now apply Haw0|]. congruence. }
    destruct (JS.set_delete Nat.eq_dec p (all_waiting s)) as [|a aw] eqn:Hd.
    + constructor; simpl; phase_trivial.
      * apply (core_frame C (set_microtasks js s)); auto.
        apply (not_closed_early _ _ Hc).
      * intros _. apply Hpa0. discriminate.
      * exact Hnr0.
      * intros _ x Hx. destruct (is_settled x s) eqn:Hxs; [exact Hxs|].
        destruct (Hrest x Hx Hxs).
      * intros Hfin. destruct (Hfp0 Hfin) as [H|[H|H]]; discriminate.
    + constructor; simpl; rewrite ?Hph; phase_trivial.
      * pose proof (core_frame C (set_microtasks js s) (returned s) (listing s) []
                      AwaitAll (a :: aw) (finalized s) (closed s) (world_of s) Hc0) as H.
        simpl in H. rewrite app_nil_r in H. apply H; auto.
        apply (not_closed_early _ _ Hc).
      * intros _. apply Hpa0. discriminate.
      * exact Hnr0.
      * intros _. exact Hrest.
      * intros Hfin. destruct (Hfp0 Hfin) as [H|[H|H]]; discriminate.
Qed.

Lemma inv_init (C : config) :
  (0 <= concurrency C)%Z -> Inv C (createArchive C).
Proof.
  intros HC. unfold createArchive.
  constructor; simpl; phase_trivial; auto.
  constructor; simpl; try tauto; try (intros; lia); try constructor.
Qed.

Lemma step_handle (E : env) (C : config) (ev : event) (s s' : state) :
  step E C ev s = Some s' ->
  handle E C ev s = Some s' /\ forall e, phase_of s <> Crashed e.
Proof.
  unfold step. destruct (phase_of s); intros H; try discriminate;
    (split; [exact H|discriminate]).
Qed.


Lemma inv_handle (E : env) (C : config) (ev : event) (s s' : state) :
  Inv C s -> handle E C ev s = Some s' ->
  (forall source, ev <> EvArchiveError source) -> Inv C s'.
Proof.
  intros Hi. destruct ev as [chunk| |p| | |source]; simpl.
  - (* data *)
    destruct (phase_of s) eqn:Hph; try discriminate.
    intros H _; inversion H; subst; clear H.
    destruct Hi as [Hc Hrg Hrw Hli Hpa Hnr Haw Hdr Hfp Hac Hcp Hnc].
    destruct (Hli Hph) as (Hd & Hr & Hf).
    constructor; simpl; rewrite ?Hph; phase_trivial; auto.
    pose proof (core_frame C s (returned s) (Listing.on_data (listing s) chunk) []
                  Listening (all_waiting s) (finalized s) (closed s) (world_of s) Hc) as H.
    rewrite app_nil_r in H. apply H; auto. apply (not_closed_early _ _ Hc).
  - (* end *)
    destruct (phase_of s) eqn:Hph; try discriminate.
    intros H _; inversion H; subst; clear H.
    destruct (listening _ _ Hi Hph) as (Hd & Hr & Hf).
    apply inv_loop; auto.
    + apply (core _ _ Hi).
    + now rewrite Hd.
  - (* an add operation settles *)
    destruct (nth_error (dispatched s) p) as [itemPath|] eqn:Hn; [|discriminate].
    destruct (is_settled p s) eqn:Hs; [discriminate|].
    intros H _. apply settle_promise_eq in H as (w' & _ & ->).
    apply inv_settle; auto. apply nth_error_Some. congruence.
  - (* a microtask *)
    destruct (microtasks s) as [|j js] eqn:Hq; [discriminate|].
    intros H _; inversion H; subst. now apply inv_tick.
  - (* close *)
    destruct (phase_of s) eqn:Hph; try discriminate.
    destruct (writable E s); [|discriminate].
    intros H _; inversion H; subst; clear H.
    destruct Hi as [Hc Hrg Hrw Hli Hpa Hnr Haw Hdr Hfp Hac Hcp Hnc].
    unfold enqueue, set_microtasks. simpl.
    constructor; simpl; rewrite ?Hph in *; phase_trivial; auto.
    + apply core_frame; auto.
    + intros _. apply Hpa. discriminate.
    + intros _. apply Hdr. unfold after_drain. auto.
  - (* the archive writer fails *)
    intros _ H. now destruct (H source).
Qed.

(** The error of the archive writer ends the process where it stands. *)
Lemma handle_error (E : env) (C : config) (source : string) (s s' : state) :
  handle E C (EvArchiveError source) s = Some s' ->
  exists e, closed s = false /\ queued source s = true /\
            writer_error E source = Some e /\ s' = set_phase (Crashed e) s.
Proof.
  simpl. destruct (closed s); [discriminate|].
  destruct (queued source s); [|discriminate].
  destruct (writer_error E source) as [e|]; [|discriminate].
  intros H; inversion H; subst. now exists e.
Qed.

Lemma safe_step (E : env) (C : config) (ev : event) (s s' : state) :
  Safe C s -> step E C ev s = Some s' -> Safe C s'.
Proof.
  intros Hs Hstep. apply step_handle in Hstep as [Hh Hrun].
  destruct Hs as [Hi|(s0 & e & _ & ->)]; [|now destruct (Hrun e)].
  assert (Hcase : (exists source, ev = EvArchiveError source) \/
                  forall source, ev <> EvArchiveError source)
    by (destruct ev; eauto; right; discriminate).
  destruct Hcase as [(source & ->)|Hne].
  - apply (handle_error E C) in Hh as (e & _ & _ & _ & ->). right. now exists s, e.
  - left. eapply inv_handle; eauto.
Qed.

Theorem reachable_safe (E : env) (C : config) (s : state) :
  (0 <= concurrency C)%Z -> reachable E C s -> Safe C s.
Proof.
  intros HC H. induction H as [|s ev s' _ IH Hstep].
  - left. now apply inv_init.
  - eapply safe_step; eauto.
Qed.

(** As long as the process runs, the invariant holds. *)
Theorem reachable_inv (E : env) (C : config) (s : state) :
  (0 <= concurrency C)%Z -> reachable E C s ->
  (forall e, phase_of s <> Crashed e) -> Inv C s.
Proof.
  intros HC H Hrun. destruct (reachable_safe E C s HC H) as [Hi|(s0 & e & _ & ->)].
  - exact Hi.
  - now destruct (Hrun e).
Qed.

Lemma safe_core (C : config) (s : state) : Safe C s -> Core C s.
Proof.
  intros [Hi|(s0 & e & Hi & ->)]; [apply (core _ _ Hi)|].
  pose proof (core_frame C s0 (returned s0) (listing s0) [] (Crashed e)
                (all_waiting s0) (finalized s0) (closed s0) (world_of s0)
                (core _ _ Hi)) as H.
  rewrite app_nil_r in H. apply H; auto. apply (not_closed_early _ _ (core _ _ Hi)).
Qed.


(** *** What the handler leaves untouched *)

Lemma frame_refl (s s' : state) :
  returned s' = returned s ->
  outcomes s' = outcomes s -> world_of s' = world_of s ->
  dispatched s' = dispatched s -> frame s s'.
Proof.
  intros H0 H1 H2 H3. split; [assumption|]. split; [assumption|]. split; [assumption|].
  exists []. now rewrite app_nil_r.
Qed.

Lemma frame_trans (s1 s2 s3 : state) : frame s1 s2 -> frame s2 s3 -> frame s1 s3.
Proof.
  intros (H0 & H1 & H2 & e1 & H3) (H0' & H4 & H5 & e2 & H6).
  split; [congruence|]. split; [congruence|]. split; [congruence|].
  exists (e1 ++ e2)%list. rewrite H6, H3. now rewrite app_assoc.
Qed.

Lemma frame_then (p : nat) (r : reaction) (s : state) : frame s (then_ p r s).
Proof.
  unfold then_. destruct (is_settled p s); apply frame_refl; reflexivity.
Qed.

Lemma frame_dispatch (itemPath : string) (s : state) : frame s (dispatch itemPath s).
Proof.
  unfold dispatch. eapply frame_trans; [|apply frame_then].
  split; [reflexivity|]. split; [reflexivity|]. split; [reflexivity|].
  now exists [itemPath].
Qed.

Lemma frame_start_race (itemPath : string) (rest : list string) (s : state) :
  frame s (start_race itemPath rest s).
Proof. rewrite start_race_eq. apply frame_refl; reflexivity. Qed.

Lemma frame_start_all (s : state) : frame s (start_all s).
Proof.
  destruct (runningPromises s) as [|q qs] eqn:Hr.
  - unfold start_all. rewrite Hr. apply frame_refl; reflexivity.
  - rewrite start_all_eq by (rewrite Hr; discriminate). apply frame_refl; reflexivity.
Qed.

Lemma frame_loop (C : config) (paths : list string) (s : state) :
  frame s (loop C paths s).
Proof.
  revert s. induction paths as [|itemPath rest IH]; intros s; simpl.
  - apply frame_start_all.
  - destruct (_ >=? _)%Z; [apply frame_start_race|].
    eapply frame_trans; [apply frame_dispatch|apply IH].
Qed.

Lemma frame_run_job (C : config) (j : job) (s : state) : frame s (run_job C j s).
Proof.
  destruct j as [p [q|r|]|]; simpl.
  - destruct (outcome_of p s) as [[e|]|]; apply frame_refl; reflexivity.
  - destruct (phase_of s); try (apply frame_refl; reflexivity).
    destruct (Nat.eqb r r0); [|apply frame_refl; reflexivity].
    destruct (outcome_of p s) as [[e|]|]; apply frame_refl; reflexivity.
  - destruct (phase_of s); try (apply frame_refl; reflexivity).
    destruct (outcome_of p s) as [[e|]|]; try (apply frame_refl; reflexivity).
    destruct (JS.set_delete Nat.eq_dec p (all_waiting s)); apply frame_refl; reflexivity.
  - unfold resume. destruct (phase_of s); try (apply frame_refl; reflexivity).
    eapply frame_trans; [apply frame_dispatch|apply frame_loop].
Qed.

Lemma frame_step (E : env) (C : config) (ev : event) (s s' : state) :
  step E C ev s = Some s' ->
  (forall p, ev <> EvSettle p) ->
  frame s s'.
Proof.
  intros H Hne. apply step_handle in H as [H _].
  destruct ev as [chunk| |p| | |source]; simpl in H.
  - destruct (phase_of s); try discriminate. inversion H; subst.
    apply frame_refl; reflexivity.
  - destruct (phase_of s); try discriminate. inversion H; subst. apply frame_loop.
  - now destruct (Hne p).
  - destruct (microtasks s) as [|j js]; [discriminate|]. inversion H; subst.
    eapply frame_trans; [|apply frame_run_job]. apply frame_refl; reflexivity.
  - destruct (phase_of s); try discriminate.
    destruct (writable E s); [|discriminate]. inversion H; subst.
    apply frame_refl; reflexivity.
  - destruct (closed s); [discriminate|].
    destruct (queued source s); [|discriminate].
    destruct (writer_error E source); [|discriminate]. inversion H; subst.
    apply frame_refl; reflexivity.
Qed.


(** *** The output stream closes late *)









End PumpFacts.

(** ** Progress of the pump *)
Module PumpProgress.
Import Pump PumpInv PumpTactics PumpFacts.

Lemma in_reactions_split (p : nat) (r0 : reaction) (s : state) (ps : list nat) :
  In p ps ->
  In (JReact p r0)
     ((microtasks s ++
       map (fun q => JReact q r0) (filter (fun q => is_settled q s) ps)) ++
      (registered s ++
       map (fun q => JReact q r0) (filter (fun q => negb (is_settled q s)) ps))).
Proof.
  intros Hin. rewrite !in_app_iff.
  destruct (is_settled p s) eqn:Hs.
  - left. right. apply in_reactions. auto.
  - right. right. apply in_reactions. rewrite Hs. auto.
Qed.

Lemma live_start_race (itemPath : string) (rest : list string) (s : state) :
  runningPromises s <> [] -> Live (start_race itemPath rest s).
Proof.
  intros Hne. rewrite start_race_eq. constructor; simpl.
  - intros r i rest' H. inversion H; subst.
    destruct (runningPromises s) as [|q qs] eqn:Hr; [congruence|].
    exists q. rewrite <- Hr. apply in_reactions_split. rewrite Hr. now left.
  - discriminate.
  - intros ph <- [(i & rest' & H)|[H|H]]; discriminate.
Qed.

Lemma live_start_all (s : state) : Live (start_all s).
Proof.
  destruct (runningPromises s) as [|q qs] eqn:Hr.
  - unfold start_all. rewrite Hr. constructor; simpl; try discriminate.
    intros ph _ _. apply in_app_iff. right. now left.
  - rewrite start_all_eq by (rewrite Hr; discriminate). constructor; simpl.
    + discriminate.
    + intros _. split; [rewrite Hr; discriminate|].
      intros p Hp. now apply in_reactions_split.
    + intros ph <- [(i & rest' & H)|[H|H]]; discriminate.
Qed.

Lemma live_loop (C : config) (paths : list string) (s : state) :
  (1 <= concurrency C)%Z -> Live (loop C paths s).
Proof.
  intros HC. revert s. induction paths as [|itemPath rest IH]; intros s; simpl.
  - apply live_start_all.
  - destruct (_ >=? _)%Z eqn:Hge; [|apply IH].
    apply live_start_race. intros Hr. rewrite Hr in Hge. simpl in Hge. lia.
Qed.

Lemma in_partition (p : nat) (j : job) (l : list job) :
  In j l ->
  In j (filter (from_promise p) l) \/
  In j (filter (fun j => negb (from_promise p j)) l).
Proof.
  intros Hin. destruct (from_promise p j) eqn:Hf.
  - left. apply filter_In. auto.
  - right. apply filter_In. rewrite Hf. auto.
Qed.

Lemma live_settle (p : nat) (s : state) (w' : world) :
  Live s ->
  Live (mkState (returned s) (listing s) (dispatched s)
          ((p, None) :: outcomes s)
          (filter (fun j => negb (from_promise p j)) (registered s))
          (runningPromises s)
          (microtasks s ++ filter (from_promise p) (registered s))
          (phase_of s) (races s) (all_waiting s)
          (finalized s) (closed s) w').
Proof.
  intros [Hra Haa Hrq].
  assert (Hmove : forall j, In j (microtasks s ++ registered s) ->
                            In j ((microtasks s ++ filter (from_promise p) (registered s)) ++
                                  filter (fun j => negb (from_promise p j)) (registered s))).
  { intros j Hj. rewrite !in_app_iff in *. destruct Hj as [Hj|Hj]; [auto|].
    destruct (in_partition p j _ Hj); auto. }
  constructor; simpl.
  - intros r i rest Hph. destruct (Hra r i rest Hph) as [q Hq]. exists q. auto.
  - intros Hph. destruct (Haa Hph) as [Hne Hall]. split; [exact Hne|]. auto.
  - intros ph Hph Hcase. apply in_app_iff. left. eapply Hrq; eauto.
Qed.


Lemma live_pop (s : state) (j : job) (js : list job) (running' : list nat) :
  Live s ->
  microtasks s = j :: js ->
  (forall r i rest p, phase_of s = AwaitRace r i rest -> j <> JReact p (RRace r)) ->
  (forall p, phase_of s = AwaitAll -> j <> JReact p RAll) ->
  (forall i rest, phase_of s <> RaceWon i rest) /\
  phase_of s <> AllWon /\ phase_of s <> CloseWon \/ j <> JResume ->
  Live (mkState (returned s) (listing s) (dispatched s) (outcomes s)
          (registered s) running' js (phase_of s) (races s) (all_waiting s)
          (finalized s) (closed s) (world_of s)).
Proof.
  intros [Hra Haa Hrq] Hq Hrace Hall Hres. rewrite Hq in *.
  constructor; simpl.
  - intros r i rest Hph. destruct (Hra r i rest Hph) as [p [Hp|Hp]].
    + exfalso. apply (Hrace r i rest p Hph). now symmetry.
    + eauto.
  - intros Hph. destruct (Haa Hph) as [Hne Hin]. split; [exact Hne|].
    intros p Hp. destruct (Hin p Hp) as [H|H]; [|exact H].
    exfalso. apply (Hall p Hph). now symmetry.
  - intros ph Hph Hcase. destruct (Hrq ph Hph Hcase) as [H|H]; [|exact H].
    destruct Hres as [(H1 & H2 & H3)|H1]; [|congruence].
    subst ph. destruct Hcase as [(i & rest & Hc)|[Hc|Hc]]; [|tauto|tauto].
    now apply H1 in Hc.
Qed.

Lemma live_tick (C : config) (s : state) (j : job) (js : list job) :
  (1 <= concurrency C)%Z ->
  Inv C s -> Live s ->
  microtasks s = j :: js ->
  Live (run_job C j (set_microtasks js s)).
Proof.
  intros HC Hi Hl Hq.
  assert (Hset : forall p r, j = JReact p r -> outcome_of p s = Some None).
  { intros p r ->. apply outcome_fulfilled; [apply (no_reject _ _ (core _ _ Hi))|].
    apply (queue_settled _ _ (core _ _ Hi) p r). rewrite Hq. now left. }
  destruct j as [p [q|r|]|].
  - (* a deletion *)
    unfold run_job. change (outcome_of p (set_microtasks js s)) with (outcome_of p s).
    rewrite (Hset p _ eq_refl).
    apply (live_pop s _ js _ Hl Hq); try discriminate. right. discriminate.
  - (* a reaction of a race *)
    unfold run_job. change (phase_of (set_microtasks js s)) with (phase_of s).
    change (outcome_of p (set_microtasks js s)) with (outcome_of p s).
    rewrite (Hset p _ eq_refl).
    assert (Hpop : (forall r' i rest, phase_of s = AwaitRace r' i rest -> r <> r') ->
                   Live (set_microtasks js s)).
    { intros Hne. apply (live_pop s _ js _ Hl Hq); try discriminate.
      - intros r' i rest p' Hph H. inversion H; subst. now apply (Hne _ _ _ Hph).
      - right. discriminate. }
    destruct (phase_of s) as [|r' i rest|i rest| | | | | |e] eqn:Hph;
      try (apply Hpop; discriminate).
    destruct (Nat.eqb r r') eqn:Hr.
    + constructor; simpl; try discriminate.
      intros ph _ _. apply in_app_iff. right. now left.
    + apply Nat.eqb_neq in Hr. apply Hpop. intros r'' i' rest' H. inversion H; subst.
      exact Hr.
  - (* an element of [Promise.all] *)
    unfold run_job. change (phase_of (set_microtasks js s)) with (phase_of s).
    change (outcome_of p (set_microtasks js s)) with (outcome_of p s).
    rewrite (Hset p _ eq_refl).
    assert (Hpop : phase_of s <> AwaitAll -> Live (set_microtasks js s)).
    { intros Hne. apply (live_pop s _ js _ Hl Hq); try discriminate.
      - intros p' Hph. contradiction.
      - right. discriminate. }
    destruct (phase_of s) as [|r' i rest|i rest| | | | | |e] eqn:Hph;
      try (apply Hpop; discriminate).
    change (all_waiting (set_microtasks js s)) with (all_waiting s).
    destruct (JS.set_delete Nat.eq_dec p (all_waiting s)) as [|a aw] eqn:Hd.
    + constructor; simpl; try discriminate.
      intros ph _ _. apply in_app_iff. right. now left.
    + destruct Hl as [_ Haa _]. destruct (Haa Hph) as [_ Hin].
      assert (Hsub : forall x, In x (a :: aw) ->
                               In (JReact x RAll) (js ++ registered s)).
      { intros x Hx. rewrite <- Hd in Hx. apply set_delete_In in Hx as [Hx Hne].
        specialize (Hin x Hx). rewrite Hq in Hin. destruct Hin as [H|H]; [|exact H].
        inversion H; subst. congruence. }
      constructor; simpl; rewrite ?Hph; try discriminate.
      * intros _. split; [discriminate|]. exact Hsub.
      * intros ph <- [(i & rest' & H)|[H|H]]; discriminate.
  - (* the handler resumes *)
    unfold run_job, resume. change (phase_of (set_microtasks js s)) with (phase_of s).
    assert (Hpop : (forall i rest, phase_of s <> RaceWon i rest) ->
                   phase_of s <> AllWon -> phase_of s <> CloseWon ->
                   Live (set_microtasks js s)).
    { intros H1 H2 H3. apply (live_pop s _ js _ Hl Hq); try discriminate. left. auto. }
    destruct (phase_of s) as [|r' i rest|i rest| | | | | |e] eqn:Hph;
      try (apply Hpop; discriminate).
    + now apply live_loop.
    + constructor; simpl; try discriminate.
      intros ph <- [(i & rest' & H)|[H|H]]; discriminate.
    + constructor; simpl; try discriminate.
      intros ph <- [(i & rest' & H)|[H|H]]; discriminate.
Qed.

Lemma live_step (E : env) (C : config) (ev : event) (s s' : state) :
  (1 <= concurrency C)%Z ->
  Inv C s -> Live s -> step E C ev s = Some s' -> Live s'.
Proof.
  intros HC Hi Hl Hs. apply step_handle in Hs as [Hs _]. revert Hs.
  destruct ev as [chunk| |p| | |source]; simpl.
  - destruct (phase_of s) eqn:Hph; try discriminate.
    intros H; inversion H; subst; clear H.
    constructor; simpl; rewrite ?Hph; try discriminate.
    intros ph <- [(i & rest' & H)|[H|H]]; discriminate.
  - destruct (phase_of s) eqn:Hph; try discriminate.
    intros H; inversion H; subst. now apply live_loop.
  - destruct (nth_error (dispatched s) p) as [itemPath|]; [|discriminate].
    destruct (is_settled p s); [discriminate|].
    intros H. apply settle_promise_eq in H as (w' & _ & ->). now apply live_settle.
  - destruct (microtasks s) as [|j js] eqn:Hq; [discriminate|].
    intros H; inversion H; subst. now apply (live_tick C s j js).
  - destruct (phase_of s) eqn:Hph; try discriminate.
    destruct (writable E s); [|discriminate].
    intros H; inversion H; subst; clear H.
    constructor; simpl; try discriminate.
    intros ph _ _. apply in_app_iff. right. now left.
  - intros H. apply (handle_error E C) in H as (e & _ & _ & _ & ->).
    constructor; simpl; try discriminate.
    intros ph <- [(i & rest' & H)|[H|H]]; discriminate.
Qed.

Lemma live_init (C : config) : Live (createArchive C).
Proof.
  constructor; simpl; try discriminate.
  intros ph <- [(i & rest' & H)|[H|H]]; discriminate.
Qed.

Lemma reachable_live (E : env) (C : config) (s : state) :
  (1 <= concurrency C)%Z -> reachable E C s -> Live s.
Proof.
  intros HC H. induction H as [|s ev s' Hr IH Hstep]; [apply live_init|].
  eapply live_step; eauto.
  apply (reachable_inv E); [lia|assumption|].
  now apply step_handle in Hstep as [_ Hrun].
Qed.


(** *** The handler is never stuck *)




(** *** Every event brings the end nearer *)

Lemma in_flight_dispatch (C : config) (itemPath : string) (s : state) :
  Core C s ->
  in_flight (dispatch itemPath s) = (in_flight s ++ [List.length (dispatched s)])%list.
Proof.
  intros Hc. rewrite (dispatch_eq C _ _ Hc). unfold in_flight, is_settled. simpl.
  rewrite length_app. simpl. rewrite Nat.add_1_r, seq_S, filter_app. simpl.
  pose proof (fresh_unsettled C s Hc) as Hf. unfold is_settled in Hf. now rewrite Hf.
Qed.

Lemma base_cost_dispatch (C : config) (itemPath : string) (s : state) :
  Core C s -> base_cost (dispatch itemPath s) = (base_cost s + 2)%nat.
Proof.
  intros Hc. unfold base_cost. rewrite (in_flight_dispatch C _ _ Hc).
  rewrite (dispatch_eq C _ _ Hc). simpl. rewrite !length_app. simpl. lia.
Qed.

Lemma reactions_length (r0 : reaction) (f : nat -> bool) (ps : list nat) :
  (List.length (map (fun q => JReact q r0) (filter f ps)) +
   List.length (map (fun q => JReact q r0) (filter (fun q => negb (f q)) ps)))%nat
  = List.length ps.
Proof. rewrite !length_map. apply filter_length. Qed.

Lemma cost_start_race (itemPath : string) (rest : list string) (s : state) :
  cost (start_race itemPath rest s) =
  (base_cost s + List.length (runningPromises s)
   + phase_cost (List.length (Listing.allPaths (listing s)))
                (AwaitRace (races s) itemPath rest))%nat.
Proof.
  rewrite start_race_eq. unfold cost, base_cost, in_flight, is_settled. simpl.
  rewrite !length_app.
  pose proof (reactions_length (RRace (races s))
                (fun p => settled_in (outcomes s) p) (runningPromises s)).
  lia.
Qed.

Lemma cost_start_all (s : state) :
  (cost (start_all s) <= base_cost s + List.length (runningPromises s) + 5)%nat /\
  phase_of (start_all s) <> Listening /\ listing (start_all s) = listing s.
Proof.
  destruct (runningPromises s) as [|q qs] eqn:Hr.
  - unfold start_all. rewrite Hr.
    unfold cost, base_cost, in_flight, is_settled. simpl.
    rewrite length_app. simpl. split; [lia|]. split; [discriminate|reflexivity].
  - rewrite start_all_eq by (rewrite Hr; discriminate).
    unfold cost, base_cost, in_flight, is_settled. simpl. rewrite !length_app.
    pose proof (reactions_length RAll
                  (fun p => settled_in (outcomes s) p) (runningPromises s)) as H.
    rewrite Hr in *. simpl in *. split; [lia|]. split; [discriminate|reflexivity].
Qed.

Lemma cost_loop (C : config) (paths : list string) (s : state) :
  Core C s ->
  (List.length (dispatched s) + List.length paths)%nat
  = List.length (Listing.allPaths (listing s)) ->
  (cost (loop C paths s) <=
   base_cost s
   + List.length paths * (List.length (Listing.allPaths (listing s)) + 3)
   + List.length (Listing.allPaths (listing s)) + 6)%nat /\
  phase_of (loop C paths s) <> Listening /\
  listing (loop C paths s) = listing s.
Proof.
  revert s. induction paths as [|itemPath rest IH]; intros s Hc Hlen; simpl.
  - destruct (cost_start_all s) as (H1 & H2 & H3).
    pose proof (size_le_dispatched C s Hc) as Hsz. unfold size in Hsz.
    split; [lia|]. split; assumption.
  - simpl in Hlen. fold (size s). destruct (size s >=? concurrency C)%Z eqn:Hge.
    + rewrite cost_start_race. rewrite start_race_eq. simpl.
      pose proof (size_le_dispatched C s Hc) as Hsz. unfold size in Hsz.
      split; [lia|]. split; [discriminate|reflexivity].
    + assert (Hlt : (size s < concurrency C)%Z) by lia.
      pose proof (core_dispatch C itemPath s Hc Hlt) as Hc'.
      destruct (IH (dispatch itemPath s) Hc') as (H1 & H2 & H3).
      { rewrite (dispatch_eq C _ _ Hc). simpl. rewrite length_app. simpl. lia. }
      rewrite (base_cost_dispatch C _ _ Hc) in H1.
      assert (Hl : listing (dispatch itemPath s) = listing s)
        by (rewrite (dispatch_eq C _ _ Hc); reflexivity).
      rewrite Hl in *. split; [lia|]. split; assumption.
Qed.


Lemma filter_length_lt {A : Type} (f g : A -> bool) (l : list A) (x : A) :
  In x l -> f x = true -> g x = false ->
  (forall y, g y = true -> f y = true) ->
  (List.length (filter g l) < List.length (filter f l))%nat.
Proof.
  intros Hin Hf Hg Himp.
  assert (Hle : forall l', (List.length (filter g l') <= List.length (filter f l'))%nat).
  { induction l' as [|y l' IH]; simpl; [lia|].
    destruct (g y) eqn:Hgy; [rewrite (Himp y Hgy); simpl; lia|].
    destruct (f y); simpl; lia. }
  induction l as [|y l IH]; simpl; [destruct Hin|].
  destruct Hin as [->|Hin].
  - rewrite Hf, Hg. simpl. specialize (Hle l). lia.
  - specialize (IH Hin). destruct (g y) eqn:Hgy; [rewrite (Himp y Hgy); simpl; lia|].
    destruct (f y); simpl; lia.
Qed.

Lemma cost_settle (p : nat) (s : state) (w' : world) :
  (p < List.length (dispatched s))%nat ->
  is_settled p s = false ->
  (cost (mkState (returned s) (listing s) (dispatched s)
           ((p, None) :: outcomes s)
           (filter (fun j => negb (from_promise p j)) (registered s))
           (runningPromises s)
           (microtasks s ++ filter (from_promise p) (registered s))
           (phase_of s) (races s) (all_waiting s)
           (finalized s) (closed s) w') < cost s)%nat.
Proof.
  intros Hp Hs. unfold cost, base_cost, in_flight, is_settled in *. simpl.
  rewrite length_app.
  pose proof (filter_length (from_promise p) (registered s)) as Hreg.
  assert (Hfl : (List.length
                   (filter (fun q => negb (settled_in ((p, None) :: outcomes s) q))
                           (seq 0 (List.length (dispatched s))))
                 < List.length
                     (filter (fun q => negb (settled_in (outcomes s) q))
                             (seq 0 (List.length (dispatched s)))))%nat).
  { apply (filter_length_lt _ _ _ p).
    - apply in_seq. lia.
    - now rewrite Hs.
    - now rewrite settled_in_cons, Nat.eqb_refl.
    - intros y Hy. rewrite settled_in_cons in Hy.
      apply negb_true_iff, orb_false_iff in Hy as [_ Hy]. now rewrite Hy. }
  lia.
Qed.

Lemma cost_run_job (C : config) (s : state) (j : job) (js : list job) :
  Inv C s ->
  microtasks s = j :: js ->
  phase_of s <> Listening ->
  (cost (run_job C j (set_microtasks js s)) < cost s)%nat /\
  phase_of (run_job C j (set_microtasks js s)) <> Listening.
Proof.
  intros Hi Hq Hnl.
  destruct j as [p [q|r|]|]; unfold run_job.
  - change (outcome_of p (set_microtasks js s)) with (outcome_of p s).
    destruct (outcome_of p s) as [[e|]|]; cost_simple Hq Hnl.
  - change (phase_of (set_microtasks js s)) with (phase_of s).
    change (outcome_of p (set_microtasks js s)) with (outcome_of p s).
    destruct (phase_of s) as [|r' i rest|i rest| | | | | |e] eqn:Hph;
      try cost_simple Hq Hph.
    destruct (Nat.eqb r r'); [|cost_simple Hq Hph].
    destruct (outcome_of p s) as [[e|]|]; cost_simple Hq Hph.
  - change (phase_of (set_microtasks js s)) with (phase_of s).
    change (outcome_of p (set_microtasks js s)) with (outcome_of p s).
    destruct (phase_of s) as [|r' i rest|i rest| | | | | |e] eqn:Hph;
      try cost_simple Hq Hph.
    destruct (outcome_of p s) as [[e|]|]; try cost_simple Hq Hph.
    change (all_waiting (set_microtasks js s)) with (all_waiting s).
    destruct (JS.set_delete Nat.eq_dec p (all_waiting s)); cost_simple Hq Hph.
  - unfold resume. change (phase_of (set_microtasks js s)) with (phase_of s).
    destruct (phase_of s) as [|r' i rest|i rest| | | | | |e] eqn:Hph;
      try cost_simple Hq Hph.
    assert (Hpop : Inv C (set_microtasks js s))
      by (apply (inv_pop C s _ js Hi Hq); discriminate).
    pose proof (core _ _ Hpop) as Hc0.
    pose proof (race_won _ _ Hpop i rest Hph) as Hlt.
    pose proof (core_dispatch C i _ Hc0 Hlt) as Hc1.
    pose proof (paths_acc _ _ Hi) as Hpa. rewrite Hph in Hpa. simpl in Hpa.
    specialize (Hpa ltac:(discriminate)).
    apply (f_equal (@List.length string)) in Hpa. rewrite length_app in Hpa.
    simpl in Hpa.
    destruct (cost_loop C rest (dispatch i (set_microtasks js s)) Hc1) as (H1 & H2 & H3).
    { rewrite (dispatch_eq C _ _ Hc0). simpl. rewrite length_app. simpl. lia. }
    rewrite (base_cost_dispatch C _ _ Hc0) in H1.
    assert (Hl : listing (dispatch i (set_microtasks js s)) = listing s)
      by (rewrite (dispatch_eq C _ _ Hc0); reflexivity).
    rewrite Hl in H1. split; [|exact H2].
    unfold cost at 2. rewrite Hph. simpl.
    assert (Hb : (base_cost (set_microtasks js s) + 1 = base_cost s)%nat).
    { unfold base_cost, in_flight, is_settled. simpl. rewrite Hq. simpl. lia. }
    lia.
Qed.

Lemma cost_step (E : env) (C : config) (ev : event) (s s' : state) :
  Inv C s ->
  phase_of s <> Listening ->
  step E C ev s = Some s' ->
  (cost s' < cost s)%nat /\ phase_of s' <> Listening.
Proof.
  intros Hi Hnl Hs. apply step_handle in Hs as [Hs _]. revert Hs.
  destruct ev as [chunk| |p| | |source]; simpl.
  - destruct (phase_of s); try discriminate. congruence.
  - destruct (phase_of s); try discriminate. congruence.
  - destruct (nth_error (dispatched s) p) as [itemPath|] eqn:Hn; [|discriminate].
    destruct (is_settled p s) eqn:Hs; [discriminate|].
    intros H. apply settle_promise_eq in H as (w' & _ & ->).
    split; [|exact Hnl]. apply cost_settle; [|exact Hs].
    apply nth_error_Some. congruence.
  - destruct (microtasks s) as [|j js] eqn:Hq; [discriminate|].
    intros H; inversion H; subst. now apply cost_run_job.
  - destruct (phase_of s) eqn:Hph; try discriminate.
    destruct (writable E s); [|discriminate].
    intros H; inversion H; subst; clear H.
    unfold cost, base_cost, in_flight, is_settled, enqueue, set_microtasks. simpl.
    rewrite Hph, length_app. simpl. split; [lia|discriminate].
  - intros H. apply (handle_error E C) in H as (e & Hcl & _ & _ & ->).
    split; [|discriminate].
    unfold cost, base_cost, in_flight, is_settled, set_phase. simpl.
    destruct (phase_of s) as [|r i rest|i rest| | | | | |e'] eqn:Hph; simpl; try lia.
    + congruence.
    + destruct (close_phase _ _ Hi) as [H _]; [now right|congruence].
    + now destruct (not_crashed _ _ Hi e').
Qed.





End PumpProgress.

(** ** The pump's guarantees *)

Lemma run_reachable (E : env) (C : Pump.config) (evs : list Pump.event)
      (s s' : Pump.state) :
  Pump.reachable E C s -> Pump.run E C evs s = Some s' -> Pump.reachable E C s'.
Proof.
  revert s. induction evs as [|ev evs IH]; intros s Hr; simpl.
  - intros H; inversion H; subst. exact Hr.
  - destruct (Pump.step E C ev s) as [s1|] eqn:Hs; [|discriminate].
    apply IH. eapply Pump.reach_step; eauto.
Qed.

Lemma demo_state_reachable (n : nat) :
  Pump.reachable demo_env demo_config (demo_state n).
Proof.
  unfold demo_state.
  destruct (Pump.run demo_env demo_config (firstn n demo_events)
                     (Pump.createArchive demo_config)) as [s|] eqn:Hrun.
  - eapply run_reachable; [apply Pump.reach_init|exact Hrun].
  - apply Pump.reach_init.
Qed.

(** Operations in flight are members of [runningPromises]. *)
Lemma in_flight_le_running (C : Pump.config) (s : Pump.state) :
  PumpInv.Core C s ->
  (List.length (Pump.in_flight s) <= List.length (Pump.runningPromises s))%nat.
Proof.
  intros Hc. unfold Pump.in_flight. apply NoDup_incl_length.
  - apply NoDup_filter, seq_NoDup.
  - intros p Hp. apply filter_In in Hp as [Hp Hs].
    apply in_seq in Hp. apply negb_true_iff in Hs.
    apply (PumpInv.pending_running _ _ Hc); [lia|assumption].
Qed.

(** C1: with a ceiling of at least 1, in every state of the run the set
    [runningPromises] has at most [concurrency] members, and so have the
    add operations in flight; when the ceiling is at least the number of
    paths the handler never awaits a [Promise.race]; with ceiling 1 at
    most one operation is in flight. *)
Theorem C1_in_flight_within_ceiling (E : env) (C : Pump.config) (s : Pump.state)
        (Hceiling : (1 <= Pump.concurrency C)%Z)
        (Hreach : Pump.reachable E C s) :
  (Z.of_nat (List.length (Pump.runningPromises s)) <= Pump.concurrency C)%Z /\
  (Z.of_nat (List.length (Pump.in_flight s)) <= Pump.concurrency C)%Z /\
  ((Z.of_nat (List.length (Listing.allPaths (Pump.listing s)))
    <= Pump.concurrency C)%Z ->
   Pump.races s = 0%nat /\
   forall r itemPath rest, Pump.phase_of s <> Pump.AwaitRace r itemPath rest) /\
  (Pump.concurrency C = 1%Z ->
   (List.length (Pump.runningPromises s) <= 1)%nat /\
   (List.length (Pump.in_flight s) <= 1)%nat).
Proof.
  pose proof (PumpFacts.reachable_safe E C s ltac:(lia) Hreach) as Hsafe.
  pose proof (PumpFacts.safe_core C s Hsafe) as Hcore.
  pose proof (PumpProgress.reachable_live E C s Hceiling Hreach) as Hl.
  pose proof (PumpInv.size_le _ _ Hcore) as Hsz.
  pose proof (in_flight_le_running C s Hcore) as Hfl.
  unfold PumpInv.size in Hsz.
  split; [exact Hsz|]. split; [lia|]. split.
  - intros Hroom.
    assert (Hr : Pump.races s = 0%nat).
    { destruct Hsafe as [Hi|(s0 & e & Hi & ->)].
      - exact (PumpInv.no_race_if_room _ _ Hi Hroom).
      - exact (PumpInv.no_race_if_room _ _ Hi Hroom). }
    split; [exact Hr|]. intros r itemPath rest Hph.
    destruct (PumpInv.race_alive _ Hl r itemPath rest Hph) as [p Hp].
    apply (PumpInv.race_fresh _ _ Hcore) in Hp. lia.
  - intros H1. lia.
Qed.

Lemma C1_witness :
  (1 <= Pump.concurrency demo_config)%Z /\
  Pump.reachable demo_env demo_config (demo_state 11) /\
  Pump.runningPromises (demo_state 11) = [0; 3]%nat /\
  (Z.of_nat (List.length (Pump.runningPromises (demo_state 11)))
   <= Pump.concurrency demo_config)%Z.
Proof.
  assert (Hc : (1 <= Pump.concurrency demo_config)%Z) by (simpl; lia).
  pose proof (C1_in_flight_within_ceiling demo_env demo_config (demo_state 11) Hc
                (demo_state_reachable 11)) as (H & _).
  split; [exact Hc|]. split; [apply demo_state_reachable|].
  split; [reflexivity|exact H].
Defined.

(** The promise [createArchive] returned is fulfilled in every state of
    the run. *)
Lemma returned_always (E : env) (C : Pump.config) (s : Pump.state) :
  Pump.reachable E C s -> Pump.returned s = true.
Proof.
  intros H. induction H as [|s ev s' _ IH Hstep]; [reflexivity|].
  destruct ev as [chunk| |p| | |source];
    try (apply PumpFacts.frame_step in Hstep as (H0 & _); [congruence|discriminate]).
  apply PumpFacts.step_handle in Hstep as [Hstep _]. simpl in Hstep.
  destruct (nth_error (Pump.dispatched s) p) as [itemPath|]; [|discriminate].
  destruct (Pump.is_settled p s); [discriminate|].
  apply PumpFacts.settle_promise_eq in Hstep as (w' & _ & ->). exact IH.
Qed.

(** C2: [createArchive] holds no [await] outside the [end] handler: the
    promise it returns is fulfilled when it returns, with the listing not
    yet read, and stays so while add operations are in flight and the
    archive is neither finalized nor closed. *)
Theorem C2_createArchive_resolves_at_once :
  Pump.returned (Pump.createArchive demo_config) = true /\
  Pump.phase_of (Pump.createArchive demo_config) = Pump.Listening /\
  Pump.reachable demo_env demo_config (demo_state 3) /\
  Pump.returned (demo_state 3) = true /\
  Pump.in_flight (demo_state 3) = [0; 1]%nat /\
  Pump.finalized (demo_state 3) = false /\
  Pump.closed (demo_state 3) = false.
Proof.
  split; [reflexivity|]. split; [reflexivity|].
  split; [apply demo_state_reachable|]. repeat split; reflexivity.
Qed.







(** ** Root queries *)

Lemma settled_on_disk_frame (E : env) (s s' : Pump.state) :
  (forall p o, In (p, o) (Pump.outcomes s) ->
               (p < List.length (Pump.dispatched s))%nat) ->
  PumpInv.frame s s' ->
  settled_on_disk E s' = settled_on_disk E s.
Proof.
  intros Hb (_ & Ho & _ & extra & Hd). unfold settled_on_disk.
  rewrite Ho, Hd. f_equal. apply filter_ext_in.
  intros [p o] Hin. simpl. rewrite app_nth1; [reflexivity|]. eauto.
Qed.

(** One [pnpm root] child has been spawned for every settled operation
    whose path is on disk, and no other child but the listing one. *)
Lemma root_queries_counted (E : env) (C : Pump.config) (s : Pump.state) :
  Pump.reachable E C s ->
  (forall p o, In (p, o) (Pump.outcomes s) ->
               (p < List.length (Pump.dispatched s))%nat) /\
  spawned (Pump.world_of s) =
  Pump.ls_args (Pump.projectName C) :: repeat ["root"] (settled_on_disk E s).
Proof.
  intros H. induction H as [|s ev s' _ [IHb IHs] Hstep].
  - split; [intros p o []|reflexivity].
  - assert (Hframe : (forall p, ev <> Pump.EvSettle p) ->
                     (forall p o, In (p, o) (Pump.outcomes s') ->
                                  (p < List.length (Pump.dispatched s'))%nat) /\
                     spawned (Pump.world_of s') =
                     Pump.ls_args (Pump.projectName C)
                       :: repeat ["root"] (settled_on_disk E s')).
    { intros Hne. pose proof (PumpFacts.frame_step E C ev s s' Hstep Hne) as Hf.
      rewrite (settled_on_disk_frame E s s' IHb Hf).
      destruct Hf as (_ & Ho & Hw & extra & Hd). rewrite Ho, Hw, Hd. split; [|exact IHs].
      intros p o Hin. rewrite length_app. apply IHb in Hin. lia. }
    destruct ev as [chunk| |p| | |source]; try (apply Hframe; discriminate).
    clear Hframe. apply PumpFacts.step_handle in Hstep as [Hstep _]. simpl in Hstep.
    destruct (nth_error (Pump.dispatched s) p) as [itemPath|] eqn:Hn; [|discriminate].
    destruct (Pump.is_settled p s); [discriminate|].
    apply PumpFacts.settle_promise_eq in Hstep as (w' & Hg & ->).
    apply guarded_add_spawned in Hg. simpl. split.
    + intros q o [Hq|Hq]; [|eauto]. inversion Hq; subst.
      apply nth_error_Some. congruence.
    + rewrite Hg, IHs. unfold settled_on_disk. simpl.
      rewrite (nth_error_nth _ _ "" Hn).
      destruct (on_disk E itemPath); simpl; [|now rewrite app_nil_r].
      f_equal. symmetry. apply repeat_cons.
Qed.

(** C10: every invocation of [addToArchive] on a path that is on disk
    spawns one [pnpm root] child of its own, and the names of the entries
    it adds come from what that child answers; on a missing path it spawns
    none.  Over a run, the children spawned are the listing child and one
    [pnpm root] for each settled operation on a path on disk: no answer is
    kept for a later path. *)
Theorem C10_root_is_queried_for_every_path (E : env) (C : Pump.config)
        (s : Pump.state) (Hreach : Pump.reachable E C s) :
  (forall itemPath w w' r,
      on_disk E itemPath = true ->
      Mapper.addToArchive E itemPath (Pump.verbose C) w = Some (w', r) ->
      spawned w' = (spawned w ++ [["root"]])%list /\
      exists answer,
        Zip.runPnpmCommand ["root"] (pnpm E (List.length (spawned w)) ["root"])
        = Some answer /\
        match answer with
        | inl e => r = inl e /\ archive w' = archive w
        | inr rootPath =>
            archive w' = (archive w ++ entries_under E rootPath itemPath)%list
        end) /\
  (forall itemPath w w' r,
      on_disk E itemPath = false ->
      Mapper.addToArchive E itemPath (Pump.verbose C) w = Some (w', r) ->
      spawned w' = spawned w) /\
  spawned (Pump.world_of s) =
  Pump.ls_args (Pump.projectName C) :: repeat ["root"] (settled_on_disk E s).
Proof.
  split; [|split].
  - intros itemPath w w' r Hd Ha.
    pose proof (addToArchive_spawned _ _ _ _ _ _ Ha) as Hsp. rewrite Hd in Hsp.
    split; [exact Hsp|].
    assert (Hfs : fs E itemPath <> Missing)
      by (unfold on_disk in Hd; destruct (fs E itemPath); congruence).
    destruct (Mapper.getRootPath E w) as [[w1 [e|root]]|] eqn:Hroot.
    + destruct (getRootPath_inv _ _ _ _ Hroot) as [-> Hrun].
      exists (inl e). split; [exact Hrun|].
      rewrite (addToArchive_root_fails E itemPath _ w _ e Hfs Hroot) in Ha.
      inversion Ha; subst. split; reflexivity.
    + destruct (getRootPath_inv _ _ _ _ Hroot) as [-> Hrun].
      exists (inr root). split; [exact Hrun|].
      rewrite (addToArchive_on_disk E itemPath _ w _ root Hfs Hroot) in Ha.
      inversion Ha; subst. reflexivity.
    + rewrite addToArchive_no_root in Ha by assumption. discriminate.
  - intros itemPath w w' r Hd Ha.
    pose proof (addToArchive_spawned _ _ _ _ _ _ Ha) as Hsp. rewrite Hd in Hsp.
    now rewrite app_nil_r in Hsp.
  - apply (root_queries_counted E C s Hreach).
Qed.

Lemma C10_witness :
  Pump.reachable demo_env demo_config (demo_state 27) /\
  settled_on_disk demo_env (demo_state 27) = 3%nat /\
  spawned (Pump.world_of (demo_state 27)) =
    [Pump.ls_args "pkg"; ["root"]; ["root"]; ["root"]] /\
  archive (Pump.world_of (demo_state 27)) =
    [("/ws/node_modules/d/x.js", "node_modules/d/x.js");
     ("/ws/node_modules/d/sub", "node_modules/d/sub")].
Proof.
  pose proof (C10_root_is_queried_for_every_path demo_env demo_config
                (demo_state 27) (demo_state_reachable 27)) as (_ & _ & H).
  split; [apply demo_state_reachable|]. split; [reflexivity|].
  split; [exact H|reflexivity].
Defined.

(** * Further properties of the code *)

(** ** [runPnpmCommand]: settling once *)

(** X1: the promise of [runPnpmCommand] (both variants) is pending as long
    as the child has emitted neither [exit] nor [error]; the first of these
    two events settles it, and nothing the child emits afterwards changes
    the result: an [error] event rejects with that error, an [exit] event
    decides from the code (and, in the [zip] variant, from what was written
    to the error stream before it). *)
Theorem X1_first_exit_or_error_settles
        (args : list string) (quiet rest : list child_event)
        (Hquiet : Forall (fun ev => is_quiet ev = true) quiet) :
  Zip.runPnpmCommand args quiet = None /\
  SevenZip.runPnpmCommand args quiet = None /\
  (forall m,
      Zip.runPnpmCommand args (quiet ++ ChildError m :: rest)
      = Some (inl (SpawnError m)) /\
      SevenZip.runPnpmCommand args (quiet ++ ChildError m :: rest)
      = Some (inl (SpawnError m))) /\
  (forall code,
      Zip.runPnpmCommand args (quiet ++ Exit code :: rest)
      = Some (if code_nonzero code || JS.truthy (stderr_of quiet)
              then inl (CommandFailed "pnpm" args code
                                      (Some (JS.trim (stderr_of quiet))))
              else inr (JS.trim (stdout_of quiet))) /\
      SevenZip.runPnpmCommand args (quiet ++ Exit code :: rest)
      = Some (if code_nonzero code
              then inl (CommandFailed "pnpm" args code None)
              else inr (JS.trim (stdout_of quiet)))).
Proof.
  unfold Zip.runPnpmCommand, SevenZip.runPnpmCommand.
  split; [now rewrite (zip_fold_quiet args quiet _ Hquiet)|].
  split; [now rewrite (sevenzip_fold_quiet args quiet _ Hquiet)|].
  split.
  - intros m. rewrite !fold_left_app.
    rewrite (zip_fold_quiet args quiet _ Hquiet),
            (sevenzip_fold_quiet args quiet _ Hquiet). simpl.
    split; [apply zip_settled_stays|apply sevenzip_settled_stays]; reflexivity.
  - intros code. rewrite !fold_left_app.
    rewrite (zip_fold_quiet args quiet _ Hquiet),
            (sevenzip_fold_quiet args quiet _ Hquiet). simpl.
    split.
    + apply zip_settled_stays.
      destruct (code_nonzero code || JS.truthy (stderr_of quiet)); reflexivity.
    + apply sevenzip_settled_stays. destruct (code_nonzero code); reflexivity.
Qed.

Lemma X1_witness :
  let quiet := [StdoutData "/ws/node"; StdoutEnd; StdoutData ("_modules" ++ nl)] in
  Forall (fun ev => is_quiet ev = true) quiet /\
  Zip.runPnpmCommand ["root"] quiet = None /\
  Zip.runPnpmCommand ["root"]
    (quiet ++ [Exit (Some 0%Z); StderrData "late"; ChildError "late"; Exit (Some 1%Z)])
  = Some (inr "/ws/node_modules").
Proof.
  intros quiet.
  assert (Hq : Forall (fun ev => is_quiet ev = true) quiet) by (repeat constructor).
  pose proof (X1_first_exit_or_error_settles ["root"] quiet
                [StderrData "late"; ChildError "late"; Exit (Some 1%Z)] Hq)
    as (Hn & _ & _ & Hx).
  split; [exact Hq|]. split; [exact Hn|]. exact (proj1 (Hx (Some 0%Z))).
Defined.

(** ** [trim] *)

Lemma trimStart_head (s : string) : first_is_white (JS.trimStart s) = false.
Proof.
  induction s as [|c s IH]; simpl; [reflexivity|].
  destruct (JS.is_white c) eqn:Hc; [exact IH|]. simpl. exact Hc.
Qed.

Lemma trimStart_fixed (s : string) :
  first_is_white s = false -> JS.trimStart s = s.
Proof. destruct s as [|c s]; simpl; [reflexivity|]. now intros ->. Qed.

Lemma trimEnd_head (s : string) :
  first_is_white s = false -> first_is_white (JS.trimEnd s) = false.
Proof.
  destruct s as [|c s]; simpl; [reflexivity|]. intros Hc.
  destruct (JS.trimEnd s); simpl; [rewrite Hc; simpl|]; exact Hc.
Qed.

Lemma trimEnd_cons (c : ascii) (s : string) :
  JS.trimEnd (String c s) =
  match JS.trimEnd s with
  | EmptyString => if JS.is_white c then EmptyString else String c EmptyString
  | t => String c t
  end.
Proof. reflexivity. Qed.

Lemma trimEnd_idem (s : string) : JS.trimEnd (JS.trimEnd s) = JS.trimEnd s.
Proof.
  induction s as [|c s IH]; [reflexivity|].
  rewrite trimEnd_cons.
  destruct (JS.trimEnd s) as [|d u] eqn:Hu.
  - destruct (JS.is_white c) eqn:Hc; [reflexivity|].
    rewrite trimEnd_cons. simpl. now rewrite Hc.
  - rewrite trimEnd_cons, IH. reflexivity.
Qed.

Lemma trimEnd_last (s : string) : last_is_white (JS.trimEnd s) = false.
Proof.
  induction s as [|c s IH]; simpl; [reflexivity|].
  destruct (JS.trimEnd s) as [|d u] eqn:Hu.
  - destruct (JS.is_white c) eqn:Hc; simpl; [reflexivity|exact Hc].
  - exact IH.
Qed.

Lemma trim_idem (s : string) : JS.trim (JS.trim s) = JS.trim s.
Proof.
  unfold JS.trim.
  rewrite (trimStart_fixed (JS.trimEnd (JS.trimStart s))).
  - apply trimEnd_idem.
  - apply trimEnd_head, trimStart_head.
Qed.

Lemma zip_resolved_trimmed (args : list string) (tr : list child_event)
      (st : cmd_state) :
  (forall o, settled st = Some (inr o) -> exists s, o = JS.trim s) ->
  forall o, settled (fold_left (Zip.on_event args) tr st) = Some (inr o) ->
            exists s, o = JS.trim s.
Proof.
  revert st. induction tr as [|ev tr IH]; intros st Hst; simpl; [exact Hst|].
  apply IH. destruct ev; simpl; try exact Hst.
  - destruct (_ || _); unfold settle; destruct (settled st) eqn:Hs; simpl;
      try (rewrite Hs; exact Hst); intros o Ho; inversion Ho; eauto.
  - unfold settle; destruct (settled st) eqn:Hs; simpl;
      try (rewrite Hs; exact Hst); intros o Ho; inversion Ho.
Qed.

Lemma sevenzip_resolved_trimmed (args : list string) (tr : list child_event)
      (st : cmd_state) :
  (forall o, settled st = Some (inr o) -> exists s, o = JS.trim s) ->
  forall o, settled (fold_left (SevenZip.on_event args) tr st) = Some (inr o) ->
            exists s, o = JS.trim s.
Proof.
  revert st. induction tr as [|ev tr IH]; intros st Hst; simpl; [exact Hst|].
  apply IH. destruct ev; simpl; try exact Hst.
  - destruct (code_nonzero _); unfold settle; destruct (settled st) eqn:Hs; simpl;
      try (rewrite Hs; exact Hst); intros o Ho; inversion Ho; eauto.
  - unfold settle; destruct (settled st) eqn:Hs; simpl;
      try (rewrite Hs; exact Hst); intros o Ho; inversion Ho.
Qed.

(** X2: whatever the child emits, in whatever order, a value
    [runPnpmCommand] resolves with (so the root path [getRootPath] hands
    on) neither begins nor ends with white space or a line terminator, and
    trimming it again changes nothing. *)
Theorem X2_resolved_output_is_trimmed
        (args : list string) (tr : list child_event) (out : string)
        (Hres : Zip.runPnpmCommand args tr = Some (inr out) \/
                SevenZip.runPnpmCommand args tr = Some (inr out)) :
  first_is_white out = false /\ last_is_white out = false /\ JS.trim out = out.
Proof.
  assert (H : exists s, out = JS.trim s).
  { destruct Hres as [H|H].
    - apply (zip_resolved_trimmed args tr cmd_init); [discriminate|exact H].
    - apply (sevenzip_resolved_trimmed args tr cmd_init); [discriminate|exact H]. }
  destruct H as [s ->]. split; [|split].
  - unfold JS.trim. apply trimEnd_head, trimStart_head.
  - unfold JS.trim. apply trimEnd_last.
  - apply trim_idem.
Qed.

Lemma X2_witness :
  Zip.runPnpmCommand ["root"]
    [StdoutData "  /ws/node_modules "; StdoutData nl; Exit (Some 0%Z)]
  = Some (inr "/ws/node_modules") /\
  JS.trim "/ws/node_modules" = "/ws/node_modules".
Proof.
  split; [reflexivity|].
  exact (proj2 (proj2 (X2_resolved_output_is_trimmed ["root"]
           [StdoutData "  /ws/node_modules "; StdoutData nl; Exit (Some 0%Z)]
           "/ws/node_modules" (or_introl eq_refl)))).
Defined.

(** ** The listing: how many paths, and what chunking does *)

Lemma split_on_length (sep : ascii) (s : string) :
  List.length (JS.split_on sep s) = S (count_char sep s).
Proof.
  induction s as [|c s IH]; simpl; [reflexivity|].
  destruct (Ascii.eqb c sep); simpl; [now rewrite IH|].
  destruct (JS.split_on sep s) as [|h t]; simpl in *; [discriminate|exact IH].
Qed.

Lemma count_char_app (c : ascii) (a b : string) :
  count_char c (a ++ b) = (count_char c a + count_char c b)%nat.
Proof. induction a as [|d a IH]; simpl; [reflexivity|]. rewrite IH. lia. Qed.

Lemma line_pieces_length (chunks : list string) :
  List.length (line_pieces chunks) =
  (list_sum (map (count_char JS.LF) chunks) + List.length chunks)%nat.
Proof.
  unfold line_pieces. induction chunks as [|ch chunks IH]; simpl; [reflexivity|].
  rewrite length_app, IH. unfold JS.split_nl. rewrite split_on_length. lia.
Qed.

(** X3: the number of paths the [zip] listing yields is the number of
    newlines in the output plus the number of chunks it arrived in, minus
    one (the discarded first line).  So it depends on the chunking: the
    same text delivered in two chunks instead of one yields one more path. *)
Theorem X3_paths_counted_by_newlines_and_chunks (chunks : list string) :
  (chunks <> [] ->
   S (List.length (Listing.parse chunks)) =
   (list_sum (map (count_char JS.LF) chunks) + List.length chunks)%nat) /\
  (forall a b, List.length (Listing.parse (a :: b :: chunks)) =
               S (List.length (Listing.parse ((a ++ b) :: chunks)))).
Proof.
  assert (Hlen : forall cs, cs <> [] ->
            S (List.length (Listing.parse cs)) =
            (list_sum (map (count_char JS.LF) cs) + List.length cs)%nat).
  { intros cs Hne. rewrite parse_pieces, length_map, <- line_pieces_length.
    destruct cs as [|c cs]; [congruence|].
    unfold line_pieces. simpl.
    pose proof (split_on_nonempty JS.LF c) as Hc. unfold JS.split_nl.
    destruct (JS.split_on JS.LF c); [congruence|]. reflexivity. }
  split; [apply Hlen|].
  intros a b.
  pose proof (Hlen (a :: b :: chunks) ltac:(discriminate)) as H1.
  pose proof (Hlen ((a ++ b) :: chunks) ltac:(discriminate)) as H2.
  simpl in H1, H2. rewrite count_char_app in H2. lia.
Qed.

Lemma X3_witness :
  ["hdr" ++ nl ++ "/ws/a"; "/b" ++ nl ++ "/ws/c"] <> [] /\
  Listing.parse ["hdr" ++ nl ++ "/ws/a"; "/b" ++ nl ++ "/ws/c"]
  = ["/ws/a"; "/b"; "/ws/c"] /\
  Listing.parse ["hdr" ++ nl ++ "/ws/a" ++ "/b" ++ nl ++ "/ws/c"]
  = ["/ws/a/b"; "/ws/c"] /\
  S (List.length (Listing.parse ["hdr" ++ nl ++ "/ws/a"; "/b" ++ nl ++ "/ws/c"]))
  = 4%nat.
Proof.
  assert (Hne : ["hdr" ++ nl ++ "/ws/a"; "/b" ++ nl ++ "/ws/c"] <> []) by discriminate.
  pose proof (proj1 (X3_paths_counted_by_newlines_and_chunks
                       ["hdr" ++ nl ++ "/ws/a"; "/b" ++ nl ++ "/ws/c"]) Hne) as H.
  split; [exact Hne|]. split; [reflexivity|]. split; [reflexivity|exact H].
Defined.

(** ** [createLSFile] and the [createArchive] of the [7zip] variant *)

Lemma split_on_pieces_clean (sep : ascii) (s piece : string) :
  In piece (JS.split_on sep s) -> has_char sep piece = false.
Proof.
  revert piece. induction s as [|c s IH]; simpl; intros piece.
  - intros [<-|[]]. reflexivity.
  - destruct (Ascii.eqb c sep) eqn:Hc.
    + intros [<-|H]; [reflexivity|auto].
    + destruct (JS.split_on sep s) as [|h t]; simpl.
      * intros [<-|[]]. simpl. now rewrite Hc.
      * intros [<-|H]; [|apply IH; now right].
        simpl. rewrite Hc. apply IH. now left.
Qed.

Lemma unique_lines_clean (chunks : list string) (u : list string) :
  Forall (fun l => has_char JS.LF l = false) u ->
  Forall (fun l => has_char JS.LF l = false)
         (fold_left (fun u chunk => SevenZip.add_lines chunk u) chunks u).
Proof.
  intros Hu. apply Forall_forall. intros l Hl.
  apply (fold_add_lines_spec chunks u) in Hl as [Hl|Hl].
  - rewrite Forall_forall in Hu. auto.
  - unfold line_pieces in Hl. apply in_flat_map in Hl as (ch & _ & Hl).
    eapply split_on_pieces_clean; exact Hl.
Qed.

(** X4: [createLSFile] has created the list file, empty, and stays
    pending until the listing child closes.  On [close] with code 0 it
    writes the set of lines, joined by newlines, to the list file and
    resolves with ['listfile.txt']; reading that file back line by line
    gives the set again (when the child printed anything).  On [close]
    with another code it rejects and leaves the list file behind, empty. *)
Theorem X4_createLSFile_writes_the_unique_lines
        (name : string) (quiet : list child_event) (code : option Z)
        (Hquiet : Forall (fun ev => is_quiet_ls ev = true) quiet) :
  let before := SevenZip.createLSFile name quiet in
  let after := SevenZip.createLSFile name (quiet ++ [Close code]) in
  let lines := SevenZip.uniqueLines before in
  SevenZip.ls_settled before = None /\ SevenZip.listfile before = Some "" /\
  (code = Some 0%Z ->
   SevenZip.ls_settled after = Some (inr "listfile.txt") /\
   SevenZip.listfile after = Some (String.concat nl lines) /\
   (stdout_chunks quiet <> [] -> JS.split_nl (String.concat nl lines) = lines)) /\
  (code <> Some 0%Z ->
   SevenZip.ls_settled after
   = Some (inl (CommandFailed "pnpm" (SevenZip.ls_args name) code None)) /\
   SevenZip.listfile after = Some "").
Proof.
  intros before after lines. subst before after lines.
  unfold SevenZip.createLSFile.
  destruct (ls_fold_quiet name quiet SevenZip.ls_init Hquiet) as [Hs Hf].
  simpl in Hs, Hf. split; [exact Hs|]. split; [exact Hf|].
  rewrite fold_left_app. simpl.
  set (st := fold_left (SevenZip.ls_on_event name) quiet SevenZip.ls_init) in *.
  split.
  - intros ->. simpl. unfold SevenZip.ls_settle. simpl. rewrite Hs. simpl.
    split; [reflexivity|]. split; [reflexivity|].
    intros Hne. unfold st. rewrite uniqueLines_fold. simpl.
    apply (split_on_concat JS.LF).
    + destruct (stdout_chunks quiet) as [|ch chunks]; [congruence|].
      intros Hnil.
      assert (Hin : In (hd "" (JS.split_nl ch))
                       (fold_left (fun u chunk => SevenZip.add_lines chunk u)
                                  (ch :: chunks) [])).
      { apply (fold_add_lines_spec (ch :: chunks) []). right.
        unfold line_pieces. simpl. apply in_app_iff. left.
        pose proof (split_on_nonempty JS.LF ch) as Hc. unfold JS.split_nl.
        destruct (JS.split_on JS.LF ch); [congruence|now left]. }
      rewrite Hnil in Hin. destruct Hin.
    + apply unique_lines_clean. constructor.
  - intros Hne.
    assert (Hc : code_nonzero code = true).
    { destruct (code_nonzero code) eqn:Hc; [reflexivity|].
      apply code_nonzero_false_iff in Hc. congruence. }
    rewrite Hc. unfold SevenZip.ls_settle. rewrite Hs. simpl.
    split; [reflexivity|exact Hf].
Qed.

Lemma X4_witness :
  let quiet := [StdoutData ("/ws/p" ++ nl ++ "/ws/a" ++ nl); StderrData "WARN";
                StdoutData ("/ws/a" ++ nl)] in
  Forall (fun ev => is_quiet_ls ev = true) quiet /\
  SevenZip.listfile (SevenZip.createLSFile "pkg" (quiet ++ [Close (Some 0%Z)]))
  = Some ("/ws/p" ++ nl ++ "/ws/a" ++ nl) /\
  SevenZip.listfile (SevenZip.createLSFile "pkg" (quiet ++ [Close (Some 2%Z)]))
  = Some "".
Proof.
  intros quiet.
  assert (Hq : Forall (fun ev => is_quiet_ls ev = true) quiet) by (repeat constructor).
  pose proof (X4_createLSFile_writes_the_unique_lines "pkg" quiet (Some 0%Z) Hq)
    as (_ & _ & H0 & _).
  pose proof (X4_createLSFile_writes_the_unique_lines "pkg" quiet (Some 2%Z) Hq)
    as (_ & _ & _ & H2).
  split; [exact Hq|]. split.
  - destruct (H0 eq_refl) as (_ & H & _). exact H.
  - destruct H2 as [_ H]; [discriminate|exact H].
Defined.

(** X5: the [createArchive] of the [7zip] variant spawns [7z] only after
    the listing child closed with code 0, and then its promise is
    fulfilled at once: a failure of [7z] rejects the promise of the
    [close] handler, which nobody awaits, and makes no root query.  When
    the listing closes with another code [createArchive] rejects with that
    failure and [7z] is never spawned.  The [output] argument has no part
    in any of it. *)
Theorem X5_sevenzip_createArchive
        (name output : string) (concurrency : Z) (verbose : bool)
        (quiet : list child_event) (code : option Z)
        (Hquiet : Forall (fun ev => is_quiet_ls ev = true) quiet) :
  let pnpm_ls := ("pnpm", SevenZip.ls_args name) in
  let run := SevenZipArchive.createArchive name output concurrency verbose in
  (SevenZipArchive.promise (run quiet) = None /\
   SevenZipArchive.children (run quiet) = [pnpm_ls]) /\
  (code = Some 0%Z ->
   SevenZipArchive.promise (run (quiet ++ [Close code])%list) = Some (inr tt) /\
   SevenZipArchive.children (run (quiet ++ [Close code])%list)
   = [pnpm_ls; ("7z", SevenZipArchive.sevenzip_args concurrency)] /\
   forall lsFilePath unlink_error root_trace code7,
     code7 <> Some 0%Z ->
     let closed := SevenZipArchive.on_close concurrency lsFilePath unlink_error
                                            root_trace code7 in
     SevenZipArchive.close_promise closed
     = Some (inl (CommandFailed "7z" (SevenZipArchive.sevenzip_args concurrency)
                                code7 None)) /\
     SevenZipArchive.root_spawned closed = false) /\
  (code <> Some 0%Z ->
   SevenZipArchive.promise (run (quiet ++ [Close code])%list)
   = Some (inl (CommandFailed "pnpm" (SevenZip.ls_args name) code None)) /\
   SevenZipArchive.children (run (quiet ++ [Close code])%list) = [pnpm_ls]) /\
  (forall output' trace,
      SevenZipArchive.createArchive name output' concurrency verbose trace
      = run trace).
Proof.
  intros pnpm_ls run. subst run. unfold SevenZipArchive.createArchive.
  destruct (X4_createLSFile_writes_the_unique_lines name quiet code Hquiet)
    as (Hb & _ & H0 & Hn).
  split; [rewrite Hb; split; reflexivity|]. split; [|split].
  - intros Hc. destruct (H0 Hc) as (Hs & _ & _). rewrite Hs.
    split; [reflexivity|]. split; [reflexivity|].
    intros lsFilePath unlink_error root_trace code7 Hne.
    unfold SevenZipArchive.on_close.
    assert (Hc7 : code_nonzero code7 = true).
    { destruct (code_nonzero code7) eqn:H7; [reflexivity|].
      apply code_nonzero_false_iff in H7. congruence. }
    rewrite Hc7. split; reflexivity.
  - intros Hc. destruct (Hn Hc) as (Hs & _). rewrite Hs. split; reflexivity.
  - reflexivity.
Qed.

Lemma X5_witness :
  let quiet := [StdoutData ("/ws/p" ++ nl ++ "/ws/a")] in
  Forall (fun ev => is_quiet_ls ev = true) quiet /\
  SevenZipArchive.children
    (SevenZipArchive.createArchive "pkg" "out.zip" 4 false (quiet ++ [Close (Some 0%Z)]))
  = [("pnpm", ["ls"; "--filter"; "pkg"; "--depth"; "Infinity"; "--parseable"]);
     ("7z", ["a"; "output"; "@listfile.txt"; "-aos"; "-spf"; "-spe"; "-mmt4"; "-mx9"])].
Proof.
  intros quiet.
  assert (Hq : Forall (fun ev => is_quiet_ls ev = true) quiet) by (repeat constructor).
  pose proof (X5_sevenzip_createArchive "pkg" "out.zip" 4 false quiet (Some 0%Z) Hq)
    as (_ & H0 & _).
  split; [exact Hq|]. destruct (H0 eq_refl) as (_ & H & _). exact H.
Defined.

(** ** [relativeOf] away from the root *)

Lemma prefix_split (p s : string) :
  String.prefix p s = true -> exists t, s = p ++ t.
Proof.
  revert s. induction p as [|c p IH]; intros s.
  - intros _. now exists s.
  - destruct s as [|d s]; simpl; [discriminate|].
    destruct (ascii_dec c d) as [->|]; [|discriminate].
    intros H. destruct (IH s H) as [t ->]. now exists t.
Qed.

Lemma drop_prefix (p s : string) :
  String.prefix p s = true ->
  exists t, s = p ++ t /\ JS.drop (String.length p) s = t.
Proof.
  intros H. destruct (prefix_split _ _ H) as [t ->]. exists t.
  split; [reflexivity|apply drop_append].
Qed.

Lemma occursb_unfold (pat s : string) :
  occursb pat s =
  String.prefix pat s
  || match s with
     | EmptyString => false
     | String _ s' => occursb pat s'
     end.
Proof. destruct s; reflexivity. Qed.

Lemma replace_absent (s pat : string) :
  occursb pat s = false -> JS.replace_first_by_empty s pat = s.
Proof.
  induction s as [|c s IH]; intros H; rewrite occursb_unfold in H;
    apply orb_false_iff in H as [Hp Hs]; rewrite replace_first_unfold, Hp.
  - reflexivity.
  - now rewrite (IH Hs).
Qed.

Lemma replace_leftmost (s pat : string) :
  occursb pat s = true ->
  exists pre post,
    s = pre ++ pat ++ post /\
    JS.replace_first_by_empty s pat = pre ++ post /\
    (forall pre' post', s = pre' ++ pat ++ post' ->
                        (String.length pre <= String.length pre')%nat).
Proof.
  induction s as [|c s IH]; intros H; rewrite occursb_unfold in H;
    rewrite replace_first_unfold.
  - rewrite orb_false_r in H. rewrite H.
    destruct (drop_prefix _ _ H) as (t & Ht & Hd).
    exists "", t. rewrite Hd.
    split; [exact Ht|]. split; [reflexivity|]. intros; simpl; lia.
  - destruct (String.prefix pat (String c s)) eqn:Hp.
    + destruct (drop_prefix _ _ Hp) as (t & Ht & Hd).
      exists "", t. rewrite Hd.
      split; [exact Ht|]. split; [reflexivity|]. intros; simpl; lia.
    + simpl in H. destruct (IH H) as (pre & post & Hs & Hr & Hmin).
      exists (String c pre), post. rewrite Hr.
      split; [simpl; now rewrite <- Hs|]. split; [reflexivity|].
      intros pre' post' Heq. destruct pre' as [|d pre'].
      * simpl in Heq. rewrite Heq, prefix_append in Hp. discriminate.
      * simpl in Heq. inversion Heq; subst. simpl.
        specialize (Hmin pre' post' H2). lia.
Qed.

(** X6: [relativeOf] does not look at where the root stands.  When the
    root does not occur in the path (or is empty), the result is the path
    without its first character; when it occurs, its leftmost occurrence
    is cut out, leading or not, and then the first character is dropped. *)
Theorem X6_relativeOf_cuts_the_leftmost_occurrence (rootPath absolutePath : string) :
  (rootPath = "" \/ occursb rootPath absolutePath = false ->
   Mapper.relativeOf rootPath absolutePath = JS.substring1 absolutePath) /\
  (occursb rootPath absolutePath = true ->
   exists pre post,
     absolutePath = pre ++ rootPath ++ post /\
     Mapper.relativeOf rootPath absolutePath = JS.substring1 (pre ++ post) /\
     (forall pre' post', absolutePath = pre' ++ rootPath ++ post' ->
                         (String.length pre <= String.length pre')%nat)).
Proof.
  unfold Mapper.relativeOf. split.
  - intros [->|H].
    + rewrite replace_first_unfold.
      assert (Hp : String.prefix "" absolutePath = true)
        by (destruct absolutePath; reflexivity).
      rewrite Hp. simpl. now destruct absolutePath.
    + now rewrite replace_absent.
  - intros H. destruct (replace_leftmost _ _ H) as (pre & post & H1 & H2 & H3).
    exists pre, post. rewrite H2. auto.
Qed.

Lemma X6_witness :
  occursb "/ws/node_modules" "/ws/packages/pkg" = false /\
  Mapper.relativeOf "/ws/node_modules" "/ws/packages/pkg" = "ws/packages/pkg" /\
  occursb "/ws" "/mnt/ws/lib" = true /\
  Mapper.relativeOf "/ws" "/mnt/ws/lib" = "mnt/lib".
Proof.
  pose proof (X6_relativeOf_cuts_the_leftmost_occurrence
                "/ws/node_modules" "/ws/packages/pkg") as [H _].
  split; [reflexivity|]. split; [exact (H (or_intror eq_refl))|].
  split; reflexivity.
Defined.

(** ** [addToArchive]: all it can do *)

Lemma getRootPath_answer (E : env) (w : world) :
  Mapper.getRootPath E w =
  match root_answer E w with
  | None => None
  | Some r => Some (with_root_child w, r)
  end.
Proof. reflexivity. Qed.

Lemma addToArchive_cases (E : env) (p : string) (v : bool) (w : world) :
  Mapper.addToArchive E p v w =
  match fs E p with
  | Missing => Some (mkWorld (spawned w) (archive w) (console w ++ [SkipWarning p]),
                     inr tt)
  | node =>
      match root_answer E w with
      | None => None
      | Some (inl e) => Some (with_root_child w, inl e)
      | Some (inr rootPath) =>
          Some (mkWorld (spawned w ++ [["root"]])
                        (archive w ++ entries_under E rootPath p)
                        (console w ++ if v then [Processing p] else []),
                match node with
                | Directory (inl e) => inl e
                | _ => inr tt
                end)
      end
  end.
Proof.
  destruct (fs E p) eqn:Hnode.
  - now apply addToArchive_missing.
  - pose proof (getRootPath_answer E w) as Hr.
    destruct (root_answer E w) as [[e|root]|].
    + apply addToArchive_root_fails; [congruence|exact Hr].
    + rewrite (addToArchive_on_disk E p v w (with_root_child w) root);
        [now rewrite Hnode|congruence|exact Hr].
    + apply addToArchive_no_root; [congruence|exact Hr].
  - pose proof (getRootPath_answer E w) as Hr.
    destruct (root_answer E w) as [[e|root]|].
    + apply addToArchive_root_fails; [congruence|exact Hr].
    + rewrite (addToArchive_on_disk E p v w (with_root_child w) root);
        [now rewrite Hnode|congruence|exact Hr].
    + apply addToArchive_no_root; [congruence|exact Hr].
  - pose proof (getRootPath_answer E w) as Hr.
    destruct (root_answer E w) as [[e|root]|].
    + apply addToArchive_root_fails; [congruence|exact Hr].
    + rewrite (addToArchive_on_disk E p v w (with_root_child w) root);
        [now rewrite Hnode|congruence|exact Hr].
    + apply addToArchive_no_root; [congruence|exact Hr].
Qed.

(** X7: [addToArchive] rejects exactly when the path is on disk and either
    its root query rejects (with that error) or the path is a directory
    that [readdir] cannot read (with that error); it never settles exactly
    when the path is on disk and the root query never settles.  A path
    that is neither a file nor a directory is passed over in silence. *)
Theorem X7_addToArchive_rejects_exactly_when
        (E : env) (absolutePath : string) (verbose : bool) (w : world) :
  (Mapper.addToArchive E absolutePath verbose w = None <->
   on_disk E absolutePath = true /\ root_answer E w = None) /\
  (forall e,
      (exists w', Mapper.addToArchive E absolutePath verbose w = Some (w', inl e)) <->
      on_disk E absolutePath = true /\
      (root_answer E w = Some (inl e) \/
       (exists rootPath, root_answer E w = Some (inr rootPath)) /\
       fs E absolutePath = Directory (inl e))) /\
  (forall rootPath,
      fs E absolutePath = OtherNode ->
      root_answer E w = Some (inr rootPath) ->
      Mapper.addToArchive E absolutePath verbose w =
      Some (mkWorld (spawned w ++ [["root"]]) (archive w)
                    (console w ++ if verbose then [Processing absolutePath] else []),
            inr tt)).
Proof.
  rewrite addToArchive_cases. unfold on_disk, with_root_child.
  split; [|split].
  - destruct (fs E absolutePath) as [| |[e|items]|];
      destruct (root_answer E w) as [[e'|root]|];
      split; try discriminate; try tauto; intros [H1 H2]; discriminate.
  - intros e.
    destruct (fs E absolutePath) as [| |[e0|items]|];
      destruct (root_answer E w) as [[e'|root]|]; split;
      try (intros [w' H]; discriminate);
      try (intros [Hd _]; discriminate);
      try (intros [w' H]; inversion H; subst; clear H; split; [reflexivity|];
           first [left; reflexivity
                 |right; split; [eexists; reflexivity|reflexivity]]);
      try (intros [_ [H|[[r H2] H3]]]; try discriminate;
           try (inversion H; subst); try (inversion H3; subst);
           eexists; reflexivity).
  - intros rootPath Hfs Hroot. rewrite Hfs, Hroot. unfold entries_under.
    rewrite Hfs. now rewrite app_nil_r.
Qed.

(** What the guarded add operation does to the world. *)
Lemma guarded_add_effect (E : env) (p : string) (v : bool) (w w' : world)
      (r : error + unit) :
  Mapper.guarded_add E p v w = Some (w', r) ->
  r = inr tt /\
  exists entries notices,
    archive w' = (archive w ++ entries)%list /\
    console w' = (console w ++ notices)%list /\
    (entries = [] \/ exists rootPath, entries = entries_under E rootPath p) /\
    (List.length notices <= 2)%nat /\
    Forall (fun n => n = SkipWarning p \/ n = Processing p \/ exists e, n = AddError e)
           notices.
Proof.
  intros H. split; [eapply PumpFacts.guarded_add_fulfils; eauto|].
  unfold Mapper.guarded_add, Mapper.catch in H. rewrite addToArchive_cases in H.
  unfold with_root_child, Mapper.console_write in H.
  destruct (fs E p) as [| |[e0|items]|] eqn:Hnode;
    [|destruct (root_answer E w) as [[e'|root]|]; [| |discriminate]..];
    inversion H; subst; clear H; simpl.
  - exists [], [SkipWarning p]. rewrite app_nil_r.
    split; [reflexivity|]. split; [reflexivity|]. split; [now left|].
    split; [simpl; lia|]. repeat (apply Forall_cons || apply Forall_nil); eauto.
  - exists [], [AddError e']. rewrite app_nil_r.
    split; [reflexivity|]. split; [reflexivity|]. split; [now left|].
    split; [simpl; lia|]. repeat (apply Forall_cons || apply Forall_nil); eauto.
  - exists (entries_under E root p), (if v then [Processing p] else []).
    split; [reflexivity|]. split; [reflexivity|]. split; [right; eauto|].
    destruct v; split; simpl; try lia;
      repeat (apply Forall_cons || apply Forall_nil); eauto.
  - exists [], [AddError e']. rewrite app_nil_r.
    split; [reflexivity|]. split; [reflexivity|]. split; [now left|].
    split; [simpl; lia|]. repeat (apply Forall_cons || apply Forall_nil); eauto.
  - exists (entries_under E root p),
           ((if v then [Processing p] else []) ++ [AddError e0])%list.
    rewrite app_assoc.
    split; [reflexivity|]. split; [reflexivity|]. split; [right; eauto|].
    destruct v; split; simpl; try lia;
      repeat (apply Forall_cons || apply Forall_nil); eauto.
  - exists [], [AddError e']. rewrite app_nil_r.
    split; [reflexivity|]. split; [reflexivity|]. split; [now left|].
    split; [simpl; lia|]. repeat (apply Forall_cons || apply Forall_nil); eauto.
  - exists (entries_under E root p), (if v then [Processing p] else []).
    split; [reflexivity|]. split; [reflexivity|]. split; [right; eauto|].
    destruct v; split; simpl; try lia;
      repeat (apply Forall_cons || apply Forall_nil); eauto.
  - exists [], [AddError e']. rewrite app_nil_r.
    split; [reflexivity|]. split; [reflexivity|]. split; [now left|].
    split; [simpl; lia|]. repeat (apply Forall_cons || apply Forall_nil); eauto.
  - exists (entries_under E root p), (if v then [Processing p] else []).
    split; [reflexivity|]. split; [reflexivity|]. split; [right; eauto|].
    destruct v; split; simpl; try lia;
      repeat (apply Forall_cons || apply Forall_nil); eauto.
Qed.

(** X8: the operation the pump dispatches,
    [addToArchive(...).catch(...)], never rejects, and it only adds: the
    archive and the console of before are prefixes of those after; the
    entries it adds are none or the entries of its own path under the root
    it was told, and it writes at most two notices, each a skip or a
    progress notice of its own path or an error notice. *)
Theorem X8_guarded_add_only_adds
        (E : env) (itemPath : string) (verbose : bool) (w w' : world)
        (r : error + unit)
        (Hrun : Mapper.guarded_add E itemPath verbose w = Some (w', r)) :
  r = inr tt /\
  exists entries notices,
    archive w' = (archive w ++ entries)%list /\
    console w' = (console w ++ notices)%list /\
    (entries = [] \/ exists rootPath, entries = entries_under E rootPath itemPath) /\
    (List.length notices <= 2)%nat /\
    Forall (fun n => n = SkipWarning itemPath \/ n = Processing itemPath \/
                     exists e, n = AddError e) notices.
Proof. exact (guarded_add_effect E itemPath verbose w w' r Hrun). Qed.

Lemma X8_witness :
  exists w',
    Mapper.guarded_add demo_env "/ws/node_modules/locked" true demo_world
    = Some (w', inr tt) /\
    archive w' = [] /\
    console w' = [Processing "/ws/node_modules/locked"; AddError (FsError "EACCES")].
Proof.
  eexists. split; [reflexivity|].
  pose proof (X8_guarded_add_only_adds demo_env "/ws/node_modules/locked" true
                demo_world _ _ eq_refl) as (_ & _).
  split; reflexivity.
Defined.

(** ** [projectExists] on names without pattern syntax *)

Lemma plain_name_my_pkg : plain_name "my-pkg".
Proof.
  intros c Hc. cbn [has_char] in Hc.
  repeat (apply orb_true_iff in Hc as [Hc|Hc];
          [apply Ascii.eqb_eq in Hc; subst; split; reflexivity|]).
  discriminate.
Qed.

(** X9: for a project name that holds no character of the pattern syntax
    and no line terminator, [projectExists] of either variant answers
    whether some line of the trimmed output of [pnpm list --filter name]
    begins with [name@]; it stays pending or rejects as the command
    does. *)
Theorem X9_projectExists_of_a_plain_name
        (projectName : string) (trace : list child_event)
        (Hplain : plain_name projectName) :
  projectExists Zip.runPnpmCommand projectName trace =
  match Zip.runPnpmCommand ["list"; "--filter"; projectName] trace with
  | None => Some None
  | Some (inl e) => Some (Some (inl e))
  | Some (inr output) =>
      Some (Some (inr (some_line_begins_with (projectName ++ "@") output)))
  end /\
  projectExists SevenZip.runPnpmCommand projectName trace =
  match SevenZip.runPnpmCommand ["list"; "--filter"; projectName] trace with
  | None => Some None
  | Some (inl e) => Some (Some (inl e))
  | Some (inr output) =>
      Some (Some (inr (some_line_begins_with (projectName ++ "@") output)))
  end.
Proof.
  unfold projectExists. split.
  - destruct (Zip.runPnpmCommand _ trace) as [[e|output]|]; try reflexivity.
    now rewrite (projectExists_test_plain projectName output Hplain).
  - destruct (SevenZip.runPnpmCommand _ trace) as [[e|output]|]; try reflexivity.
    now rewrite (projectExists_test_plain projectName output Hplain).
Qed.

Lemma X9_witness :
  plain_name "my-pkg" /\
  projectExists Zip.runPnpmCommand "my-pkg"
    [StdoutData ("Legend: production dependency" ++ nl ++ nl);
     StdoutData ("my-pkg@1.0.0 /ws/packages/my-pkg" ++ nl); Exit (Some 0%Z)]
  = Some (Some (inr true)) /\
  projectExists Zip.runPnpmCommand "my-pkg"
    [StdoutData ("other@1.0.0 /ws/packages/my-pkg@2" ++ nl); Exit (Some 0%Z)]
  = Some (Some (inr false)).
Proof.
  split; [exact plain_name_my_pkg|]. split.
  - rewrite (proj1 (X9_projectExists_of_a_plain_name "my-pkg" _ plain_name_my_pkg)).
    reflexivity.
  - rewrite (proj1 (X9_projectExists_of_a_plain_name "my-pkg" _ plain_name_my_pkg)).
    reflexivity.
Defined.

(** ** The order of the dispatches *)
Module PumpTrack.
Import Pump PumpInv PumpFacts.

Lemma then_same (p : nat) (r : reaction) (s : state) :
  listing (then_ p r s) = listing s /\
  dispatched (then_ p r s) = dispatched s /\
  phase_of (then_ p r s) = phase_of s.
Proof. unfold then_. destruct (is_settled p s); repeat split; reflexivity. Qed.

Lemma dispatch_same (itemPath : string) (s : state) :
  listing (dispatch itemPath s) = listing s /\
  dispatched (dispatch itemPath s) = (dispatched s ++ [itemPath])%list /\
  phase_of (dispatch itemPath s) = phase_of s.
Proof.
  unfold dispatch.
  destruct (then_same (List.length (dispatched s))
              (RDelete (List.length (dispatched s)))
              (mkState (returned s) (listing s) (dispatched s ++ [itemPath])
                 (outcomes s) (registered s)
                 (JS.set_add Nat.eq_dec (List.length (dispatched s)) (runningPromises s))
                 (microtasks s) (phase_of s) (races s) (all_waiting s)
                 (finalized s) (closed s) (world_of s))) as (H1 & H2 & H3).
  rewrite H1, H2, H3. repeat split; reflexivity.
Qed.

Lemma start_all_same (s : state) :
  listing (start_all s) = listing s /\
  dispatched (start_all s) = dispatched s /\
  (phase_of (start_all s) = AllWon \/ phase_of (start_all s) = AwaitAll).
Proof.
  destruct (runningPromises s) as [|q qs] eqn:Hr.
  - unfold start_all. rewrite Hr. simpl. auto.
  - rewrite start_all_eq by (rewrite Hr; discriminate). simpl. auto.
Qed.

(** The loop dispatches a prefix of its paths and keeps the others. *)
Lemma loop_same (C : config) (paths : list string) (s : state) :
  listing (loop C paths s) = listing s /\
  phase_of (loop C paths s) <> Listening /\
  (forall e, phase_of (loop C paths s) <> Crashed e) /\
  exists done,
    dispatched (loop C paths s) = (dispatched s ++ done)%list /\
    paths = (done ++ remaining (phase_of (loop C paths s)))%list.
Proof.
  revert s. induction paths as [|itemPath rest IH]; intros s; simpl.
  - destruct (start_all_same s) as (H1 & H2 & H3).
    rewrite H1, H2. split; [reflexivity|].
    split; [destruct H3 as [-> | ->]; discriminate|].
    split; [intros e; destruct H3 as [-> | ->]; discriminate|].
    exists []. rewrite app_nil_r. split; [reflexivity|].
    destruct H3 as [-> | ->]; reflexivity.
  - destruct (_ >=? _)%Z.
    + rewrite start_race_eq. simpl. split; [reflexivity|].
      split; [discriminate|]. split; [discriminate|].
      exists []. rewrite app_nil_r. split; reflexivity.
    + destruct (IH (dispatch itemPath s)) as (H1 & H2 & H3 & done & H4 & H5).
      destruct (dispatch_same itemPath s) as (D1 & D2 & D3).
      split; [congruence|]. split; [assumption|]. split; [assumption|].
      exists (itemPath :: done). split.
      * rewrite H4, D2, <- app_assoc. reflexivity.
      * simpl. congruence.
Qed.

Lemma ordered_loop (C : config) (paths : list string) (s : state) :
  Listing.allPaths (listing s) = (dispatched s ++ paths)%list ->
  ordered (loop C paths s).
Proof.
  intros Hacc. destruct (loop_same C paths s) as (H1 & _ & _ & done & H4 & H5).
  exists (remaining (phase_of (loop C paths s))). split; [|reflexivity].
  rewrite H1, Hacc, H4, <- app_assoc. congruence.
Qed.

(** A step that keeps the listing and the dispatches, and moves between
    phases that hold the same paths, keeps the order. *)
Lemma ordered_same (s s' : state) :
  ordered s ->
  listing s' = listing s -> dispatched s' = dispatched s ->
  ((forall e, phase_of s' <> Crashed e) ->
   (forall e, phase_of s <> Crashed e) /\
   remaining (phase_of s') = remaining (phase_of s)) ->
  ordered s'.
Proof.
  intros (rest & Hacc & Hrest) Hl Hd Hph.
  exists rest. rewrite Hl, Hd. split; [assumption|].
  intros Hnc. destruct (Hph Hnc) as (Hnc' & ->). auto.
Qed.

Lemma run_job_same (C : config) (j : job) (s : state) :
  phase_of s <> Listening -> ordered s ->
  listing (run_job C j s) = listing s /\
  phase_of (run_job C j s) <> Listening /\
  ordered (run_job C j s).
Proof.
  intros Hph Ho. destruct j as [p [q|r|]|]; simpl.
  - destruct (outcome_of p s) as [[e|]|];
      (split; [reflexivity|]); (split; assumption).
  - destruct (phase_of s) eqn:Hp; try (repeat split; auto; congruence).
    destruct (Nat.eqb r r0); [|repeat split; auto; congruence].
    destruct (outcome_of p s) as [[e|]|];
      (split; [reflexivity|]); (split; [simpl; congruence|]);
      try assumption;
      apply (ordered_same s); auto; simpl; rewrite ?Hp.
    + intros Hnc. exfalso. now apply (Hnc e).
    + intros _. split; [discriminate|reflexivity].
  - destruct (phase_of s) eqn:Hp; try (repeat split; auto; congruence).
    destruct (outcome_of p s) as [[e|]|].
    + split; [reflexivity|]. split; [simpl; congruence|].
      apply (ordered_same s); auto; simpl. intros Hnc. exfalso. now apply (Hnc e).
    + destruct (JS.set_delete Nat.eq_dec p (all_waiting s));
        (split; [reflexivity|]); (split; [simpl; congruence|]);
        apply (ordered_same s); auto; simpl; rewrite ?Hp;
        intros _; (split; [discriminate|reflexivity]).
    + repeat split; auto; congruence.
  - unfold resume. destruct (phase_of s) eqn:Hp; try (repeat split; auto; congruence).
    + destruct (loop_same C rest (dispatch itemPath s)) as (H1 & H2 & _).
      destruct (dispatch_same itemPath s) as (D1 & D2 & D3).
      split; [congruence|]. split; [assumption|].
      apply ordered_loop. rewrite D1, D2, <- app_assoc.
      destruct Ho as (rest' & Hacc & Hrest). rewrite Hacc, (Hrest ltac:(congruence)), Hp.
      reflexivity.
    + split; [reflexivity|]. split; [simpl; congruence|].
      apply (ordered_same s); auto; simpl; rewrite ?Hp.
      intros _; (split; [discriminate|reflexivity]).
    + split; [reflexivity|]. split; [simpl; congruence|].
      apply (ordered_same s); auto; simpl; rewrite ?Hp.
      intros _; (split; [discriminate|reflexivity]).
Qed.

(** Once [end] was emitted the listing is frozen, the handler never
    listens again, and the order of the dispatches is kept. *)
Lemma step_after_end (E : env) (C : config) (ev : event) (s s' : state) :
  phase_of s <> Listening -> ordered s ->
  step E C ev s = Some s' ->
  listing s' = listing s /\ phase_of s' <> Listening /\ ordered s' /\
  data_of [ev] = [].
Proof.
  intros Hph Ho H. apply step_handle in H as [H _].
  destruct ev as [chunk| |p| | |source]; simpl in H.
  - destruct (phase_of s); congruence.
  - destruct (phase_of s); congruence.
  - destruct (nth_error (dispatched s) p) as [itemPath|]; [|discriminate].
    destruct (is_settled p s); [discriminate|].
    unfold settle_promise in H.
    destruct (Mapper.guarded_add E itemPath (verbose C) (world_of s)) as [[w' res]|];
      [|discriminate].
    inversion H; subst; clear H. simpl.
    split; [reflexivity|]. split; [assumption|]. split; [|reflexivity].
    apply (ordered_same s); auto.
  - destruct (microtasks s) as [|j js]; [discriminate|]. inversion H; subst; clear H.
    destruct (run_job_same C j (set_microtasks js s)) as (H1 & H2 & H3); auto.
  - destruct (phase_of s) eqn:Hp; try discriminate.
    destruct (writable E s); [|discriminate]. inversion H; subst; clear H.
    simpl. split; [reflexivity|]. split; [discriminate|]. split; [|reflexivity].
    apply (ordered_same s); auto; simpl; rewrite ?Hp.
    intros _; (split; [discriminate|reflexivity]).
  - destruct (closed s); [discriminate|].
    destruct (queued source s); [|discriminate].
    destruct (writer_error E source) as [e|]; [|discriminate].
    inversion H; subst; clear H. simpl.
    split; [reflexivity|]. split; [discriminate|]. split; [|reflexivity].
    apply (ordered_same s); auto; simpl.
    intros Hnc. now destruct (Hnc e).
Qed.

Lemma step_track (E : env) (C : config) (chunks : list string) (ev : event)
      (s s' : state) :
  Track C chunks s -> step E C ev s = Some s' ->
  Track C (chunks ++ data_of [ev]) s'.
Proof.
  intros [Hl Hlis Hord] H.
  destruct (phase_of s) eqn:Hp;
    try (destruct (step_after_end E C ev s s') as (H1 & H2 & H3 & H4);
         [congruence|apply Hord; congruence|assumption|];
         rewrite H4, app_nil_r;
         split; [congruence|intros; contradiction|auto]).
  specialize (Hlis eq_refl). subst s. clear Hord Hl Hp.
  apply step_handle in H as [H _].
  destruct ev as [chunk| |p| | |source]; simpl in H; try discriminate.
  - inversion H; subst; clear H. simpl. split; simpl.
    + now rewrite fold_left_app.
    + intros _. unfold listening_state. now rewrite fold_left_app.
    + congruence.
  - inversion H; subst; clear H. rewrite app_nil_r.
    pose proof (loop_same C (Listing.allPaths (listing (listening_state C chunks)))
                  (listening_state C chunks)) as (H1 & H2 & _).
    split; [exact H1|intros; contradiction|].
    intros _.
    exact (ordered_loop C (Listing.allPaths (listing (listening_state C chunks)))
             (listening_state C chunks) eq_refl).
  - destruct p; discriminate.
Qed.

Lemma track_init (C : config) : Track C [] (createArchive C).
Proof. split; [reflexivity|reflexivity|simpl; congruence]. Qed.

Lemma run_track (E : env) (C : config) (evs : list event) (chunks : list string)
      (s s' : state) :
  Track C chunks s -> run E C evs s = Some s' ->
  Track C (chunks ++ data_of evs) s'.
Proof.
  revert chunks s. induction evs as [|ev evs IH]; intros chunks s Ht H; simpl in H.
  - inversion H; subst. simpl. now rewrite app_nil_r.
  - destruct (step E C ev s) as [s1|] eqn:Hs; [|discriminate].
    apply (step_track E C chunks ev s s1 Ht) in Hs.
    apply (IH _ _ Hs) in H. rewrite <- app_assoc in H.
    replace (data_of (ev :: evs)) with (data_of [ev] ++ data_of evs)%list; [assumption|].
    destruct ev; reflexivity.
Qed.

Lemma reachable_track (E : env) (C : config) (s : state) :
  reachable E C s -> exists chunks, Track C chunks s.
Proof.
  induction 1 as [|s ev s' _ (chunks & Ht) Hs].
  - exists []. apply track_init.
  - exists (chunks ++ data_of [ev])%list. eapply step_track; eauto.
Qed.

End PumpTrack.

(** X10: however a run of the pump goes, the listing is what the [data]
    handler made of the chunks of the run; until [end] nothing else has
    happened (no add operation, no child but the listing one, an empty
    archive); and the paths dispatched are the first paths of the listing,
    in its order. *)
Theorem X10_dispatches_follow_the_listing
        (E : env) (C : Pump.config) (evs : list Pump.event) (s : Pump.state)
        (Hrun : Pump.run E C evs (Pump.createArchive C) = Some s) :
  Pump.listing s = fold_left Listing.on_data (data_of evs) Listing.init /\
  (Pump.phase_of s = Pump.Listening -> s = listening_state C (data_of evs)) /\
  exists rest,
    Listing.parse (data_of evs) = (Pump.dispatched s ++ rest)%list.
Proof.
  destruct (PumpTrack.run_track E C evs [] _ s (PumpTrack.track_init C) Hrun)
    as [Hl Hlis Hord].
  simpl in *. split; [assumption|]. split; [assumption|].
  unfold Listing.parse. rewrite <- Hl.
  destruct (Pump.phase_of s) eqn:Hp;
    try (destruct Hord as (rest' & Hacc & _); [congruence|now exists rest']).
  rewrite (Hlis eq_refl). simpl. eauto.
Qed.

Lemma X10_witness :
  Pump.dispatched (demo_state 7)
  = ["/ws/node_modules/a/index.js"; "/ws/node_modules/gone"; ""] /\
  exists rest,
    Listing.parse (data_of (firstn 7 demo_events)) =
    (Pump.dispatched (demo_state 7) ++ rest)%list.
Proof.
  split; [vm_compute; reflexivity|].
  assert (Hrun : Pump.run demo_env demo_config (firstn 7 demo_events)
                          (Pump.createArchive demo_config) = Some (demo_state 7))
    by (vm_compute; reflexivity).
  exact (proj2 (proj2 (X10_dispatches_follow_the_listing
                         demo_env demo_config (firstn 7 demo_events)
                         (demo_state 7) Hrun))).
Defined.

(** ** A ceiling that leaves no room *)

Lemma no_room_states (E : env) (C : Pump.config) (s : Pump.state) :
  (Pump.concurrency C <= 0)%Z -> Pump.reachable E C s ->
  exists chunks,
    s = listening_state C chunks \/
    (Pump.phase_of s <> Pump.Listening /\
     Listing.allPaths (Pump.listing s) = []) \/
    exists itemPath rest,
      Listing.parse chunks = itemPath :: rest /\
      s = stuck_state C chunks itemPath rest.
Proof.
  intros Hc. induction 1 as [|s ev s' Hr (chunks & IH) Hs].
  - exists []. now left.
  - destruct IH as [->|[(Hph & Hnil)|(itemPath & rest & Hp & ->)]].
    + apply PumpFacts.step_handle in Hs as [Hs _].
      destruct ev as [chunk| |p| | |source]; simpl in Hs; try discriminate.
      * inversion Hs; subst; clear Hs. exists (chunks ++ [chunk])%list. left.
        unfold listening_state. now rewrite fold_left_app.
      * inversion Hs; subst; clear Hs. exists chunks.
        fold (Listing.parse chunks).
        destruct (Listing.parse chunks) as [|itemPath rest] eqn:Hp.
        -- right; left. simpl. split; [discriminate|exact Hp].
        -- right; right. exists itemPath, rest. split; [reflexivity|].
           simpl. destruct (Z.geb_spec 0 (Pump.concurrency C)); [reflexivity|lia].
      * destruct p; discriminate.
    + exists chunks. right; left.
      destruct (PumpTrack.reachable_track E C s Hr) as (chunks' & [_ _ Hord]).
      destruct (PumpTrack.step_after_end E C ev s s' Hph (Hord Hph) Hs)
        as (H1 & H2 & _).
      split; [assumption|congruence].
    + apply PumpFacts.step_handle in Hs as [Hs _].
      destruct ev as [chunk| |p| | |source]; simpl in Hs; try discriminate.
      destruct p; discriminate.
Qed.

(** X11: with a ceiling of zero or less and a listing of at least one
    path, the [end] handler awaits a race over no promise at the first
    path: no add operation is ever created, the archive stays empty and
    is never finalized, and no event can follow. *)
Theorem X11_no_room_no_dispatch
        (E : env) (C : Pump.config) (s : Pump.state)
        (Hceiling : (Pump.concurrency C <= 0)%Z)
        (Hreach : Pump.reachable E C s)
        (Hended : Pump.phase_of s <> Pump.Listening)
        (Hpaths : Listing.allPaths (Pump.listing s) <> []) :
  (exists itemPath rest,
      Listing.allPaths (Pump.listing s) = itemPath :: rest /\
      Pump.phase_of s = Pump.AwaitRace 0 itemPath rest) /\
  Pump.dispatched s = [] /\
  Pump.runningPromises s = [] /\
  archive (Pump.world_of s) = [] /\
  Pump.finalized s = false /\
  forall ev, Pump.step E C ev s = None.
Proof.
  destruct (no_room_states E C s Hceiling Hreach)
    as (chunks & [->|[(_ & Hnil)|(itemPath & rest & Hp & ->)]]).
  - now destruct Hended.
  - now destruct Hpaths.
  - split; [exists itemPath, rest; split; [exact Hp|reflexivity]|].
    repeat (split; [reflexivity|]).
    intros [chunk| |p| | |source]; try reflexivity. now destruct p.
Qed.

Lemma X11_witness :
  exists s,
    Pump.run demo_env (Pump.mkConfig "pkg" "out.zip" 0 true)
      [Pump.EvData ("/ws/packages/pkg" ++ nl ++ "/ws/a"); Pump.EvEnd]
      (Pump.createArchive (Pump.mkConfig "pkg" "out.zip" 0 true)) = Some s /\
    Pump.dispatched s = [] /\
    forall ev, Pump.step demo_env (Pump.mkConfig "pkg" "out.zip" 0 true) ev s = None.
Proof.
  eexists. split; [reflexivity|].
  refine (let H := X11_no_room_no_dispatch demo_env
                     (Pump.mkConfig "pkg" "out.zip" 0 true) _ _ _ _ _ in
          conj (proj1 (proj2 H)) (proj2 (proj2 (proj2 (proj2 (proj2 H)))))).
  - simpl. lia.
  - eapply run_reachable; [apply Pump.reach_init|].
    instantiate (1 := [Pump.EvData ("/ws/packages/pkg" ++ nl ++ "/ws/a"); Pump.EvEnd]).
    reflexivity.
  - discriminate.
  - discriminate.
Defined.

(** ** Where the entries of the archive come from *)




(** ** How long the handler can run *)

Lemma run_app (E : env) (C : Pump.config) (evs1 evs2 : list Pump.event)
      (s : Pump.state) :
  Pump.run E C (evs1 ++ evs2) s =
  match Pump.run E C evs1 s with
  | Some s1 => Pump.run E C evs2 s1
  | None => None
  end.
Proof.
  revert s. induction evs1 as [|ev evs1 IH]; intros s; simpl; [reflexivity|].
  destruct (Pump.step E C ev s); [apply IH|reflexivity].
Qed.

Lemma run_cost (E : env) (C : Pump.config) (evs : list Pump.event)
      (s s' : Pump.state) :
  PumpInv.Safe C s -> Pump.phase_of s <> Pump.Listening ->
  Pump.run E C evs s = Some s' ->
  (List.length evs + PumpInv.cost s' <= PumpInv.cost s)%nat.
Proof.
  revert s. induction evs as [|ev evs IH]; intros s Hsafe Hph H; simpl in H.
  - inversion H; subst. simpl. lia.
  - destruct (Pump.step E C ev s) as [s1|] eqn:Hs; [|discriminate].
    pose proof (PumpFacts.safe_step E C ev s s1 Hsafe Hs) as Hsafe1.
    destruct Hsafe as [Hi|(s0 & e & _ & ->)]; [|discriminate].
    destruct (PumpProgress.cost_step E C ev s s1 Hi Hph Hs) as (Hlt & Hph1).
    specialize (IH s1 Hsafe1 Hph1 H). simpl. lia.
Qed.

(** X13: the [end] handler cannot run forever.  With a ceiling of zero or
    more and a listing of [n] paths, no run has more than
    [n * (n + 3) + n + 6] events after [end], whatever the order in which
    the add operations settle. *)
Theorem X13_events_after_end_are_bounded
        (E : env) (C : Pump.config) (before after : list Pump.event)
        (s : Pump.state)
        (Hceiling : (0 <= Pump.concurrency C)%Z)
        (Hrun : Pump.run E C (before ++ Pump.EvEnd :: after)%list
                         (Pump.createArchive C) = Some s) :
  (List.length after <=
   List.length (Listing.parse (data_of before))
   * (List.length (Listing.parse (data_of before)) + 3)
   + List.length (Listing.parse (data_of before)) + 6)%nat.
Proof.
  rewrite run_app in Hrun.
  destruct (Pump.run E C before (Pump.createArchive C)) as [s0|] eqn:H0;
    [|discriminate].
  simpl in Hrun.
  destruct (Pump.step E C Pump.EvEnd s0) as [s1'|] eqn:Hend; [|discriminate].
  apply PumpFacts.step_handle in Hend as [Hend _]. simpl in Hend.
  destruct (Pump.phase_of s0) eqn:Hp; try discriminate.
  inversion Hend; subst s1'; clear Hend.
  pose proof (PumpTrack.run_track E C before [] _ s0 (PumpTrack.track_init C) H0)
    as [_ Hlis _].
  specialize (Hlis Hp). simpl in Hlis.
  assert (Hr0 : Pump.reachable E C s0)
    by (eapply run_reachable; [apply Pump.reach_init|exact H0]).
  assert (Hi0 : PumpInv.Inv C s0)
    by (apply (PumpFacts.reachable_inv E C s0 Hceiling Hr0); rewrite Hp; discriminate).
  set (s1 := Pump.loop C (Listing.allPaths (Pump.listing s0)) s0) in *.
  assert (Hi1 : PumpInv.Inv C s1).
  { apply (PumpFacts.inv_handle E C Pump.EvEnd s0 s1 Hi0); [|discriminate].
    simpl. now rewrite Hp. }
  destruct (PumpProgress.cost_loop C (Listing.allPaths (Pump.listing s0)) s0
              (PumpInv.core _ _ Hi0)) as (Hcost & Hph1 & _).
  { destruct (PumpInv.listening _ _ Hi0 Hp) as (-> & _). reflexivity. }
  pose proof (run_cost E C after s1 s (or_introl Hi1) Hph1 Hrun) as Hlen.
  assert (Hb : PumpInv.base_cost s0 = 0%nat) by (rewrite Hlis; reflexivity).
  assert (Hn : Listing.allPaths (Pump.listing s0) = Listing.parse (data_of before))
    by (rewrite Hlis; reflexivity).
  fold s1 in Hcost. rewrite Hb, Hn in Hcost. lia.
Qed.

Lemma X13_witness :
  (List.length (skipn 3 demo_events) <=
   List.length (Listing.parse (data_of (firstn 2 demo_events)))
   * (List.length (Listing.parse (data_of (firstn 2 demo_events))) + 3)
   + List.length (Listing.parse (data_of (firstn 2 demo_events))) + 6)%nat.
Proof.
  apply (X13_events_after_end_are_bounded demo_env demo_config
           (firstn 2 demo_events) (skipn 3 demo_events) (demo_state 27)).
  - simpl. lia.
  - vm_compute. reflexivity.
Defined.

(** ** The command handlers *)

Lemma endsWith_spec (s suffix : string) :
  Cli.endsWith s suffix = true <-> exists stem, s = stem ++ suffix.
Proof.
  induction s as [|c s IH].
  - simpl. destruct suffix as [|d suffix]; simpl.
    + split; [now exists ""|reflexivity].
    + split; [discriminate|]. intros ([|c stem] & H); discriminate.
  - cbn [Cli.endsWith]. destruct (String.eqb (String c s) suffix) eqn:Heq.
    + apply String.eqb_eq in Heq. split; [|reflexivity]. intros _. now exists "".
    + apply String.eqb_neq in Heq. rewrite IH. split.
      * intros (stem & ->). now exists (String c stem).
      * intros ([|c' stem] & H); simpl in H; [congruence|].
        inversion H; subst. now exists stem.
Qed.

Lemma validate_cases (E : env) (dirname : string -> string)
      (project output : string) (concurrency : Z) (verbose : bool)
      (exists_ : option (error + bool)) :
  match Cli.validate E dirname project output concurrency verbose exists_ with
  | inr (log, C) =>
      exists_ = Some (inr true) /\ Cli.endsWith output ".zip" = true /\
      on_disk E (dirname output) = true /\
      C = Pump.mkConfig project output concurrency verbose /\
      log = [Cli.CheckingProject project; Cli.CheckingOutput output]
  | inl r =>
      Cli.archive_call r = None /\
      match Cli.outcome_of r with
      | Cli.Pending => exists_ = None
      | Cli.Exited code =>
          code = 1%Z /\
          (exists_ = Some (inr false) \/
           exists_ = Some (inr true) /\ Cli.endsWith output ".zip" = false)
      | Cli.Threw e =>
          (exists e0, exists_ = Some (inl e0) /\ e = Cli.CommandError e0) \/
          (exists_ = Some (inr true) /\ Cli.endsWith output ".zip" = true /\
           on_disk E (dirname output) = false /\
           e = Cli.OutputDirMissing (dirname output))
      | Cli.Returned => False
      end
  end.
Proof.
  unfold Cli.validate, on_disk.
  destruct exists_ as [[e0|[|]]|]; simpl; eauto.
  destruct (Cli.endsWith output ".zip"); simpl; eauto.
  destruct (fs E (dirname output)); simpl; repeat split; eauto 10.
Qed.

(** X14: either handler calls [createArchive] exactly when
    [projectExists] answered [true], the output path ends with [.zip] and
    its directory can be accessed, and then with the arguments of the
    command line as they are; the [zip] handler is done as soon as it has
    called it. *)
Theorem X14_createArchive_is_called_exactly_when
        (E : env) (dirname : string -> string)
        (project output : string) (concurrency : Z) (verbose : bool)
        (exists_ : option (error + bool)) (ls_trace : list child_event)
        (C : Pump.config) :
  (Cli.archive_call
     (Cli.zip_handler E dirname project output concurrency verbose exists_) = Some C
   <->
   exists_ = Some (inr true) /\ (exists stem, output = stem ++ ".zip") /\
   on_disk E (dirname output) = true /\
   C = Pump.mkConfig project output concurrency verbose) /\
  (Cli.archive_call
     (Cli.zip_handler E dirname project output concurrency verbose exists_) = Some C ->
   Cli.outcome_of
     (Cli.zip_handler E dirname project output concurrency verbose exists_)
   = Cli.Returned) /\
  Cli.archive_call
    (Cli.sevenzip_handler E dirname project output concurrency verbose exists_ ls_trace)
  = Cli.archive_call
      (Cli.zip_handler E dirname project output concurrency verbose exists_).
Proof.
  pose proof (validate_cases E dirname project output concurrency verbose exists_) as Hv.
  unfold Cli.zip_handler, Cli.sevenzip_handler, Cli.catch_exit.
  destruct (Cli.validate E dirname project output concurrency verbose exists_)
    as [r|[log C']].
  - destruct Hv as (Hnone & Hout). rewrite Hnone. split; [|split].
    + split; [discriminate|]. intros (He & Hz & Hd & _).
      apply endsWith_spec in Hz.
      destruct (Cli.outcome_of r) as [|code|e|].
      * congruence.
      * destruct Hout as (_ & [H|(_ & H)]); congruence.
      * destruct Hout as [(e0 & H & _)|(_ & _ & H & _)]; congruence.
      * destruct Hout.
    + discriminate.
    + destruct (Cli.outcome_of r); simpl; congruence.
  - destruct Hv as (He & Hz & Hd & -> & ->). apply endsWith_spec in Hz.
    split; [|split].
    + simpl. split.
      * intros H. inversion H; subst. auto.
      * intros (_ & _ & _ & ->). reflexivity.
    + reflexivity.
    + destruct (SevenZipArchive.promise _) as [[e|u]|]; reflexivity.
Qed.

(** X15: the handler of the [7zip] command never leaves a rejected
    promise: whatever the [zip] handler throws on the same input (the
    failure of [pnpm list], a missing output directory), the [7zip] handler
    reports with one more notice and exits with code 1; and so it does
    when its [createArchive] rejects.  The [zip] handler throws in exactly
    those two cases. *)
Theorem X15_sevenzip_handler_never_throws
        (E : env) (dirname : string -> string)
        (project output : string) (concurrency : Z) (verbose : bool)
        (exists_ : option (error + bool)) (ls_trace : list child_event) :
  let zip := Cli.zip_handler E dirname project output concurrency verbose exists_ in
  let sevenzip :=
    Cli.sevenzip_handler E dirname project output concurrency verbose exists_ ls_trace in
  (forall e, Cli.outcome_of sevenzip <> Cli.Threw e) /\
  (forall e,
      Cli.outcome_of zip = Cli.Threw e <->
      (exists e0, exists_ = Some (inl e0) /\ e = Cli.CommandError e0) \/
      (exists_ = Some (inr true) /\ (exists stem, output = stem ++ ".zip") /\
       on_disk E (dirname output) = false /\
       e = Cli.OutputDirMissing (dirname output))) /\
  (forall e,
      Cli.outcome_of zip = Cli.Threw e ->
      Cli.outcome_of sevenzip = Cli.Exited 1 /\
      Cli.console_of sevenzip = (Cli.console_of zip ++ [Cli.AnErrorOccurred e])%list) /\
  (forall e,
      Cli.outcome_of zip = Cli.Returned ->
      SevenZipArchive.promise
        (SevenZipArchive.createArchive project output concurrency verbose ls_trace)
      = Some (inl e) ->
      Cli.outcome_of sevenzip = Cli.Exited 1 /\
      Cli.console_of sevenzip =
      (Cli.console_of zip ++ [Cli.AnErrorOccurred (Cli.CommandError e)])%list).
Proof.
  intros zip sevenzip. subst zip sevenzip.
  pose proof (validate_cases E dirname project output concurrency verbose exists_) as Hv.
  unfold Cli.zip_handler, Cli.sevenzip_handler, Cli.catch_exit.
  destruct (Cli.validate E dirname project output concurrency verbose exists_)
    as [r|[log C']].
  - destruct Hv as (Hnone & Hout).
    destruct (Cli.outcome_of r) as [|code|e'|] eqn:Ho; simpl; rewrite ?Ho.
    + split; [discriminate|]. split; [|split; discriminate].
      intros e. split; [discriminate|].
      intros [(e0 & H & _)|(H & _)]; congruence.
    + split; [discriminate|]. split; [|split; discriminate].
      intros e. split; [discriminate|]. destruct Hout as (_ & Hout).
      intros [(e0 & H & _)|(H & Hz & _)].
      * destruct Hout as [H'|(H' & _)]; congruence.
      * apply endsWith_spec in Hz. destruct Hout as [H'|(_ & H')]; congruence.
    + split; [discriminate|]. split; [|split].
      * intros e. split.
        -- intros H. inversion H; subst.
           destruct Hout as [?|(H1 & Hz & H2 & H3)]; [now left|right].
           apply endsWith_spec in Hz. auto.
        -- intros [(e0 & H & ->)|(H & Hz & Hd & ->)];
             destruct Hout as [(e1 & H1 & ->)|(H1 & _ & _ & ->)]; congruence.
      * intros e H. inversion H; subst. split; reflexivity.
      * discriminate.
    + destruct Hout.
  - destruct Hv as (He & Hz & Hd & -> & ->). simpl.
    split; [|split; [|split]].
    + intros e. destruct (SevenZipArchive.promise _) as [[e1|u]|]; discriminate.
    + intros e. split; [discriminate|].
      intros [(e0 & H & _)|(_ & _ & H & _)]; congruence.
    + discriminate.
    + intros e _ ->. split; reflexivity.
Qed.
